(** * makeIndex.js: directory walk, natural sort and HTML index

    A shallow embedding of [src/makeIndex.js] and the properties its
    specification states about it.

    Conventions of the model.
    - A JavaScript string is a [string]: each [ascii] is one UTF-16 code unit
      in the range U+0000..U+00FF.  File names outside that range are outside
      the model (their lowercasing needs the Unicode tables, and [encodeURI]
      raises on unpaired surrogates).
    - Paths follow the POSIX flavour of Node's [path] module ([path.sep] is
      the slash).
    - A JavaScript number is a [jsnum]: an integer that a binary64 float
      holds exactly, or one of the two infinities.  NaN is the [None] of
      [Number_of_string]; no token and no comparator result is NaN except
      where said.
    - [Array.prototype.sort] is the sort of V8, the engine of Node: a
      TimSort that finds runs, lengthens short ones by binary insertion and
      merges them, galloping where one run keeps winning.  Where the
      comparator is inconsistent (a number against text) ECMAScript leaves
      the order to the engine, and the order of the model is V8's.
    - [writeFile] opens the file, which empties it, and then writes: a
      write that fails is an event of its own, after which the file may be
      empty or hold a part of the data. *)

From Stdlib Require Import List String Ascii ZArith Lia Bool Permutation Sorted DecimalString.
Import ListNotations.
Open Scope string_scope.
Open Scope Z_scope.

(** ** Code units *)

Module Char.

Definition code (c : ascii) : nat := nat_of_ascii c.

(** [\d] without the unicode flag: the ten ASCII digits. *)
Definition is_digit (c : ascii) : bool :=
  (Nat.leb 48 (code c) && Nat.leb (code c) 57)%bool.

(** StrWhiteSpaceChar of ECMAScript (WhiteSpace and LineTerminator), below
    U+0100: TAB, LF, VT, FF, CR, SP and NBSP. *)
Definition is_space (c : ascii) : bool :=
  (Nat.leb 9 (code c) && Nat.leb (code c) 13
   || Nat.eqb (code c) 32 || Nat.eqb (code c) 160)%bool.

(** The uppercase letters below U+0100: A-Z, and U+00C0..U+00DE except the
    multiplication sign U+00D7. *)
Definition is_upper (c : ascii) : bool :=
  (Nat.leb 65 (code c) && Nat.leb (code c) 90
   || Nat.leb 192 (code c) && Nat.leb (code c) 222
      && negb (Nat.eqb (code c) 215))%bool.

Definition toLowerCase (c : ascii) : ascii :=
  if is_upper c then ascii_of_nat (code c + 32) else c.

Definition digit_value (c : ascii) : Z := Z.of_nat (code c) - 48.

End Char.

(** ** Strings *)

Fixpoint toLowerCase (s : string) : string :=
  match s with
  | EmptyString => EmptyString
  | String c s' => String (Char.toLowerCase c) (toLowerCase s')
  end.

Fixpoint all_digits (s : string) : bool :=
  match s with
  | EmptyString => true
  | String c s' => (Char.is_digit c && all_digits s')%bool
  end.

Fixpoint trim_start (s : string) : string :=
  match s with
  | EmptyString => EmptyString
  | String c s' => if Char.is_space c then trim_start s' else s
  end.

Fixpoint trim_end (s : string) : string :=
  match s with
  | EmptyString => EmptyString
  | String c s' =>
      match trim_end s' with
      | EmptyString => if Char.is_space c then EmptyString else String c EmptyString
      | r => String c r
      end
  end.

Definition trim (s : string) : string := trim_end (trim_start s).

(** [s.endsWith(suffix)] *)
Definition endsWith (s suffix : string) : bool :=
  let n := String.length s in
  let m := String.length suffix in
  (Nat.leb m n && String.eqb (substring (n - m) m s) suffix)%bool.

(** [s.split(sep)] for a one-character separator: never the empty list. *)
Fixpoint str_split (sep : ascii) (s : string) : list string :=
  match s with
  | EmptyString => [EmptyString]
  | String c s' =>
      if Ascii.eqb c sep then EmptyString :: str_split sep s'
      else match str_split sep s' with
           | r :: rs => String c r :: rs
           | [] => [String c EmptyString]
           end
  end.

(** [parts.join(sep)] *)
Fixpoint arr_join (sep : string) (parts : list string) : string :=
  match parts with
  | [] => EmptyString
  | [p] => p
  | p :: ps => p ++ sep ++ arr_join sep ps
  end.

(** ** Numbers *)

Inductive jsnum : Type :=
| Fin (z : Z)
| PosInf
| NegInf.

Definition jsnum_eqb (x y : jsnum) : bool :=
  match x, y with
  | Fin a, Fin b => Z.eqb a b
  | PosInf, PosInf => true
  | NegInf, NegInf => true
  | _, _ => false
  end.

(** Round a positive integer to the nearest binary64 value, ties to even,
    as V8 reads a run of digits: 53 significant bits are kept; from
    2^1024 - 2^970 on the result is infinite ([None]). *)
Definition round_pos (p : Z) : option Z :=
  let e := Z.log2 p - 52 in
  if e <=? 0 then Some p
  else
    let q := p / 2 ^ e in
    let r := p mod 2 ^ e in
    let half := 2 ^ (e - 1) in
    let q' := if (half <? r) || ((r =? half) && Z.odd q) then q + 1 else q in
    let v := q' * 2 ^ e in
    if 2 ^ 1024 <=? v then None else Some v.

Definition round_double (z : Z) : jsnum :=
  match z with
  | 0 => Fin 0
  | Zpos _ => match round_pos z with Some v => Fin v | None => PosInf end
  | Zneg _ => match round_pos (- z) with Some v => Fin (- v) | None => NegInf end
  end.

(** [x - y] for two numbers that are not equal (the comparator subtracts
    only behind [x !== y], so infinity minus itself does not arise and is
    given the value 0 here in place of NaN). *)
Definition jsnum_sub (x y : jsnum) : jsnum :=
  match x, y with
  | Fin a, Fin b => round_double (a - b)
  | PosInf, PosInf => Fin 0
  | NegInf, NegInf => Fin 0
  | PosInf, _ => PosInf
  | NegInf, _ => NegInf
  | _, PosInf => NegInf
  | _, NegInf => PosInf
  end.

(** [x < y] on numbers. *)
Definition jsnum_ltb (x y : jsnum) : bool :=
  match x, y with
  | Fin a, Fin b => a <? b
  | NegInf, (Fin _ | PosInf) => true
  | Fin _, PosInf => true
  | _, _ => false
  end.

(** The sign of a number: all that a sort reads of a comparator result. *)
Definition jsnum_sgn (x : jsnum) : Z :=
  match x with
  | Fin z => Z.sgn z
  | PosInf => 1
  | NegInf => -1
  end.

Fixpoint decimal_value (acc : Z) (s : string) : Z :=
  match s with
  | EmptyString => acc
  | String c s' => decimal_value (10 * acc + Char.digit_value c) s'
  end.

(** [Number(t)] (and so [isNaN(t)]) on the strings that reach it in this
    program: a token is a run of digits or a run without any digit, so the
    numeric literals that need a digit next to another character (fractions,
    exponents, hexadecimal, signs) cannot occur.  Surrounding white space is
    dropped; the empty string is 0; [None] is NaN. *)
Definition Number_of_string (t : string) : option jsnum :=
  let t' := trim t in
  if String.eqb t' "" then Some (Fin 0)
  else if all_digits t' then Some (round_double (decimal_value 0 t'))
  else if String.eqb t' "Infinity" || String.eqb t' "+Infinity" then Some PosInf
  else if String.eqb t' "-Infinity" then Some NegInf
  else None.

Definition isNaN (t : string) : bool :=
  match Number_of_string t with None => true | Some _ => false end.

(** ** Paths (POSIX) *)

Module Path.

Definition sep : ascii := "/"%char.

(** The segments of a normalized path: empty and [.] segments are dropped,
    a [..] drops the segment before it (at the root it is dropped itself). *)
Fixpoint normalize_acc (rev_acc : list string) (segs : list string) : list string :=
  match segs with
  | [] => rev rev_acc
  | s :: rest =>
      if String.eqb s "" || String.eqb s "." then normalize_acc rev_acc rest
      else if String.eqb s ".." then normalize_acc (tl rev_acc) rest
      else normalize_acc (s :: rev_acc) rest
  end.

Definition segments (p : string) : list string :=
  normalize_acc [] (str_split sep p).

(** [path.normalize(p)] for an absolute path without a trailing slash. *)
Definition normalize (p : string) : string :=
  "/" ++ arr_join "/" (segments p).

(** [path.join(dir, name)] for an absolute [dir], as [process.cwd()] and
    all that is joined onto it are: the two joined by a slash, then
    normalized. *)
Definition join (dir name : string) : string :=
  normalize (dir ++ "/" ++ name).

(** [path.basename(p)]: the last segment that is not empty, trailing
    slashes ignored; the empty string when there is none. *)
Definition basename (p : string) : string :=
  last (filter (fun s => negb (String.eqb s "")) (str_split sep p)) "".

Fixpoint drop_common (a b : list string) : list string * list string :=
  match a, b with
  | x :: a', y :: b' => if String.eqb x y then drop_common a' b' else (a, b)
  | _, _ => (a, b)
  end.

(** [path.relative(from, to)] on absolute paths: past the segments the two
    share, one [..] for each segment left of [from], then what is left of
    [to]. *)
Definition relative (from to : string) : string :=
  let '(up, down) := drop_common (segments from) (segments to) in
  arr_join "/" (map (fun _ => "..") up ++ down).

End Path.

(** ** File records and tokens *)

Inductive token : Type :=
| TNum (n : jsnum)
| TStr (s : string).

Record FileRecord : Type := mkRecord {
  name : string;
  tokens : list token
}.

(** [s.match(/\d+|\D+/g)]: the maximal runs of digits and of non-digits, in
    order.  The empty list stands for the [null] that [match] returns when
    nothing matches, which is on the empty string only. *)
Fixpoint match_runs (s : string) : list string :=
  match s with
  | EmptyString => []
  | String c s' =>
      match match_runs s' with
      | String d r :: rs =>
          if Bool.eqb (Char.is_digit c) (Char.is_digit d)
          then String c (String d r) :: rs
          else String c EmptyString :: String d r :: rs
      | rs => String c EmptyString :: rs
      end
  end.

(** [t => (isNaN(t) ? t.toLowerCase() : Number(t))] *)
Definition token_of_run (t : string) : token :=
  match Number_of_string t with
  | None => TStr (toLowerCase t)
  | Some n => TNum n
  end.

Inductive error : Type :=
| TypeError (msg : string)
| SystemError (code : string) (path : string).

(** [path.basename(name).match(/\d+|\D+/g).map(...)]: calling [map] on
    [null] raises a TypeError. *)
Definition tokenize (name : string) : error + list token :=
  match match_runs (Path.basename name) with
  | [] => inl (TypeError "Cannot read properties of null (reading 'map')")
  | runs => inr (map token_of_run runs)
  end.

(** [pdfs.map(name => ({ name, tokens: ... }))]: stops at the first error. *)
Fixpoint make_records (pdfs : list string) : error + list FileRecord :=
  match pdfs with
  | [] => inr []
  | p :: ps =>
      match tokenize p with
      | inl e => inl e
      | inr ts =>
          match make_records ps with
          | inl e => inl e
          | inr rs => inr (mkRecord p ts :: rs)
          end
      end
  end.

(** ** The comparator *)

(** [x !== y] on two tokens: values of different types are never equal. *)
Definition token_neqb (x y : token) : bool :=
  match x, y with
  | TNum a, TNum b => negb (jsnum_eqb a b)
  | TStr a, TStr b => negb (String.eqb a b)
  | _, _ => true
  end.

(** [x < y] on two tokens: two strings compare by code units; otherwise
    both sides are converted to numbers and a NaN makes the test false. *)
Definition token_ltb (x y : token) : bool :=
  match x, y with
  | TStr a, TStr b => String.ltb a b
  | TNum a, TNum b => jsnum_ltb a b
  | TNum a, TStr b =>
      match Number_of_string b with Some n => jsnum_ltb a n | None => false end
  | TStr a, TNum b =>
      match Number_of_string a with Some n => jsnum_ltb n b | None => false end
  end.

(** One turn of the loop at a position where both [x] and [y] are defined:
    [Some r] when the comparator returns [r] there, [None] when the loop
    goes on. *)
Definition compare_at (x y : token) : option jsnum :=
  match x, y with
  | TNum a, TNum b =>
      if negb (jsnum_eqb a b) then Some (jsnum_sub a b) else None
  | _, _ =>
      if token_neqb x y
      then Some (if token_ltb x y then Fin (-1) else Fin 1)
      else None
  end.

(** The loop over [i < Math.max(a.tokens.length, b.tokens.length)], with
    [a.tokens[i]] undefined past the end of [a.tokens]. *)
Fixpoint compare_tokens (xs ys : list token) : jsnum :=
  match xs, ys with
  | [], [] => Fin 0
  | [], _ :: _ => Fin (-1)
  | _ :: _, [] => Fin 1
  | x :: xs', y :: ys' =>
      match compare_at x y with
      | Some r => r
      | None => compare_tokens xs' ys'
      end
  end.

Definition comparator (a b : FileRecord) : jsnum :=
  compare_tokens (tokens a) (tokens b).

(** ** Sorting *)

(** [Array.prototype.sort] as Node's engine runs it: V8's
    [third_party/v8/builtins/array-sort.tq], the TimSort of CPython's
    [listsort].  The elements are copied to a work array, sorted there and
    copied back; the model works on the list of the elements.  The records
    are objects, so no element is [undefined] and no element is a hole.

    Every decision of the algorithm reads one result of the comparator and
    asks whether it is negative ([order < 0]); that test is [before].  The
    loops of the Torque code are recursions on a counter ([fuel]) that
    starts at a bound of the number of their rounds: a search halves its
    range each round, a merge puts out an element each round, a collapse
    takes a run off the stack each round, and the main loop takes a run off
    the array each round.  Ranges of the work array are lists; [MergeLow]
    and [MergeHigh] return what they write to the range of the two runs,
    together with [sortState.minGallop]. *)

Section Sort.

Variable A : Type.
Variable cmp : A -> A -> jsnum.

Local Open Scope nat_scope.
Local Open Scope list_scope.

(** [before y x]: the comparator puts [y] strictly before [x]. *)
Definition before (y x : A) : bool := (jsnum_sgn (cmp y x) <? 0)%Z.

(** [CountAndMakeRun]: the first two elements decide whether the run
    descends ([order < 0]); the run goes on while each element compares to
    the one before it in the same way, and a descending run is reversed.
    The value is the run and what follows it in the array. *)
Fixpoint run_rest (isDescending : bool) (previousElement : A) (l : list A)
  : list A * list A :=
  match l with
  | [] => ([], [])
  | currentElement :: l' =>
      if Bool.eqb (before currentElement previousElement) isDescending
      then let '(run, rest) := run_rest isDescending currentElement l' in
           (currentElement :: run, rest)
      else ([], l)
  end.

Definition CountAndMakeRun (l : list A) : list A * list A :=
  match l with
  | elementHigh :: elementLow :: l' =>
      let isDescending := before elementLow elementHigh in
      let '(run, rest) := run_rest isDescending elementLow l' in
      let whole := elementHigh :: elementLow :: run in
      (if isDescending then rev whole else whole, rest)
  | _ => (l, [])
  end.

(** [BinaryInsertionSort]: each element of [pending] in turn is the
    pivot; [left] and [right] close in on its place among the elements
    before it ([order < 0] moves [right] to [mid], anything else moves
    [left] to [mid + 1]), and the pivot is put at [left]. *)
Fixpoint binary_search (fuel : nat) (pivot : A) (a : list A) (left right : nat)
  : nat :=
  match fuel with
  | O => left
  | S fuel' =>
      if left <? right then
        let mid := left + (right - left) / 2 in
        match nth_error a mid with
        | Some x =>
            if before pivot x then binary_search fuel' pivot a left mid
            else binary_search fuel' pivot a (mid + 1) right
        | None => left
        end
      else left
  end.

Definition insert_at (k : nat) (pivot : A) (a : list A) : list A :=
  firstn k a ++ pivot :: skipn k a.

Definition binary_insert (a : list A) (pivot : A) : list A :=
  insert_at (binary_search (List.length a) pivot a 0 (List.length a)) pivot a.

Definition BinaryInsertionSort (sorted pending : list A) : list A :=
  fold_left binary_insert pending sorted.

(** [ComputeMinRunLength]: [n] is halved while it is 64 or more, and 1
    is added at the end if a set bit was shifted out. *)
Fixpoint min_run_loop (fuel n r : nat) : nat :=
  match fuel with
  | O => n + r
  | S fuel' =>
      if 64 <=? n then min_run_loop fuel' (n / 2) (if Nat.odd n then 1 else r)
      else n + r
  end.

Definition ComputeMinRunLength (n : nat) : nat := min_run_loop n n 0.

(** [GallopLeft] and [GallopRight] differ only in the test they make
    of an element [a[i]] against the key: [q i] is that test,
    [Compare(a[i], key) < 0] for [GallopLeft] and [Compare(key, a[i]) >= 0]
    for [GallopRight].  [gallop_offsets] is the loop that doubles the offset
    from the hint ([stop] is its [break]); [gallop_search] is the binary
    search that follows, between [lastOfs + 1] and [offset]. *)
Fixpoint gallop_offsets (fuel : nat) (stop : nat -> bool)
    (maxOfs lastOfs offset : nat) : nat * nat :=
  match fuel with
  | O => (lastOfs, offset)
  | S fuel' =>
      if offset <? maxOfs then
        if stop offset then (lastOfs, offset)
        else gallop_offsets fuel' stop maxOfs offset (2 * offset + 1)
      else (lastOfs, offset)
  end.

Fixpoint gallop_search (fuel : nat) (q : nat -> bool) (lastOfs offset : nat)
  : nat :=
  match fuel with
  | O => offset
  | S fuel' =>
      if lastOfs <? offset then
        let m := lastOfs + (offset - lastOfs) / 2 in
        if q m then gallop_search fuel' q (m + 1) offset
        else gallop_search fuel' q lastOfs m
      else offset
  end.

Definition gallop (q : nat -> bool) (len hint : nat) : nat :=
  if q hint then
    let maxOfs := len - hint in
    let '(lastOfs, offset) :=
      gallop_offsets len (fun ofs => negb (q (hint + ofs))) maxOfs 0 1 in
    let offset := Nat.min offset maxOfs in
    gallop_search len q (lastOfs + hint + 1) (offset + hint)
  else
    let maxOfs := hint + 1 in
    let '(lastOfs, offset) :=
      gallop_offsets len (fun ofs => q (hint - ofs)) maxOfs 0 1 in
    let offset := Nat.min offset maxOfs in
    gallop_search len q (hint + 1 - offset) (hint - lastOfs).

Definition GallopLeft (a : list A) (key : A) (hint : nat) : nat :=
  gallop (fun i => match nth_error a i with
                   | Some x => before x key
                   | None => false
                   end) (List.length a) hint.

Definition GallopRight (a : list A) (key : A) (hint : nat) : nat :=
  gallop (fun i => match nth_error a i with
                   | Some x => negb (before key x)
                   | None => false
                   end) (List.length a) hint.


(** The two loops of a merge: the one-pair-at-a-time mode with the wins of
    each run counted, and the galloping mode. *)
Inductive merge_mode : Type :=
| OneAtATime (nofWinsA nofWinsB : nat)
| Galloping.

Definition kMinGallopWins : nat := 7.

(** [MergeLow]: [tempArray] holds run A; the merge goes left to right.
    The value is what is written from [dest] on, with [sortState.minGallop]. *)
Fixpoint merge_low (fuel : nat) (mode : merge_mode)
    (temp work : list A) (minGallop : nat) : list A * nat :=
  match fuel with
  | O => (temp ++ work, minGallop)
  | S fuel' =>
      match mode, temp, work with
      | OneAtATime nofWinsA nofWinsB, t :: temp', w :: work' =>
          if before w t then
            match work' with
            | [] => (w :: temp, minGallop)
            | _ =>
                let '(r, g) :=
                  if minGallop <=? S nofWinsB
                  then merge_low fuel' Galloping temp work' (S minGallop)
                  else merge_low fuel' (OneAtATime 0 (S nofWinsB))
                         temp work' minGallop in
                (w :: r, g)
            end
          else
            match temp' with
            | [_] => (t :: work ++ temp', minGallop)
            | _ =>
                let '(r, g) :=
                  if minGallop <=? S nofWinsA
                  then merge_low fuel' Galloping temp' work (S minGallop)
                  else merge_low fuel' (OneAtATime (S nofWinsA) 0)
                         temp' work minGallop in
                (t :: r, g)
            end
      | Galloping, _ :: _, w :: work' =>
          let minGallop := Nat.max 1 (minGallop - 1) in
          let nofWinsA := GallopRight temp w 0 in
          let chunkA := firstn nofWinsA temp in
          let temp1 := skipn nofWinsA temp in
          if (0 <? nofWinsA) && (List.length temp1 =? 1) then
            (chunkA ++ work ++ temp1, minGallop)
          else if (0 <? nofWinsA) && (List.length temp1 =? 0) then
            (chunkA ++ work, minGallop)
          else
            match work', temp1 with
            | [], _ => (chunkA ++ w :: temp1, minGallop)
            | _, t :: temp2 =>
                let nofWinsB := GallopLeft work' t 0 in
                let chunkB := firstn nofWinsB work' in
                let work1 := skipn nofWinsB work' in
                if (0 <? nofWinsB) && (List.length work1 =? 0) then
                  (chunkA ++ w :: chunkB ++ temp1, minGallop)
                else if List.length temp2 =? 1 then
                  (chunkA ++ w :: chunkB ++ t :: work1 ++ temp2, minGallop)
                else
                  let '(r, g) :=
                    if (kMinGallopWins <=? nofWinsA)
                       || (kMinGallopWins <=? nofWinsB)
                    then merge_low fuel' Galloping temp2 work1 minGallop
                    else merge_low fuel' (OneAtATime 0 0) temp2 work1
                           (S minGallop) in
                  (chunkA ++ w :: chunkB ++ t :: r, g)
            | _, [] => (chunkA ++ work, minGallop)
            end
      | _, _, _ => (temp ++ work, minGallop)
      end
  end.

Definition MergeLow (runA runB : list A) (minGallop : nat) : list A * nat :=
  match runB with
  | w :: work' =>
      match work' with
      | [] => (w :: runA, minGallop)
      | _ =>
          if List.length runA =? 1 then (w :: work' ++ runA, minGallop)
          else
            let '(r, g) :=
              merge_low (List.length runA + List.length runB) (OneAtATime 0 0)
                runA work' minGallop in
            (w :: r, g)
      end
  | [] => (runA, minGallop)
  end.

(** [MergeHigh]: [tempArray] holds run B; the merge goes right to left.
    Both runs are held last element first, and the value is what is written,
    last element first, with [sortState.minGallop]. *)
Fixpoint merge_high (fuel : nat) (mode : merge_mode)
    (work temp : list A) (minGallop : nat) : list A * nat :=
  match fuel with
  | O => (temp ++ work, minGallop)
  | S fuel' =>
      match mode, work, temp with
      | OneAtATime nofWinsA nofWinsB, a :: work', b :: temp' =>
          if before b a then
            match work' with
            | [] => (a :: temp, minGallop)
            | _ =>
                let '(r, g) :=
                  if minGallop <=? S nofWinsA
                  then merge_high fuel' Galloping work' temp (S minGallop)
                  else merge_high fuel' (OneAtATime (S nofWinsA) 0)
                         work' temp minGallop in
                (a :: r, g)
            end
          else
            match temp' with
            | [_] => (b :: work ++ temp', minGallop)
            | _ =>
                let '(r, g) :=
                  if minGallop <=? S nofWinsB
                  then merge_high fuel' Galloping work temp' (S minGallop)
                  else merge_high fuel' (OneAtATime 0 (S nofWinsB))
                         work temp' minGallop in
                (b :: r, g)
            end
      | Galloping, _ :: _, b :: temp' =>
          let minGallop := Nat.max 1 (minGallop - 1) in
          let lengthA := List.length work in
          let k := GallopRight (rev work) b (lengthA - 1) in
          let nofWinsA := lengthA - k in
          let chunkA := firstn nofWinsA work in
          let work1 := skipn nofWinsA work in
          if (0 <? nofWinsA) && (List.length work1 =? 0) then
            (chunkA ++ temp, minGallop)
          else
            match temp', work1 with
            | [_], _ => (chunkA ++ b :: work1 ++ temp', minGallop)
            | _, a :: work2 =>
                let lengthB := List.length temp' in
                let k := GallopLeft (rev temp') a (lengthB - 1) in
                let nofWinsB := lengthB - k in
                let chunkB := firstn nofWinsB temp' in
                let temp1 := skipn nofWinsB temp' in
                if (0 <? nofWinsB) && (List.length temp1 =? 1) then
                  (chunkA ++ b :: chunkB ++ work1 ++ temp1, minGallop)
                else if (0 <? nofWinsB) && (List.length temp1 =? 0) then
                  (chunkA ++ b :: chunkB ++ work1, minGallop)
                else
                  match work2 with
                  | [] => (chunkA ++ b :: chunkB ++ a :: temp1, minGallop)
                  | _ =>
                      let '(r, g) :=
                        if (kMinGallopWins <=? nofWinsA)
                           || (kMinGallopWins <=? nofWinsB)
                        then merge_high fuel' Galloping work2 temp1 minGallop
                        else merge_high fuel' (OneAtATime 0 0) work2 temp1
                               (S minGallop) in
                      (chunkA ++ b :: chunkB ++ a :: r, g)
                  end
            | _, [] => (chunkA ++ temp, minGallop)
            end
      | _, _, _ => (temp ++ work, minGallop)
      end
  end.

Definition MergeHigh (runA runB : list A) (minGallop : nat) : list A * nat :=
  match rev runA with
  | a :: work' =>
      match work' with
      | [] => (runB ++ [a], minGallop)
      | _ =>
          if List.length runB =? 1 then (runB ++ rev work' ++ [a], minGallop)
          else
            let '(r, g) :=
              merge_high (List.length runA + List.length runB) (OneAtATime 0 0)
                work' (rev runB) minGallop in
            (rev (a :: r), g)
      end
  | [] => (runB, minGallop)
  end.

(** [MergeAt]: the two runs that are merged, next to each other in the
    array. *)
Definition merge_runs (runA runB : list A) (minGallop : nat) : list A * nat :=
  match runB with
  | keyRight :: _ =>
      let k := GallopRight runA keyRight 0 in
      let before_b := firstn k runA in
      let runA' := skipn k runA in
      match rev runA' with
      | [] => (runA ++ runB, minGallop)
      | keyLeft :: _ =>
          let lengthB := GallopLeft runB keyLeft (List.length runB - 1) in
          let runB' := firstn lengthB runB in
          let after_a := skipn lengthB runB in
          if lengthB =? 0 then (runA ++ runB, minGallop)
          else
            let '(merged, g) :=
              if List.length runA' <=? lengthB
              then MergeLow runA' runB' minGallop
              else MergeHigh runA' runB' minGallop in
            (before_b ++ merged ++ after_a, g)
      end
  | [] => (runA ++ runB, minGallop)
  end.

Definition run_length (pendingRuns : list (list A)) (n : nat) : nat :=
  List.length (nth n pendingRuns []).

Definition MergeAt (pendingRuns : list (list A)) (i : nat) (minGallop : nat)
  : list (list A) * nat :=
  let '(merged, g) :=
    merge_runs (nth i pendingRuns []) (nth (S i) pendingRuns []) minGallop in
  (firstn i pendingRuns ++ merged :: skipn (S (S i)) pendingRuns, g).

Definition RunInvariantEstablished (pendingRuns : list (list A)) (n : nat)
  : bool :=
  if n <? 2 then true
  else run_length pendingRuns n + run_length pendingRuns (n - 1)
       <? run_length pendingRuns (n - 2).

Fixpoint MergeCollapse (fuel : nat) (pendingRuns : list (list A))
    (minGallop : nat) : list (list A) * nat :=
  match fuel with
  | O => (pendingRuns, minGallop)
  | S fuel' =>
      if 1 <? List.length pendingRuns then
        let n := List.length pendingRuns - 2 in
        if negb (RunInvariantEstablished pendingRuns (n + 1))
           || negb (RunInvariantEstablished pendingRuns n)
        then
          let n := if run_length pendingRuns (n - 1)
                      <? run_length pendingRuns (n + 1)
                   then n - 1 else n in
          let '(runs, g) := MergeAt pendingRuns n minGallop in
          MergeCollapse fuel' runs g
        else if run_length pendingRuns n <=? run_length pendingRuns (n + 1)
        then
          let '(runs, g) := MergeAt pendingRuns n minGallop in
          MergeCollapse fuel' runs g
        else (pendingRuns, minGallop)
      else (pendingRuns, minGallop)
  end.

Fixpoint MergeForceCollapse (fuel : nat) (pendingRuns : list (list A))
    (minGallop : nat) : list (list A) * nat :=
  match fuel with
  | O => (pendingRuns, minGallop)
  | S fuel' =>
      if 1 <? List.length pendingRuns then
        let n := List.length pendingRuns - 2 in
        let n := if (0 <? n)
                    && (run_length pendingRuns (n - 1)
                        <? run_length pendingRuns (n + 1))
                 then n - 1 else n in
        let '(runs, g) := MergeAt pendingRuns n minGallop in
        MergeForceCollapse fuel' runs g
      else (pendingRuns, minGallop)
  end.

(** The loop of [ArrayTimSortImpl] over what remains of the array. *)
Fixpoint runs_loop (fuel : nat) (minRunLength : nat) (remaining : list A)
    (pendingRuns : list (list A)) (minGallop : nat) : list (list A) * nat :=
  match fuel with
  | O => (pendingRuns ++ [remaining], minGallop)
  | S fuel' =>
      match remaining with
      | [] => (pendingRuns, minGallop)
      | _ =>
          let '(run, rest) := CountAndMakeRun remaining in
          let '(run, rest) :=
            if List.length run <? minRunLength then
              let forcedRunLength := Nat.min minRunLength (List.length remaining) in
              let n := forcedRunLength - List.length run in
              (BinaryInsertionSort run (firstn n rest), skipn n rest)
            else (run, rest) in
          let '(runs, g) :=
            MergeCollapse (S (List.length pendingRuns)) (pendingRuns ++ [run])
              minGallop in
          runs_loop fuel' minRunLength rest runs g
      end
  end.

Definition ArrayTimSortImpl (l : list A) : list A :=
  if List.length l <? 2 then l
  else
    let '(runs, g) :=
      runs_loop (S (List.length l)) (ComputeMinRunLength (List.length l)) l []
        kMinGallopWins in
    let '(runs, _) := MergeForceCollapse (List.length runs) runs g in
    List.concat runs.

(** [array.sort(cmp)] *)
Definition sort (l : list A) : list A := ArrayTimSortImpl l.

End Sort.

Arguments before {A} cmp y x.
Arguments sort {A} cmp l.

(** [pdfObjs.sort((a, b) => ...)] *)
Definition sort_records (l : list FileRecord) : list FileRecord :=
  sort comparator l.

(** ** What a merge keeps *)

Section Weave.

Variable A : Type.
Variable R : A -> A -> Prop.

Local Open Scope list_scope.

Definition last_error (l : list A) : option A := hd_error (rev l).

(** [link last x]: [x] may come right after what was put out last. *)
Definition link (last : option A) (x : option A) : Prop :=
  match last, x with
  | Some e, Some y => R e y
  | _, _ => True
  end.

Definition last_or (c : list A) (last : option A) : option A :=
  match last_error c with
  | Some e => Some e
  | None => last
  end.

(** [weave last xs ys out]: [out] takes the elements of [xs] and of [ys],
    each list in its order, and any element of [out] is one that may come
    right after the element before it ([last], for the first). *)
Inductive weave : option A -> list A -> list A -> list A -> Prop :=
| weave_nil last : weave last [] [] []
| weave_left last x xs ys out :
    link last (Some x) -> weave (Some x) xs ys out ->
    weave last (x :: xs) ys (x :: out)
| weave_right last y xs ys out :
    link last (Some y) -> weave (Some y) xs ys out ->
    weave last xs (y :: ys) (y :: out).

(** What a merge loop starts from: two runs in order, each of which may go
    on from [last]. *)
Definition merge_ok (last : option A) (xs ys : list A) : Prop :=
  Sorted R xs /\ Sorted R ys
  /\ link last (hd_error xs)
  /\ link last (hd_error ys).

End Weave.

Arguments last_error {A} l.
Arguments link {A} R last x.
Arguments last_or {A} c last.
Arguments weave {A} R _ _ _ _.
Arguments weave_nil {A R} last.
Arguments weave_left {A R} last x xs ys out _ _.
Arguments weave_right {A R} last y xs ys out _ _.
Arguments merge_ok {A} R last xs ys.


(** ** Effects *)

(** What the program prints: the arguments of a [console] call. *)
Inductive arg : Type :=
| Str (s : string)
| Num (n : nat)
| Err (e : error).

(** What the program does to the world, in order. *)
Inductive event : Type :=
| Stat (path : string)
| Readdir (path : string)
| WriteFile (path : string) (data : string)
| WriteFailed (path : string)
| ConsoleLog (args : list arg)
| ConsoleError (args : list arg)
| Exit (code : Z).

(** The code raises and catches, and acts on the world as it goes: a
    computation is the events it caused and the value it returned or the
    error it raised. *)
Definition io (A : Type) : Type := list event * (error + A).

Definition ret {A : Type} (a : A) : io A := ([], inr a).

Definition raise {A : Type} (e : error) : io A := ([], inl e).

Definition emit (ev : event) : io unit := ([ev], inr tt).

Definition lift {A : Type} (r : error + A) : io A := ([], r).

Definition bind {A B : Type} (m : io A) (k : A -> io B) : io B :=
  match m with
  | (t, inl e) => (t, inl e)
  | (t, inr a) => let '(t', r) := k a in ((t ++ t')%list, r)
  end.

Notation "x <- m ;; k" := (bind m (fun x => k))
  (at level 61, m at next level, right associativity).
Notation "m ;; k" := (bind m (fun _ => k))
  (at level 61, right associativity).

(** ** The file system under the docs directory *)

(** What [readdir] with [withFileTypes] and the [Dirent] tests see of a
    directory entry: a regular file, a directory with its entries in
    [readdir] order, a directory that cannot be read, or anything else (a
    symbolic link, a FIFO, a socket, a device), for which both [isFile()]
    and [isDirectory()] are false. *)
#[warnings="-register-all"]
Inductive node : Type :=
| File
| Other
| Locked
| Dir (entries : list (string * node)).

Definition isDirectory (n : node) : bool :=
  match n with Dir _ | Locked => true | _ => false end.

Definition isFile (n : node) : bool :=
  match n with File => true | _ => false end.

(** Induction on a tree, with the property known of every entry of a
    directory. *)
Fixpoint node_induction (P : node -> Prop)
    (HF : P File) (HO : P Other) (HL : P Locked)
    (HD : forall es, Forall (fun e => P (snd e)) es -> P (Dir es))
    (n : node) {struct n} : P n :=
  match n with
  | File => HF
  | Other => HO
  | Locked => HL
  | Dir es =>
      HD es ((fix all (l : list (string * node)) : Forall (fun e => P (snd e)) l :=
                match l with
                | [] => Forall_nil _
                | e :: l' => Forall_cons e (node_induction P HF HO HL HD (snd e)) (all l')
                end) es)
  end.

(** [entry.isFile() && entry.name.endsWith(".pdf") || entry.name.endsWith("jpg")]:
    [&&] binds tighter than [||]. *)
Definition matches (entry_name : string) (n : node) : bool :=
  (isFile n && endsWith entry_name ".pdf" || endsWith entry_name "jpg")%bool.

(** The [for (const entry of entries)] loop of [walkForPdfs(dir)], with
    the recursive call as [walk]. *)
Fixpoint for_entries (walk : string -> node -> io (list string))
    (dir : string) (es : list (string * node)) : io (list string) :=
  match es with
  | [] => ret []
  | (entry_name, entry) :: es' =>
      let full := Path.join dir entry_name in
      if isDirectory entry then
        sub <- walk full entry ;;
        rest <- for_entries walk dir es' ;;
        ret (sub ++ rest)%list
      else if matches entry_name entry then
        rest <- for_entries walk dir es' ;;
        ret (full :: rest)
      else for_entries walk dir es'
  end.

(** [walkForPdfs(dir)], where [n] is what the file system holds at [dir].
    [readdir] fails on what is not a directory and on a directory that
    cannot be read; the error leaves the function at once. *)
Fixpoint walkForPdfs (dir : string) (n : node) {struct n} : io (list string) :=
  match n with
  | Dir entries => emit (Readdir dir) ;; for_entries walkForPdfs dir entries
  | Locked => emit (Readdir dir) ;; raise (SystemError "EACCES" dir)
  | File | Other => emit (Readdir dir) ;; raise (SystemError "ENOTDIR" dir)
  end.

(** Every entry anywhere under [dir]: its full path, its name and what it
    is. *)
Fixpoint entries_under (dir : string) (n : node) {struct n}
  : list (string * string * node) :=
  match n with
  | Dir entries =>
      (fix each (es : list (string * node)) : list (string * string * node) :=
         match es with
         | [] => []
         | (entry_name, entry) :: es' =>
             ((Path.join dir entry_name, entry_name, entry)
              :: entries_under (Path.join dir entry_name) entry
              ++ each es')%list
         end) entries
  | _ => []
  end.

Fixpoint entries_of (dir : string) (es : list (string * node))
  : list (string * string * node) :=
  match es with
  | [] => []
  | (entry_name, entry) :: es' =>
      ((Path.join dir entry_name, entry_name, entry)
       :: entries_under (Path.join dir entry_name) entry
       ++ entries_of dir es')%list
  end.

(** Every directory of the tree can be read. *)
Fixpoint readable (n : node) : bool :=
  match n with
  | Dir entries =>
      (fix each (es : list (string * node)) : bool :=
         match es with
         | [] => true
         | (_, entry) :: es' => (readable entry && each es')%bool
         end) entries
  | Locked => false
  | File | Other => true
  end.

(** The result set as the specification words it: regular files named
    [*.pdf], and every entry named [*jpg] whatever its type, directories
    included. *)
Definition spec_result (root_dir : string) (root : node) (p : string) : Prop :=
  exists entry_name entry,
    In (p, entry_name, entry) (entries_under root_dir root)
    /\ ((isFile entry = true /\ endsWith entry_name ".pdf" = true)
        \/ endsWith entry_name "jpg" = true).

(** The result set of the code: directories are walked into, never
    listed. *)
Definition walk_result (root_dir : string) (root : node) (p : string) : Prop :=
  exists entry_name entry,
    In (p, entry_name, entry) (entries_under root_dir root)
    /\ isDirectory entry = false
    /\ ((isFile entry = true /\ endsWith entry_name ".pdf" = true)
        \/ endsWith entry_name "jpg" = true).

(** ** The HTML index *)

Definition dquote : string := String (ascii_of_nat 34) EmptyString.

Definition newline : string := String (ascii_of_nat 10) EmptyString.

Definition hex_digit (n : nat) : string :=
  substring n 1 "0123456789ABCDEF".

Definition percent (byte : nat) : string :=
  "%" ++ hex_digit (byte / 16) ++ hex_digit (byte mod 16).

Fixpoint mem_char (c : ascii) (s : string) : bool :=
  match s with
  | EmptyString => false
  | String d s' => (Ascii.eqb c d || mem_char c s')%bool
  end.

(** The code units [encodeURI] leaves as they are: letters, digits, the
    URI marks and the reserved characters, with the number sign. *)
Definition uri_unescaped (c : ascii) : bool :=
  let n := Char.code c in
  (Nat.leb 65 n && Nat.leb n 90 || Nat.leb 97 n && Nat.leb n 122
   || Char.is_digit c || mem_char c "-_.!~*'();/?:@&=+$,#")%bool.

(** One code unit of [encodeURI]: below U+0080 it is kept or escaped as one
    byte; from U+0080 to U+00FF the two bytes of its UTF-8 form are
    escaped. *)
Definition encode_unit (c : ascii) : string :=
  let n := Char.code c in
  if uri_unescaped c then String c EmptyString
  else if Nat.ltb n 128 then percent n
  else percent (192 + n / 64) ++ percent (128 + n mod 64).

Fixpoint encodeURI (s : string) : string :=
  match s with
  | EmptyString => EmptyString
  | String c s' => encode_unit c ++ encodeURI s'
  end.

(** The world the program runs in: the working directory, what [stat]
    finds at its [docs] entry ([None]: [stat] fails), and the error of
    [writeFile], if it is to fail (at the open or at a later write). *)
Record world : Type := mkWorld {
  cwd : string;
  docs : option node;
  write_failure : option error
}.

(** [fs.promises.writeFile(path, data, "utf8")]: the file is opened with
    the flag [w], which creates it or cuts it to length zero, the data is
    written and the file is closed.  [WriteFile] is the write that came to
    its end: the file holds [data].  [WriteFailed] is the write that raised:
    where the open itself failed the file is as it was, and where a later
    step failed the file is left empty or with a part of [data]; the model
    does not say which. *)
Definition writeFile (w : world) (path data : string) : io unit :=
  match write_failure w with
  | Some e => emit (WriteFailed path) ;; raise e
  | None => emit (WriteFile path data)
  end.

Definition title : string := "Michael Basman Legacy Audio Cassette Booklets".

(** The callback of [pdfPaths.map]. *)
Definition list_item (w : world) (absPath : string) : string :=
  let relToDocs :=
    arr_join "/" (str_split Path.sep
                    (Path.relative (Path.join (cwd w) "docs") absPath)) in
  let href := encodeURI relToDocs in
  " <li><a href=" ++ dquote ++ href ++ dquote ++ ">" ++ relToDocs ++ "</a></li>".

(** The template literal [html], line by line. *)
Definition html_document (listItems : string) : string :=
  arr_join newline
    [ "<!doctype html>";
      "<html lang=" ++ dquote ++ "en" ++ dquote ++ ">";
      "<head>";
      "  <meta charset=" ++ dquote ++ "utf-8" ++ dquote ++ ">";
      "  <meta name=" ++ dquote ++ "viewport" ++ dquote ++ " content="
        ++ dquote ++ "width=device-width, initial-scale=1" ++ dquote ++ ">";
      "  <title>" ++ title ++ "</title>";
      "  <style>";
      "    body { font-family: system-ui, -apple-system, " ++ dquote
        ++ "Segoe UI" ++ dquote ++ ", Roboto, " ++ dquote ++ "Helvetica Neue"
        ++ dquote ++ ", Arial; padding: 2rem; }";
      "    h1 { font-size: 1.5rem; }";
      "    ul { line-height: 1.6; }";
      "  </style>";
      "</head>";
      "<body>";
      "  <h1>" ++ title ++ "</h1>";
      "  <p>Index of audio chess CASSette booklets:</p>";
      "  <ul>";
      listItems;
      "  </ul>";
      "</body>";
      "</html>" ].

Definition generateHtmlIndex (w : world) (pdfPaths : list string) : io unit :=
  let listItems := arr_join newline (map (list_item w) pdfPaths) in
  writeFile w "docs/index.html" (html_document listItems).

(** ** The entry point *)

(** The body of the [try] block once the docs directory is known to
    exist; the value is [pdfs.length]. *)
Definition index_docs (w : world) (root : node) : io nat :=
  let docsDir := Path.join (cwd w) "docs" in
  pdfs <- walkForPdfs docsDir root ;;
  pdfObjs <- lift (make_records pdfs) ;;
  let sorted := sort_records pdfObjs in
  generateHtmlIndex w (map name sorted) ;;
  emit (ConsoleLog [Str "index.html has been written with";
                    Num (List.length pdfs); Str "PDF(s)."]) ;;
  ret (List.length pdfs).

(** [main]: the events of the run and the exit status of the process.
    [process.exit(1)] ends the run where it is called; a run that comes to
    the end of [main] exits with status 0. *)
Definition main (w : world) : list event * Z :=
  let docsDir := Path.join (cwd w) "docs" in
  match docs w with
  | None =>
      ([Stat docsDir;
        ConsoleError
          [Str "Error: docs directory not found in current working directory."];
        Exit 1], 1)
  | Some root =>
      match index_docs w root with
      | (t, inr _) => (Stat docsDir :: t, 0)
      | (t, inl err) =>
          ((Stat docsDir :: t) ++ [ConsoleError [Str "Failed:"; Err err]; Exit 1], 1)
      end%list
  end.

(** What a run leaves behind: the arguments of its [console.error] calls
    and of its [console.log] calls, the files of its writes that came to
    their end with what they hold, the files of its writes that failed, and
    the directories it read. *)
Definition printed_to_stderr (t : list event) : list (list arg) :=
  flat_map (fun ev => match ev with ConsoleError a => [a] | _ => [] end) t.

Definition printed_to_stdout (t : list event) : list (list arg) :=
  flat_map (fun ev => match ev with ConsoleLog a => [a] | _ => [] end) t.

Definition files_written (t : list event) : list (string * string) :=
  flat_map (fun ev => match ev with WriteFile p d => [(p, d)] | _ => [] end) t.

Definition writes_failed (t : list event) : list string :=
  flat_map (fun ev => match ev with WriteFailed p => [p] | _ => [] end) t.

Definition directories_read (t : list event) : list string :=
  flat_map (fun ev => match ev with Readdir p => [p] | _ => [] end) t.

(** *** The list entry as the specification words it *)



(** ** Orders used to state the properties *)

Definition total_preorder {A : Type} (R : A -> A -> Prop) : Prop :=
  (forall a, R a a)
  /\ (forall a b c, R a b -> R b c -> R a c)
  /\ (forall a b, R a b \/ R b a).

(** [a] sorts no later than [b]: the comparator's result is not positive. *)
Definition sorts_le (a b : FileRecord) : Prop :=
  jsnum_sgn (comparator a b) <= 0.

Definition sign_of (c : comparison) : Z :=
  match c with Eq => 0 | Lt => -1 | Gt => 1 end.

Definition jsnum_compare (a b : jsnum) : comparison :=
  match a, b with
  | Fin x, Fin y => Z.compare x y
  | NegInf, NegInf | PosInf, PosInf => Eq
  | NegInf, _ | _, PosInf => Lt
  | _, NegInf | PosInf, _ => Gt
  end.

(** What one position decides, as a three-way result. *)
Definition token_compare (x y : token) : comparison :=
  match x, y with
  | TNum a, TNum b => jsnum_compare a b
  | TStr a, TStr b => String.compare a b
  | _, _ => if token_ltb x y then Lt else Gt
  end.

Fixpoint lex_compare (xs ys : list token) : comparison :=
  match xs, ys with
  | [], [] => Eq
  | [], _ :: _ => Lt
  | _ :: _, [] => Gt
  | x :: xs', y :: ys' =>
      match token_compare x y with
      | Eq => lex_compare xs' ys'
      | c => c
      end
  end.

Definition is_number (x : token) : bool :=
  match x with TNum _ => true | TStr _ => false end.

(** Two token sequences hold tokens of the same kind at every position
    they share. *)
Fixpoint same_kinds (xs ys : list token) : bool :=
  match xs, ys with
  | x :: xs', y :: ys' =>
      (Bool.eqb (is_number x) (is_number y) && same_kinds xs' ys')%bool
  | _, _ => true
  end.

(** *** The specification's reading of a position that is not number
    against number: both tokens as text, compared lexically. *)

(** The text of a number, for the integers printed without an exponent. *)
Definition text_of_jsnum (n : jsnum) : string :=
  match n with
  | Fin z => DecimalString.NilZero.string_of_int (Z.to_int z)
  | PosInf => "Infinity"
  | NegInf => "-Infinity"
  end.

Definition text_of_token (x : token) : string :=
  match x with
  | TNum n => text_of_jsnum n
  | TStr s => s
  end.

Definition spec_compare_as_text (x y : token) : Z :=
  sign_of (String.compare (text_of_token x) (text_of_token y)).

(** Two digit runs that differ only in leading zeros. *)
Fixpoint drop_zeros (s : string) : string :=
  match s with
  | String c s' => if Ascii.eqb c "0" then drop_zeros s' else s
  | EmptyString => EmptyString
  end.

Definition same_run_up_to_zeros (r1 r2 : string) : Prop :=
  r1 = r2
  \/ (all_digits r1 = true /\ all_digits r2 = true
      /\ drop_zeros r1 = drop_zeros r2).

(** Two paths whose base names differ only in leading zeros inside digit
    runs: run by run, the same text or the same digits after the zeros. *)
Definition same_up_to_zeros (p1 p2 : string) : Prop :=
  Forall2 same_run_up_to_zeros
    (match_runs (Path.basename p1)) (match_runs (Path.basename p2)).

(** [q] may follow [p]: the comparator does not put [q] strictly before
    [p]. *)
Definition may_follow {A : Type} (cmp : A -> A -> jsnum) (p q : A) : Prop :=
  before cmp q p = false.

(** [may_precede cmp p q]: the same, for a run that is held last element
    first. *)
Definition may_precede {A : Type} (cmp : A -> A -> jsnum) (p q : A) : Prop :=
  may_follow cmp q p.

(** [merged cmp runA runB out]: [out] is the two runs merged: it holds
    their elements, each may follow the one before it, it starts where one
    of the runs starts and ends where one of them ends. *)
Definition merged {A : Type} (cmp : A -> A -> jsnum)
    (runA runB out : list A) : Prop :=
  Sorted (may_follow cmp) out
  /\ Permutation out (runA ++ runB)%list
  /\ (forall z, link (may_follow cmp) z (hd_error runA) ->
                link (may_follow cmp) z (hd_error runB) ->
                link (may_follow cmp) z (hd_error out))
  /\ (forall z, link (may_follow cmp) (last_error runA) z ->
                link (may_follow cmp) (last_error runB) z ->
                link (may_follow cmp) (last_error out) z).

(** The pending runs are runs. *)
Definition runs_ok {A : Type} (cmp : A -> A -> jsnum)
    (runs : list (list A)) : Prop :=
  Forall (Sorted (may_follow cmp)) runs.


(** The run ended in the top-level [catch] with the error [e]: the one
    [console.error] call of the run printed it, no write came to its end,
    and the exit status is 1. *)
Definition caught (run : list event * Z) (e : error) : Prop :=
  snd run = 1
  /\ printed_to_stderr (fst run) = [[Str "Failed:"; Err e]]
  /\ printed_to_stdout (fst run) = []
  /\ files_written (fst run) = []
  /\ last (fst run) (Exit 0) = Exit 1.

Definition is_Readdir (ev : event) : Prop :=
  match ev with Readdir _ => True | _ => False end.

(** A list entry whose link and label are both [text]. *)
Definition plain_entry (text : string) : string :=
  "<li><a href=" ++ dquote ++ text ++ dquote ++ ">" ++ text ++ "</a></li>".

Definition not_found_message : list arg :=
  [Str "Error: docs directory not found in current working directory."].

Definition summary (count : nat) : list arg :=
  [Str "index.html has been written with"; Num count; Str "PDF(s)."].

(** ** Further notions used to state properties of the code *)

Fixpoint string_forall (p : ascii -> bool) (s : string) : bool :=
  match s with
  | EmptyString => true
  | String c s' => (p c && string_forall p s')%bool
  end.

(** An entry that the walk lists: not a directory, and matching. *)
Definition listed (x : string * string * node) : bool :=
  let '(_, entry_name, entry) := x in
  (negb (isDirectory entry) && matches entry_name entry)%bool.

Definition entry_path (x : string * string * node) : string :=
  fst (fst x).

Definition entry_is_directory (x : string * string * node) : bool :=
  isDirectory (snd x).

(** The kind of a run, read off its first code unit: [true] for digits. *)
Definition run_kind (r : string) : bool :=
  match r with
  | String c _ => Char.is_digit c
  | EmptyString => false
  end.

Definition digit_free (r : string) : bool :=
  string_forall (fun c => negb (Char.is_digit c)) r.

(** A run that [Number] reads as an infinity. *)
Definition names_infinity (r : string) : bool :=
  (String.eqb (trim r) "Infinity" || String.eqb (trim r) "+Infinity"
   || String.eqb (trim r) "-Infinity")%bool.

Definition no_infinity_run (p : string) : Prop :=
  Forall (fun r => names_infinity r = false) (match_runs (Path.basename p)).

(** The comparator is consistent on a list of records: any two of them
    hold tokens of the same kind at every position they share. *)
Definition same_kinds_on (l : list FileRecord) : Prop :=
  forall a b, In a l -> In b l -> same_kinds (tokens a) (tokens b) = true.

(** A code unit that [encodeURI] may put out: one it leaves as it is, or
    the percent sign of an escape. *)
Definition uri_output_unit (c : ascii) : bool :=
  (uri_unescaped c || Ascii.eqb c "%")%bool.

(** A name as [readdir] returns them: not empty, not [.] or [..], and
    without a slash. *)
Definition simple_name (s : string) : bool :=
  (negb (String.eqb s "") && negb (String.eqb s ".")
   && negb (String.eqb s "..") && negb (mem_char Path.sep s))%bool.

(** Every entry of the tree has such a name. *)
Fixpoint well_named (n : node) : bool :=
  match n with
  | Dir entries =>
      (fix each (es : list (string * node)) : bool :=
         match es with
         | [] => true
         | (entry_name, entry) :: es' =>
             (simple_name entry_name && well_named entry && each es')%bool
         end) entries
  | _ => true
  end.

(** A run that ended in the [catch] or in the missing-directory branch:
    no write came to its end, and the only write that can have failed is
    the one of the index (which may have left that file cut short); there
    is one [console.error] call, whatever the number of lines it prints. *)
Definition failed_run (run : list event * Z) : Prop :=
  snd run = 1
  /\ files_written (fst run) = []
  /\ (writes_failed (fst run) = []
      \/ writes_failed (fst run) = ["docs/index.html"])
  /\ printed_to_stdout (fst run) = []
  /\ (exists args, printed_to_stderr (fst run) = [args])
  /\ last (fst run) (Exit 0) = Exit 1.

(** A run that came to the end of [main]. *)
Definition successful_run (run : list event * Z) : Prop :=
  snd run = 0
  /\ printed_to_stderr (fst run) = []
  /\ (exists html, files_written (fst run) = [("docs/index.html", html)])
  /\ writes_failed (fst run) = []
  /\ (exists count, printed_to_stdout (fst run) = [summary count])
  /\ ~ In (Exit 1) (fst run).
(** * The sort keeps the elements and leaves them in order *)

Section SortFacts.

Variable A : Type.
Variable cmp : A -> A -> jsnum.

(** All that the proofs ask of the comparator: it never puts each of two
    elements strictly before the other. *)
Hypothesis before_asym :
  forall x y, before cmp x y = true -> before cmp y x = false.

Local Open Scope nat_scope.
Local Open Scope list_scope.

Lemma last_error_app_cons (l : list A) (x : A) (l' : list A) :
  last_error (l ++ x :: l') = last_error (x :: l').
Proof.
  unfold last_error. rewrite rev_app_distr. cbn [rev].
  destruct (rev l') as [|y r] eqn:E; cbn.
  - reflexivity.
  - reflexivity.
Qed.

Lemma last_error_snoc (l : list A) (x : A) : last_error (l ++ [x]) = Some x.
Proof. unfold last_error. now rewrite rev_app_distr. Qed.

Lemma last_error_nil_iff (l : list A) : last_error l = None <-> l = [].
Proof.
  unfold last_error. split; [|now intros ->].
  destruct l as [|x l]; [reflexivity|]. cbn [rev].
  destruct (rev l); discriminate.
Qed.

Lemma hd_error_skipn (l : list A) (k : nat) :
  hd_error (skipn k l) = nth_error l k.
Proof.
  revert k. induction l as [|x l IH]; intros [|k]; cbn; auto.
Qed.

Lemma last_error_firstn (l : list A) (k : nat) :
  k < List.length l ->
  last_error (firstn (S k) l) = nth_error l k.
Proof.
  revert k. induction l as [|x l IH]; intros k H.
  - now destruct k.
  - destruct k as [|k]; [reflexivity|].
    cbn [List.length] in H. cbn [nth_error].
    rewrite <- IH by lia.
    destruct l as [|y l]; [cbn in H; lia|].
    cbn [firstn].
    change (x :: y :: firstn k l) with ([x] ++ y :: firstn k l).
    now rewrite last_error_app_cons.
Qed.

Section Relation.

Variable R : A -> A -> Prop.

Lemma weave_link (last : option A) (xs ys out : list A) :
  weave R last xs ys out -> link R last (hd_error out).
Proof. destruct 1; cbn; auto. destruct last; exact I. Qed.

Lemma weave_Sorted (last : option A) (xs ys out : list A) :
  weave R last xs ys out -> Sorted R out.
Proof.
  induction 1 as [|last x xs ys out L W IH|last y xs ys out L W IH];
    [constructor| |]; (constructor; [exact IH|]);
    apply weave_link in W; destruct out; constructor; exact W.
Qed.

Lemma weave_Permutation (last : option A) (xs ys out : list A) :
  weave R last xs ys out -> Permutation out (xs ++ ys).
Proof.
  induction 1 as [|last x xs ys out L W IH|last y xs ys out L W IH].
  - constructor.
  - cbn. now constructor.
  - rewrite IH. apply Permutation_middle.
Qed.

Lemma Sorted_link_hd (x : A) (l : list A) :
  Sorted R (x :: l) -> link R (Some x) (hd_error l).
Proof.
  intros S. apply Sorted_inv in S as [_ H]. destruct l; [exact I|].
  now apply HdRel_inv in H.
Qed.

Lemma last_or_cons (x : A) (c : list A) (last : option A) :
  last_or (x :: c) last = last_or c (Some x).
Proof.
  unfold last_or.
  destruct c as [|y c]; [reflexivity|].
  change (x :: y :: c) with ([x] ++ y :: c). rewrite last_error_app_cons.
  destruct (last_error (y :: c)) eqn:E; [reflexivity|].
  now apply last_error_nil_iff in E.
Qed.

(** A run of elements of the left list, put out together. *)
Lemma weave_left_chunk (c : list A) :
  forall last xs ys out,
    Sorted R c -> link R last (hd_error c) ->
    weave R (last_or c last) xs ys out ->
    weave R last (c ++ xs) ys (c ++ out).
Proof.
  induction c as [|x c IH]; intros last xs ys out S L W; [exact W|].
  cbn [app]. constructor; [exact L|].
  rewrite last_or_cons in W.
  apply IH; [now apply Sorted_inv in S|now apply Sorted_link_hd|exact W].
Qed.

Lemma weave_right_chunk (c : list A) :
  forall last xs ys out,
    Sorted R c -> link R last (hd_error c) ->
    weave R (last_or c last) xs ys out ->
    weave R last xs (c ++ ys) (c ++ out).
Proof.
  induction c as [|y c IH]; intros last xs ys out S L W; [exact W|].
  cbn [app]. constructor; [exact L|].
  rewrite last_or_cons in W.
  apply IH; [now apply Sorted_inv in S|now apply Sorted_link_hd|exact W].
Qed.

Lemma weave_left_rest (xs : list A) (last : option A) :
  Sorted R xs -> link R last (hd_error xs) -> weave R last xs [] xs.
Proof.
  intros S L.
  pose proof (weave_left_chunk xs last [] [] [] S L (weave_nil _)) as H.
  now rewrite !app_nil_r in H.
Qed.

Lemma weave_right_rest (ys : list A) (last : option A) :
  Sorted R ys -> link R last (hd_error ys) -> weave R last [] ys ys.
Proof.
  intros S L.
  pose proof (weave_right_chunk ys last [] [] [] S L (weave_nil _)) as H.
  now rewrite !app_nil_r in H.
Qed.

Lemma weave_left_all (c : list A) (last : option A) (ys out : list A) :
  Sorted R c -> link R last (hd_error c) ->
  weave R (last_or c last) [] ys out ->
  weave R last c ys (c ++ out).
Proof.
  intros S L W.
  pose proof (weave_left_chunk c last [] ys out S L W) as H.
  now rewrite app_nil_r in H.
Qed.

Lemma weave_right_all (c : list A) (last : option A) (xs out : list A) :
  Sorted R c -> link R last (hd_error c) ->
  weave R (last_or c last) xs [] out ->
  weave R last xs c (c ++ out).
Proof.
  intros S L W.
  pose proof (weave_right_chunk c last xs [] out S L W) as H.
  now rewrite app_nil_r in H.
Qed.

Lemma Sorted_app_inv (l1 l2 : list A) :
  Sorted R (l1 ++ l2) ->
  Sorted R l1 /\ Sorted R l2 /\ link R (last_error l1) (hd_error l2).
Proof.
  induction l1 as [|x l1 IH]; intros S.
  - cbn in *. split; [constructor|]. split; [exact S|exact I].
  - cbn [app] in S. pose proof (Sorted_link_hd _ _ S) as Lx.
    apply Sorted_inv in S as [S H].
    destruct (IH S) as (S1 & S2 & L). split; [|split; [exact S2|]].
    + constructor; [exact S1|]. destruct l1; constructor.
      now apply HdRel_inv in H.
    + destruct l1 as [|y l1]; [exact Lx|].
      change (x :: y :: l1) with ([x] ++ y :: l1).
      now rewrite last_error_app_cons.
Qed.

Lemma Sorted_app (l1 l2 : list A) :
  Sorted R l1 -> Sorted R l2 -> link R (last_error l1) (hd_error l2) ->
  Sorted R (l1 ++ l2).
Proof.
  intros S1 S2 L.
  apply (weave_Sorted None l1 l2).
  rewrite <- (app_nil_r l1) at 1.
  apply weave_left_chunk; [exact S1|exact I|].
  apply weave_right_rest; [exact S2|].
  unfold last_or. destruct (last_error l1); [exact L|now destruct (hd_error l2)].
Qed.

End Relation.


(** ** Galloping *)

Lemma gallop_offsets_spec (stop : nat -> bool) (maxOfs : nat) :
  forall fuel lastOfs offset,
    lastOfs < offset -> maxOfs <= offset + fuel ->
    let '(lo, off) := gallop_offsets fuel stop maxOfs lastOfs offset in
    lo < off
    /\ (lo = lastOfs \/ (lo < maxOfs /\ stop lo = false))
    /\ ((off < maxOfs /\ stop off = true) \/ maxOfs <= off).
Proof.
  induction fuel as [|fuel IH]; intros lastOfs offset L F; cbn [gallop_offsets].
  - split; [exact L|]. split; [now left|right; lia].
  - destruct (Nat.ltb_spec offset maxOfs) as [Lt|Ge].
    + destruct (stop offset) eqn:St.
      * split; [exact L|]. split; [now left|left; now split].
      * specialize (IH offset (2 * offset + 1)).
        destruct (gallop_offsets fuel stop maxOfs offset (2 * offset + 1))
          as [lo off].
        destruct IH as (H1 & H2 & H3); [lia|lia|].
        split; [exact H1|]. split; [|exact H3].
        destruct H2 as [->|H2]; [right; now split|now right].
    + split; [exact L|]. split; [now left|right; lia].
Qed.

Lemma gallop_search_spec (q : nat -> bool) (len : nat) :
  forall fuel lo hi,
    lo <= hi -> hi - lo <= fuel -> hi <= len ->
    (0 < lo -> q (lo - 1) = true) ->
    (hi < len -> q hi = false) ->
    let k := gallop_search fuel q lo hi in
    k <= len /\ (0 < k -> q (k - 1) = true) /\ (k < len -> q k = false).
Proof.
  induction fuel as [|fuel IH]; intros lo hi L F Hl Hlo Hhi;
    cbn [gallop_search].
  - assert (lo = hi) by lia. subst. auto.
  - destruct (Nat.ltb_spec lo hi) as [Lt|Ge].
    + assert (M : (hi - lo) / 2 < hi - lo) by (apply Nat.div_lt; lia).
      destruct (q (lo + (hi - lo) / 2)) eqn:Q.
      * apply IH; try lia; [|exact Hhi].
        intros _. now replace (lo + (hi - lo) / 2 + 1 - 1)
                    with (lo + (hi - lo) / 2) by lia.
      * apply IH; try lia; [exact Hlo|]. intros _. exact Q.
    + assert (lo = hi) by lia. subst. auto.
Qed.

(** What both gallops find: with [q] the test made at an index, an index
    [k] with the test true just before it and false at it. *)
Lemma gallop_spec (q : nat -> bool) (len hint : nat) :
  hint < len ->
  let k := gallop q len hint in
  k <= len /\ (0 < k -> q (k - 1) = true) /\ (k < len -> q k = false).
Proof.
  intros H. unfold gallop. destruct (q hint) eqn:Qh.
  - pose proof (gallop_offsets_spec (fun ofs => negb (q (hint + ofs)))
                  (len - hint) len 0 1) as G.
    destruct (gallop_offsets len (fun ofs => negb (q (hint + ofs)))
                (len - hint) 0 1) as [lo off].
    destruct G as (G1 & G2 & G3); [lia|lia|].
    assert (Qlo : q (hint + lo) = true /\ lo < len - hint).
    { destruct G2 as [->|[G2 G2']]; [rewrite Nat.add_0_r; split; [exact Qh|lia]|].
      split; [now apply negb_false_iff in G2'|exact G2]. }
    destruct Qlo as [Qlo Llo].
    apply (gallop_search_spec q len); try lia.
    + intros _. now replace (lo + hint + 1 - 1) with (hint + lo) by lia.
    + intros Hh. destruct G3 as [[G3 G3']|G3]; [|lia].
      rewrite Nat.min_l in * by lia.
      apply negb_true_iff in G3'. now rewrite Nat.add_comm.
  - pose proof (gallop_offsets_spec (fun ofs => q (hint - ofs))
                  (hint + 1) len 0 1) as G.
    destruct (gallop_offsets len (fun ofs => q (hint - ofs)) (hint + 1) 0 1)
      as [lo off].
    destruct G as (G1 & G2 & G3); [lia|lia|].
    assert (Qlo : q (hint - lo) = false /\ lo < hint + 1).
    { destruct G2 as [->|[G2 G2']]; [rewrite Nat.sub_0_r; split; [exact Qh|lia]|].
      split; [exact G2'|exact G2]. }
    destruct Qlo as [Qlo Llo].
    apply (gallop_search_spec q len); try lia.
    + intros Hp. destruct G3 as [[G3 G3']|G3]; [|lia].
      rewrite Nat.min_l in * by lia.
      now replace (hint + 1 - off - 1) with (hint - off) by lia.
    + intros _. exact Qlo.
Qed.


Lemma last_error_firstn_le (a : list A) (k : nat) (x : A) :
  k <= List.length a -> last_error (firstn k a) = Some x ->
  0 < k /\ nth_error a (k - 1) = Some x.
Proof.
  intros H E. destruct k as [|k]; [discriminate|].
  rewrite last_error_firstn in E by lia.
  split; [lia|]. now replace (S k - 1) with k by lia.
Qed.

Lemma hd_error_skipn_lt (a : list A) (k : nat) (y : A) :
  hd_error (skipn k a) = Some y -> k < List.length a /\ nth_error a k = Some y.
Proof.
  rewrite hd_error_skipn. intros E. split; [|exact E].
  apply nth_error_Some. congruence.
Qed.

Lemma GallopRight_spec (a : list A) (key : A) (hint : nat) :
  hint < List.length a ->
  let k := GallopRight A cmp a key hint in
  k <= List.length a
  /\ (forall x, last_error (firstn k a) = Some x -> before cmp key x = false)
  /\ (forall y, hd_error (skipn k a) = Some y -> before cmp key y = true).
Proof.
  intros H. unfold GallopRight.
  destruct (gallop_spec
              (fun i => match nth_error a i with
                        | Some x => negb (before cmp key x)
                        | None => false
                        end) (List.length a) hint H) as (K & B1 & B2).
  split; [exact K|]. split.
  - intros x E. apply last_error_firstn_le in E as [P E]; [|exact K].
    specialize (B1 P). rewrite E in B1. now apply negb_true_iff in B1.
  - intros y E. apply hd_error_skipn_lt in E as [P E].
    specialize (B2 P). rewrite E in B2. now apply negb_false_iff in B2.
Qed.

Lemma GallopLeft_spec (a : list A) (key : A) (hint : nat) :
  hint < List.length a ->
  let k := GallopLeft A cmp a key hint in
  k <= List.length a
  /\ (forall x, last_error (firstn k a) = Some x -> before cmp x key = true)
  /\ (forall y, hd_error (skipn k a) = Some y -> before cmp y key = false).
Proof.
  intros H. unfold GallopLeft.
  destruct (gallop_spec
              (fun i => match nth_error a i with
                        | Some x => before cmp x key
                        | None => false
                        end) (List.length a) hint H) as (K & B1 & B2).
  split; [exact K|]. split.
  - intros x E. apply last_error_firstn_le in E as [P E]; [|exact K].
    specialize (B1 P). now rewrite E in B1.
  - intros y E. apply hd_error_skipn_lt in E as [P E].
    specialize (B2 P). now rewrite E in B2.
Qed.

(** ** Runs *)

Lemma Sorted_impl (R R' : A -> A -> Prop) (l : list A) :
  (forall x y, R x y -> R' x y) -> Sorted R l -> Sorted R' l.
Proof.
  intros H. induction 1 as [|x l S IH Hd]; constructor; [exact IH|].
  destruct Hd; constructor. now apply H.
Qed.

Lemma Sorted_rev (R : A -> A -> Prop) (l : list A) :
  Sorted R l -> Sorted (fun x y => R y x) (rev l).
Proof.
  induction 1 as [|x l S IH Hd]; [constructor|].
  cbn [rev]. apply Sorted_app; [exact IH|repeat constructor|].
  unfold last_error. rewrite rev_involutive.
  destruct Hd; cbn; auto.
Qed.

Lemma firstn_Sorted (R : A -> A -> Prop) (l : list A) (k : nat) :
  Sorted R l -> Sorted R (firstn k l).
Proof.
  intros S. rewrite <- (firstn_skipn k l) in S.
  now apply Sorted_app_inv in S.
Qed.

Lemma skipn_Sorted (R : A -> A -> Prop) (l : list A) (k : nat) :
  Sorted R l -> Sorted R (skipn k l).
Proof.
  intros S. rewrite <- (firstn_skipn k l) in S.
  now apply Sorted_app_inv in S.
Qed.

Lemma firstn_skipn_link (R : A -> A -> Prop) (l : list A) (k : nat) :
  Sorted R l -> link R (last_error (firstn k l)) (hd_error (skipn k l)).
Proof.
  intros S. rewrite <- (firstn_skipn k l) in S.
  now apply Sorted_app_inv in S.
Qed.

Lemma run_rest_spec (d : bool) :
  forall l prev,
    let '(run, rest) := run_rest A cmp d prev l in
    l = run ++ rest
    /\ Sorted (fun p q => before cmp q p = d) (prev :: run).
Proof.
  induction l as [|x l IH]; intros prev; cbn [run_rest].
  - split; [reflexivity|repeat constructor].
  - destruct (Bool.eqb (before cmp x prev) d) eqn:E.
    + specialize (IH x). destruct (run_rest A cmp d x l) as [run rest].
      destruct IH as [-> S]. split; [reflexivity|].
      constructor; [exact S|]. constructor. now apply eqb_prop.
    + split; [reflexivity|repeat constructor].
Qed.

Lemma run_rest_already (l : list A) (prev : A) :
  Sorted (may_follow cmp) (prev :: l) -> run_rest A cmp false prev l = (l, []).
Proof.
  revert prev. induction l as [|x l IH]; intros prev S; [reflexivity|].
  cbn [run_rest]. apply Sorted_inv in S as [S H]. apply HdRel_inv in H.
  unfold may_follow in H. rewrite H. cbn [Bool.eqb]. now rewrite (IH x S).
Qed.

(** [CountAndMakeRun] splits the array into a run, in order (reversed if
    it was found descending), and the rest. *)
Lemma CountAndMakeRun_spec (l : list A) :
  let '(run, rest) := CountAndMakeRun A cmp l in
  Permutation (run ++ rest) l
  /\ Sorted (may_follow cmp) run
  /\ (l <> [] -> run <> [])
  /\ List.length rest <= List.length l - List.length run.
Proof.
  unfold CountAndMakeRun.
  destruct l as [|hi [|lo l]].
  - split; [reflexivity|]. split; [constructor|]. split; [auto|cbn; lia].
  - split; [reflexivity|]. split; [repeat constructor|].
    split; [discriminate|cbn; lia].
  - pose proof (run_rest_spec (before cmp lo hi) l lo) as H.
    destruct (run_rest A cmp (before cmp lo hi) lo l) as [run rest].
    destruct H as [-> S].
    assert (S' : Sorted (fun p q => before cmp q p = before cmp lo hi)
                   (hi :: lo :: run))
      by (constructor; [exact S|now constructor]).
    destruct (before cmp lo hi) eqn:D.
    + split; [|split; [|split]].
      * change (hi :: lo :: run ++ rest) with ((hi :: lo :: run) ++ rest).
        apply Permutation_app_tail.
        symmetry. apply (Permutation_rev (hi :: lo :: run)).
      * apply Sorted_rev in S'.
        revert S'. apply Sorted_impl. intros x y. apply before_asym.
      * intros _ E. apply (f_equal (@List.length A)) in E.
        rewrite length_rev in E. discriminate.
      * rewrite length_rev. cbn [List.length]. rewrite length_app. lia.
    + split; [reflexivity|]. split; [exact S'|]. split; [discriminate|].
      cbn [List.length]. rewrite length_app. lia.
Qed.

Lemma CountAndMakeRun_already (l : list A) :
  Sorted (may_follow cmp) l -> CountAndMakeRun A cmp l = (l, []).
Proof.
  intros S. unfold CountAndMakeRun.
  destruct l as [|hi [|lo l]]; try reflexivity.
  pose proof S as S0. apply Sorted_inv in S as [S H]. apply HdRel_inv in H.
  unfold may_follow in H. rewrite H. now rewrite (run_rest_already l lo S).
Qed.

(** ** Binary insertion *)

Lemma binary_search_spec (pivot : A) (a : list A) :
  forall fuel left right,
    left <= right -> right - left <= fuel -> right <= List.length a ->
    (forall x, 0 < left -> nth_error a (left - 1) = Some x ->
               before cmp pivot x = false) ->
    (forall y, nth_error a right = Some y -> before cmp pivot y = true) ->
    let k := binary_search A cmp fuel pivot a left right in
    k <= List.length a
    /\ (forall x, 0 < k -> nth_error a (k - 1) = Some x ->
                  before cmp pivot x = false)
    /\ (forall y, nth_error a k = Some y -> before cmp pivot y = true).
Proof.
  induction fuel as [|fuel IH]; intros left right L F Hl Hlo Hhi;
    cbn [binary_search].
  - assert (left = right) by lia. subst. repeat split; auto.
  - destruct (Nat.ltb_spec left right) as [Lt|Ge].
    + assert (M : (right - left) / 2 < right - left)
        by (apply Nat.div_lt; lia).
      destruct (nth_error a (left + (right - left) / 2)) as [x|] eqn:E.
      * destruct (before cmp pivot x) eqn:B.
        -- apply IH; try lia; [exact Hlo|]. intros y Ey. congruence.
        -- apply IH; try lia; [|exact Hhi].
           intros y _ Ey.
           replace (left + (right - left) / 2 + 1 - 1)
             with (left + (right - left) / 2) in Ey by lia.
           congruence.
      * apply nth_error_None in E. lia.
    + assert (left = right) by lia. subst. repeat split; auto.
Qed.

Lemma insert_at_Permutation (k : nat) (pivot : A) (a : list A) :
  Permutation (insert_at A k pivot a) (pivot :: a).
Proof.
  unfold insert_at. rewrite <- Permutation_middle.
  now rewrite firstn_skipn.
Qed.

Lemma binary_insert_Sorted (a : list A) (pivot : A) :
  Sorted (may_follow cmp) a -> Sorted (may_follow cmp) (binary_insert A cmp a pivot).
Proof.
  intros S. unfold binary_insert, insert_at.
  destruct (binary_search_spec pivot a (List.length a) 0 (List.length a))
    as (K & B1 & B2); try lia.
  { intros y E. rewrite (proj2 (nth_error_None a (List.length a))) in E by lia.
    discriminate. }
  set (k := binary_search A cmp (List.length a) pivot a 0 (List.length a)) in *.
  apply Sorted_app.
  - now apply firstn_Sorted.
  - constructor; [now apply skipn_Sorted|].
    destruct (skipn k a) as [|y r] eqn:E; constructor.
    unfold may_follow. apply before_asym, B2.
    rewrite <- hd_error_skipn, E. reflexivity.
  - destruct (last_error (firstn k a)) as [x|] eqn:E; [|exact I].
    apply last_error_firstn_le in E as [P E]; [|exact K].
    cbn. unfold may_follow. now apply (B1 x).
Qed.

Lemma BinaryInsertionSort_spec (pending sorted : list A) :
  Sorted (may_follow cmp) sorted ->
  Sorted (may_follow cmp) (BinaryInsertionSort A cmp sorted pending)
  /\ Permutation (BinaryInsertionSort A cmp sorted pending)
       (sorted ++ pending).
Proof.
  unfold BinaryInsertionSort.
  revert sorted. induction pending as [|p pending IH]; intros sorted S;
    cbn [fold_left].
  - rewrite app_nil_r. now split.
  - destruct (IH (binary_insert A cmp sorted p)) as [S' P];
      [now apply binary_insert_Sorted|].
    split; [exact S'|]. rewrite P. unfold binary_insert.
    rewrite insert_at_Permutation. cbn.
    rewrite <- Permutation_middle. reflexivity.
Qed.


(** ** Merging *)

Lemma hd_error_firstn (l : list A) (k : nat) :
  0 < k -> hd_error (firstn k l) = hd_error l.
Proof. destruct k; [lia|]. now destruct l. Qed.

Lemma last_error_cons (x : A) (l : list A) :
  l <> [] -> last_error (x :: l) = last_error l.
Proof.
  intros N. destruct l as [|y l]; [congruence|].
  change (x :: y :: l) with ([x] ++ y :: l). apply last_error_app_cons.
Qed.

Lemma last_error_skipn (l : list A) (k : nat) :
  skipn k l <> [] -> last_error (skipn k l) = last_error l.
Proof.
  intros N. rewrite <- (firstn_skipn k l) at 2.
  destruct (skipn k l) as [|y r]; [congruence|].
  now rewrite last_error_app_cons.
Qed.

Lemma last_error_single (x : A) : last_error [x] = Some x.
Proof. reflexivity. Qed.

Lemma length_one (l : list A) : List.length l = 1 -> exists x, l = [x].
Proof. destruct l as [|x [|y l]]; try discriminate. eauto. Qed.

Lemma last_or_nonempty (c : list A) (last : option A) :
  c <> [] -> last_or c last = last_error c.
Proof.
  intros N. unfold last_or. destruct (last_error c) eqn:E; [reflexivity|].
  now apply last_error_nil_iff in E.
Qed.

Lemma last_or_nil (last : option A) : last_or [] last = last.
Proof. reflexivity. Qed.

(** What a gallop to the right leaves on both sides of where it stops. *)
Lemma GallopRight_links (a : list A) (key : A) :
  a <> [] ->
  let k := GallopRight A cmp a key 0 in
  link (may_follow cmp) (last_error (firstn k a)) (Some key)
  /\ link (may_follow cmp) (Some key) (hd_error (skipn k a)).
Proof.
  intros N. destruct (GallopRight_spec a key 0) as (_ & B1 & B2).
  { destruct a; [congruence|cbn; lia]. }
  split.
  - destruct (last_error _) as [x|] eqn:E; [|exact I]. now apply B1.
  - destruct (hd_error _) as [y|] eqn:E; [|exact I].
    cbn. unfold may_follow. now apply before_asym, B2.
Qed.

Lemma GallopLeft_links (a : list A) (key : A) :
  a <> [] ->
  let k := GallopLeft A cmp a key 0 in
  link (may_follow cmp) (last_error (firstn k a)) (Some key)
  /\ link (may_follow cmp) (Some key) (hd_error (skipn k a)).
Proof.
  intros N. destruct (GallopLeft_spec a key 0) as (_ & B1 & B2).
  { destruct a; [congruence|cbn; lia]. }
  split.
  - destruct (last_error _) as [x|] eqn:E; [|exact I].
    cbn. unfold may_follow. now apply before_asym, B1.
  - destruct (hd_error _) as [y|] eqn:E; [|exact I]. now apply B2.
Qed.


Lemma merge_ok_tl_left (R : A -> A -> Prop) (last : option A) (x : A)
    (xs ys : list A) :
  merge_ok R last (x :: xs) ys ->
  link R (Some x) (hd_error ys) ->
  merge_ok R (Some x) xs ys.
Proof.
  intros (S1 & S2 & L1 & L2) L. repeat split; try assumption.
  - now apply Sorted_inv in S1.
  - now apply Sorted_link_hd.
Qed.

Lemma merge_ok_tl_right (R : A -> A -> Prop) (last : option A) (y : A)
    (xs ys : list A) :
  merge_ok R last xs (y :: ys) ->
  link R (Some y) (hd_error xs) ->
  merge_ok R (Some y) xs ys.
Proof.
  intros (S1 & S2 & L1 & L2) L. repeat split; try assumption.
  - now apply Sorted_inv in S2.
  - now apply Sorted_link_hd.
Qed.

(** [MergeLow]'s loops weave the two runs: what they put out holds the
    elements of both, and each element may follow the one before it.  The
    last hypothesis is what [MergeAt] has found before it merges: the last
    element of run A may follow the last of run B, which is what [CopyB]
    relies on. *)
Lemma merge_low_weave :
  forall fuel mode temp work mg last r g,
    List.length temp + List.length work <= fuel ->
    merge_ok (may_follow cmp) last temp work ->
    2 <= List.length temp -> 1 <= List.length work ->
    link (may_follow cmp) (last_error work) (last_error temp) ->
    merge_low A cmp fuel mode temp work mg = (r, g) ->
    weave (may_follow cmp) last temp work r.
Proof.
  induction fuel as [|fuel IH]; intros mode temp work mg last r g F OK T Wk E M;
    [lia|].
  cbn [merge_low] in M.
  destruct temp as [|t temp1]; [cbn in T; lia|].
  destruct work as [|w work1]; [cbn in Wk; lia|].
  destruct mode as [nofWinsA nofWinsB|].
  - (* one pair at a time *)
    destruct (before cmp w t) eqn:B.
    + assert (Lwt : link (may_follow cmp) (Some w) (hd_error (t :: temp1)))
        by (cbn; unfold may_follow; now apply before_asym).
      pose proof (merge_ok_tl_right _ _ _ _ _ OK Lwt) as OK'.
      destruct OK as (S1 & S2 & L1 & L2).
      destruct work1 as [|w1 work2].
      * injection M as <- <-. constructor; [exact L2|].
        now apply weave_left_rest.
      * assert (E' : link (may_follow cmp) (last_error (w1 :: work2))
                       (last_error (t :: temp1)))
          by (rewrite last_error_cons in E by discriminate; exact E).
        destruct (if mg <=? S nofWinsB
                  then merge_low A cmp fuel Galloping (t :: temp1)
                         (w1 :: work2) (S mg)
                  else merge_low A cmp fuel (OneAtATime 0 (S nofWinsB))
                         (t :: temp1) (w1 :: work2) mg) as [r' g'] eqn:R.
        injection M as <- <-. constructor; [exact L2|].
        destruct (mg <=? S nofWinsB);
          eapply IH; try exact R; try exact OK'; try exact E';
          cbn [List.length] in *; lia.
    + assert (Ltw : link (may_follow cmp) (Some t) (hd_error (w :: work1)))
        by exact B.
      pose proof (merge_ok_tl_left _ _ _ _ _ OK Ltw) as OK'.
      destruct OK as (S1 & S2 & L1 & L2).
      destruct temp1 as [|t1 temp2]; [cbn in T; lia|].
      assert (E' : link (may_follow cmp) (last_error (w :: work1))
                     (last_error (t1 :: temp2)))
        by (rewrite (last_error_cons t) in E by discriminate; exact E).
      destruct temp2 as [|t2 temp3].
      * injection M as <- <-. constructor; [exact L1|].
        apply (weave_right_all (may_follow cmp) (w :: work1));
          [exact S2|exact Ltw|].
        apply weave_left_rest; [repeat constructor|].
        now rewrite last_or_nonempty by discriminate.
      * destruct (if mg <=? S nofWinsA
                  then merge_low A cmp fuel Galloping (t1 :: t2 :: temp3)
                         (w :: work1) (S mg)
                  else merge_low A cmp fuel (OneAtATime (S nofWinsA) 0)
                         (t1 :: t2 :: temp3) (w :: work1) mg)
          as [r' g'] eqn:R.
        injection M as <- <-. constructor; [exact L1|].
        destruct (mg <=? S nofWinsA);
          eapply IH; try exact R; try exact OK'; try exact E';
          cbn [List.length] in *; lia.
  - (* galloping *)
    destruct OK as (S1 & S2 & L1 & L2).
    assert (Sw1 : Sorted (may_follow cmp) work1) by now apply Sorted_inv in S2.
    assert (OKw : link (may_follow cmp) (Some w) (hd_error work1))
      by now apply Sorted_link_hd.
    set (temp := t :: temp1) in *. set (work := w :: work1) in *.
    assert (Nt : temp <> []) by discriminate.
    cbv zeta in M.
    destruct (GallopRight_links temp w Nt) as [GA1 GA2].
    set (k := GallopRight A cmp temp w 0) in *.
    set (chunkA := firstn k temp) in *. set (tr := skipn k temp) in *.
    assert (Et : temp = chunkA ++ tr) by (symmetry; apply firstn_skipn).
    assert (Sc : Sorted (may_follow cmp) chunkA) by now apply firstn_Sorted.
    assert (Str : Sorted (may_follow cmp) tr) by now apply skipn_Sorted.
    assert (Lt : List.length temp = List.length chunkA + List.length tr)
      by (rewrite Et at 1; apply length_app).
    assert (Kc : k = 0 -> chunkA = [] /\ tr = temp) by now intros ->.
    assert (Lc : link (may_follow cmp) last (hd_error chunkA)).
    { destruct k as [|k']; [now destruct last|].
      unfold chunkA. now rewrite hd_error_firstn by lia. }
    set (last1 := last_or chunkA last).
    assert (L1w : link (may_follow cmp) last1 (Some w)).
    { unfold last1. destruct chunkA as [|c0 cs] eqn:Ec; [exact L2|].
      now rewrite last_or_nonempty by discriminate. }
    assert (Ltr : tr <> [] -> last_error tr = last_error temp)
      by (intros N; now apply last_error_skipn).
    enough (G : exists r1, r = chunkA ++ r1 /\ weave (may_follow cmp) last1 tr work r1).
    { destruct G as (r1 & -> & G). rewrite Et.
      now apply weave_left_chunk. }
    destruct ((0 <? k) && (List.length tr =? 1)) eqn:C1.
    { (* CopyB *)
      injection M as <- <-. eexists. split; [reflexivity|].
      apply andb_true_iff in C1 as [_ C1]. apply Nat.eqb_eq in C1.
      apply (weave_right_all (may_follow cmp) work); [exact S2|exact L1w|].
      apply weave_left_rest; [exact Str|].
      rewrite last_or_nonempty by discriminate.
      destruct (length_one _ C1) as (a & Ha).
      rewrite <- Ltr in E by (rewrite Ha; discriminate).
      now rewrite Ha in *. }
    destruct ((0 <? k) && (List.length tr =? 0)) eqn:C2.
    { (* Succeed *)
      injection M as <- <-. eexists. split; [reflexivity|].
      apply andb_true_iff in C2 as [_ C2]. apply Nat.eqb_eq in C2.
      apply length_zero_iff_nil in C2. rewrite C2.
      now apply weave_right_rest. }
    assert (T2 : 2 <= List.length tr).
    { destruct k as [|k']; [destruct (Kc eq_refl) as [_ ->]; exact T|].
      cbn [Nat.ltb Nat.leb andb] in C1, C2.
      apply Nat.eqb_neq in C1, C2. lia. }
    destruct tr as [|t1 tr2] eqn:Etr; [cbn in T2; lia|].
    destruct work1 as [|w1 work2] eqn:Ew1.
    { injection M as <- <-. eexists. split; [reflexivity|].
      constructor; [exact L1w|]. now apply weave_left_rest. }
    rewrite <- Ew1 in *.
    assert (Nw : work1 <> []) by (rewrite Ew1; discriminate).
    destruct (GallopLeft_links work1 t1 Nw) as [GB1 GB2].
    set (k' := GallopLeft A cmp work1 t1 0) in *.
    set (chunkB := firstn k' work1) in *. set (wr := skipn k' work1) in *.
    assert (Ew : work1 = chunkB ++ wr) by (symmetry; apply firstn_skipn).
    assert (Scb : Sorted (may_follow cmp) chunkB)
      by now apply firstn_Sorted.
    assert (Swr : Sorted (may_follow cmp) wr)
      by now apply skipn_Sorted.
    assert (Lw : List.length work1 = List.length chunkB + List.length wr)
      by (rewrite Ew at 1; apply length_app).
    assert (Lcb : link (may_follow cmp) (Some w) (hd_error chunkB)).
    { destruct k' as [|k'']; [exact I|].
      unfold chunkB. now rewrite hd_error_firstn by lia. }
    set (last2 := last_or chunkB (Some w)).
    assert (L2t : link (may_follow cmp) last2 (Some t1)).
    { unfold last2. destruct chunkB as [|c0 cs] eqn:Ec; [exact GA2|].
      now rewrite last_or_nonempty by discriminate. }
    assert (Lwr : wr <> [] -> last_error wr = last_error work).
    { intros N. unfold wr. rewrite last_error_skipn by exact N.
      unfold work. rewrite <- Ew1. now rewrite last_error_cons by exact Nw. }
    assert (Ltr2 : tr2 <> [] -> last_error tr2 = last_error temp).
    { intros N. rewrite <- Ltr by discriminate.
      now rewrite last_error_cons by exact N. }
    enough (G : exists r3, r = chunkA ++ w :: chunkB ++ r3
                           /\ weave (may_follow cmp) last2 (t1 :: tr2) wr r3).
    { destruct G as (r3 & -> & G). eexists. split; [reflexivity|].
      constructor; [exact L1w|]. rewrite <- Ew1, Ew.
      now apply weave_right_chunk. }
    destruct ((0 <? k') && (List.length wr =? 0)) eqn:C3.
    { injection M as <- <-. eexists. split; [reflexivity|].
      apply andb_true_iff in C3 as [_ C3]. apply Nat.eqb_eq in C3.
      apply length_zero_iff_nil in C3. rewrite C3.
      now apply weave_left_rest. }
    assert (Nwr : wr <> []).
    { destruct k' as [|k'']; [unfold wr; cbn; exact Nw|].
      cbn [Nat.ltb Nat.leb andb] in C3. apply Nat.eqb_neq in C3.
      intros N. apply C3. now rewrite N. }
    destruct (List.length tr2 =? 1) eqn:C4.
    { (* CopyB *)
      injection M as <- <-. eexists. split; [reflexivity|].
      apply Nat.eqb_eq in C4. destruct (length_one _ C4) as (a & Ha).
      constructor; [exact L2t|].
      apply (weave_right_all (may_follow cmp) wr); [exact Swr|exact GB2|].
      apply weave_left_rest; [now apply Sorted_inv in Str|].
      rewrite last_or_nonempty, Lwr by exact Nwr.
      rewrite <- Ltr2 in E by (rewrite Ha; discriminate).
      now rewrite Ha in *. }
    apply Nat.eqb_neq in C4.
    destruct (if (kMinGallopWins <=? k) || (kMinGallopWins <=? k')
              then merge_low A cmp fuel Galloping tr2 wr
                     (Nat.max 1 (mg - 1))
              else merge_low A cmp fuel (OneAtATime 0 0) tr2 wr
                     (S (Nat.max 1 (mg - 1)))) as [r4 g4] eqn:R.
    injection M as <- <-. eexists. split; [reflexivity|].
    constructor; [exact L2t|].
    assert (N2 : tr2 <> []) by (destruct tr2; [cbn in T2; lia|discriminate]).
    assert (OK4 : merge_ok (may_follow cmp) (Some t1) tr2 wr).
    { repeat split; [now apply Sorted_inv in Str|exact Swr| |exact GB2].
      now apply Sorted_link_hd. }
    assert (E4 : link (may_follow cmp) (last_error wr) (last_error tr2))
      by (rewrite Lwr, Ltr2 by assumption; exact E).
    assert (F4 : List.length tr2 + List.length wr <= fuel).
    { unfold work in F. rewrite <- Ew1 in F.
      cbn [List.length] in F, Lt, T2. lia. }
    assert (W4 : 1 <= List.length wr) by (destruct wr; [congruence|cbn; lia]).
    destruct ((kMinGallopWins <=? k) || (kMinGallopWins <=? k'));
      eapply IH; try exact R; try exact OK4; try exact E4; try lia;
      cbn [List.length] in T2; lia.
Qed.

(** ** Merging from the right *)

Lemma link_flip (x y : option A) :
  link (may_precede cmp) x y <-> link (may_follow cmp) y x.
Proof. destruct x, y; cbn; tauto. Qed.

Lemma Sorted_follows_rev (l : list A) :
  Sorted (may_follow cmp) l -> Sorted (may_precede cmp) (rev l).
Proof. intros S. exact (Sorted_rev (may_follow cmp) l S). Qed.

Lemma Sorted_may_follow_rev (l : list A) :
  Sorted (may_precede cmp) l -> Sorted (may_follow cmp) (rev l).
Proof. intros S. exact (Sorted_rev (may_precede cmp) l S). Qed.

Lemma last_error_rev (l : list A) : last_error (rev l) = hd_error l.
Proof. unfold last_error. now rewrite rev_involutive. Qed.

Lemma hd_error_rev (l : list A) : hd_error (rev l) = last_error l.
Proof. reflexivity. Qed.

Lemma GallopRight_rev_links (work : list A) (b : A) :
  work <> [] ->
  let n := List.length work
           - GallopRight A cmp (rev work) b (List.length work - 1) in
  link (may_precede cmp) (last_error (firstn n work)) (Some b)
  /\ link (may_precede cmp) (Some b) (hd_error (skipn n work)).
Proof.
  intros N.
  destruct (GallopRight_spec (rev work) b (List.length work - 1)) as (_ & B1 & B2).
  { rewrite length_rev. destruct work; [congruence|cbn; lia]. }
  rewrite firstn_rev, last_error_rev in B1.
  rewrite skipn_rev, hd_error_rev in B2.
  split.
  - destruct (last_error _) as [x|] eqn:E; [|exact I].
    cbn. unfold may_precede, may_follow. now apply before_asym, B2.
  - destruct (hd_error _) as [y|] eqn:E; [|exact I]. now apply B1.
Qed.

Lemma GallopLeft_rev_links (temp : list A) (a : A) :
  temp <> [] ->
  let n := List.length temp
           - GallopLeft A cmp (rev temp) a (List.length temp - 1) in
  link (may_precede cmp) (last_error (firstn n temp)) (Some a)
  /\ link (may_precede cmp) (Some a) (hd_error (skipn n temp)).
Proof.
  intros N.
  destruct (GallopLeft_spec (rev temp) a (List.length temp - 1)) as (_ & B1 & B2).
  { rewrite length_rev. destruct temp; [congruence|cbn; lia]. }
  rewrite firstn_rev, last_error_rev in B1.
  rewrite skipn_rev, hd_error_rev in B2.
  split.
  - destruct (last_error _) as [x|] eqn:E; [|exact I]. now apply B2.
  - destruct (hd_error _) as [y|] eqn:E; [|exact I].
    cbn. unfold may_precede, may_follow. now apply before_asym, B1.
Qed.

(** The same for [MergeHigh], whose runs and output are held last element
    first; [CopyA] relies on what [MergeAt] has found of the first elements
    of the runs. *)
Lemma merge_high_weave :
  forall fuel mode work temp mg last r g,
    List.length work + List.length temp <= fuel ->
    merge_ok (may_precede cmp) last work temp ->
    1 <= List.length work -> 2 <= List.length temp ->
    link (may_precede cmp) (last_error work) (last_error temp) ->
    merge_high A cmp fuel mode work temp mg = (r, g) ->
    weave (may_precede cmp) last work temp r.
Proof.
  induction fuel as [|fuel IH]; intros mode work temp mg last r g F OK Wk T E M;
    [lia|].
  cbn [merge_high] in M.
  destruct work as [|a work1]; [cbn in Wk; lia|].
  destruct temp as [|b temp1]; [cbn in T; lia|].
  destruct mode as [nofWinsA nofWinsB|].
  - (* one pair at a time *)
    destruct (before cmp b a) eqn:B.
    + assert (Lab : link (may_precede cmp) (Some a) (hd_error (b :: temp1)))
        by (cbn; unfold may_precede, may_follow; now apply before_asym).
      pose proof (merge_ok_tl_left _ _ _ _ _ OK Lab) as OK'.
      destruct OK as (S1 & S2 & L1 & L2).
      destruct work1 as [|a1 work2].
      * injection M as <- <-. constructor; [exact L1|].
        now apply weave_right_rest.
      * assert (E' : link (may_precede cmp) (last_error (a1 :: work2))
                       (last_error (b :: temp1)))
          by (rewrite last_error_cons in E by discriminate; exact E).
        destruct (if mg <=? S nofWinsA
                  then merge_high A cmp fuel Galloping (a1 :: work2)
                         (b :: temp1) (S mg)
                  else merge_high A cmp fuel (OneAtATime (S nofWinsA) 0)
                         (a1 :: work2) (b :: temp1) mg) as [r' g'] eqn:R.
        injection M as <- <-. constructor; [exact L1|].
        destruct (mg <=? S nofWinsA);
          eapply IH; try exact R; try exact OK'; try exact E';
          cbn [List.length] in *; lia.
    + assert (Lba : link (may_precede cmp) (Some b) (hd_error (a :: work1)))
        by exact B.
      pose proof (merge_ok_tl_right _ _ _ _ _ OK Lba) as OK'.
      destruct OK as (S1 & S2 & L1 & L2).
      destruct temp1 as [|b1 temp2]; [cbn in T; lia|].
      assert (E' : link (may_precede cmp) (last_error (a :: work1))
                     (last_error (b1 :: temp2)))
        by (rewrite (last_error_cons b) in E by discriminate; exact E).
      destruct temp2 as [|b2 temp3].
      * injection M as <- <-. constructor; [exact L2|].
        apply (weave_left_all (may_precede cmp) (a :: work1));
          [exact S1|exact Lba|].
        apply weave_right_rest; [repeat constructor|].
        now rewrite last_or_nonempty by discriminate.
      * destruct (if mg <=? S nofWinsB
                  then merge_high A cmp fuel Galloping (a :: work1)
                         (b1 :: b2 :: temp3) (S mg)
                  else merge_high A cmp fuel (OneAtATime 0 (S nofWinsB))
                         (a :: work1) (b1 :: b2 :: temp3) mg)
          as [r' g'] eqn:R.
        injection M as <- <-. constructor; [exact L2|].
        destruct (mg <=? S nofWinsB);
          eapply IH; try exact R; try exact OK'; try exact E';
          cbn [List.length] in *; lia.
  - (* galloping *)
    destruct OK as (S1 & S2 & L1 & L2).
    assert (St1 : Sorted (may_precede cmp) temp1) by now apply Sorted_inv in S2.
    assert (OKb : link (may_precede cmp) (Some b) (hd_error temp1))
      by now apply Sorted_link_hd.
    assert (Et1 : temp1 <> [] -> last_error temp1 = last_error (b :: temp1))
      by (intros N; now rewrite last_error_cons by exact N).
    assert (T1 : 1 <= List.length temp1) by (cbn [List.length] in T; lia).
    clear T.
    remember (a :: work1) as work eqn:Ework.
    assert (Nw : work <> []) by (rewrite Ework; discriminate).
    assert (Ew0 : match work with [] => False | _ :: _ => True end)
      by now rewrite Ework.
    clear Ework Wk.
    cbv zeta in M.
    destruct (GallopRight_rev_links work b Nw) as [GA1 GA2].
    set (n := List.length work
              - GallopRight A cmp (rev work) b (List.length work - 1)) in *.
    set (chunkA := firstn n work) in *. set (wr := skipn n work) in *.
    assert (Ew : work = chunkA ++ wr) by (symmetry; apply firstn_skipn).
    assert (Sc : Sorted (may_precede cmp) chunkA) by now apply firstn_Sorted.
    assert (Swr : Sorted (may_precede cmp) wr) by now apply skipn_Sorted.
    assert (Lw : List.length work = List.length chunkA + List.length wr)
      by (rewrite Ew at 1; apply length_app).
    assert (Kc : n = 0 -> wr = work) by now intros ->.
    assert (Lc : link (may_precede cmp) last (hd_error chunkA)).
    { destruct n as [|n']; [now destruct last|].
      unfold chunkA. now rewrite hd_error_firstn by lia. }
    set (last1 := last_or chunkA last).
    assert (L1b : link (may_precede cmp) last1 (Some b)).
    { unfold last1. destruct chunkA as [|c0 cs] eqn:Ec; [exact L2|].
      now rewrite last_or_nonempty by discriminate. }
    assert (Lwr : wr <> [] -> last_error wr = last_error work)
      by (intros N; now apply last_error_skipn).
    enough (G : exists r1, r = chunkA ++ r1
                           /\ weave (may_precede cmp) last1 wr (b :: temp1) r1).
    { destruct G as (r1 & -> & G). rewrite Ew.
      now apply weave_left_chunk. }
    destruct work as [|a0 work0]; [contradiction|]. clear Ew0.
    destruct ((0 <? n) && (List.length wr =? 0)) eqn:C1.
    { injection M as <- <-. eexists. split; [reflexivity|].
      apply andb_true_iff in C1 as [_ C1]. apply Nat.eqb_eq in C1.
      apply length_zero_iff_nil in C1. rewrite C1.
      now apply weave_right_rest. }
    assert (Nwr : wr <> []).
    { destruct n as [|n']; [rewrite Kc by reflexivity; exact Nw|].
      cbn [Nat.ltb Nat.leb andb] in C1. apply Nat.eqb_neq in C1.
      intros N. apply C1. now rewrite N. }
    destruct temp1 as [|b1 temp2]; [cbn in T1; lia|].
    destruct temp2 as [|b2 temp3].
    { (* CopyA *)
      injection M as <- <-. eexists. split; [reflexivity|].
      constructor; [exact L1b|].
      apply (weave_left_all (may_precede cmp) wr); [exact Swr|exact GA2|].
      apply weave_right_rest; [repeat constructor|].
      rewrite last_or_nonempty, Lwr by exact Nwr. exact E. }
    destruct wr as [|a1 wr2] eqn:Ewr; [congruence|].
    set (temp1 := b1 :: b2 :: temp3) in *.
    assert (Nt1 : temp1 <> []) by discriminate.
    destruct (GallopLeft_rev_links temp1 a1 Nt1) as [GB1 GB2].
    set (n' := List.length temp1
               - GallopLeft A cmp (rev temp1) a1 (List.length temp1 - 1)) in *.
    set (chunkB := firstn n' temp1) in *. set (tr := skipn n' temp1) in *.
    assert (Et : temp1 = chunkB ++ tr) by (symmetry; apply firstn_skipn).
    assert (Scb : Sorted (may_precede cmp) chunkB) by now apply firstn_Sorted.
    assert (Str : Sorted (may_precede cmp) tr) by now apply skipn_Sorted.
    assert (Lt : List.length temp1 = List.length chunkB + List.length tr)
      by (rewrite Et at 1; apply length_app).
    assert (Lcb : link (may_precede cmp) (Some b) (hd_error chunkB)).
    { destruct n' as [|n'']; [exact I|].
      unfold chunkB. now rewrite hd_error_firstn by lia. }
    set (last2 := last_or chunkB (Some b)).
    assert (L2a : link (may_precede cmp) last2 (Some a1)).
    { unfold last2. destruct chunkB as [|c0 cs] eqn:Ec; [exact GA2|].
      now rewrite last_or_nonempty by discriminate. }
    assert (Ltr : tr <> [] -> last_error tr = last_error (b :: temp1)).
    { intros N. unfold tr. rewrite last_error_skipn by exact N.
      now apply Et1. }
    enough (G : exists r3, r = chunkA ++ b :: chunkB ++ r3
                           /\ weave (may_precede cmp) last2 (a1 :: wr2) tr r3).
    { destruct G as (r3 & -> & G). eexists. split; [reflexivity|].
      constructor; [exact L1b|]. rewrite Et.
      now apply weave_right_chunk. }
    destruct ((0 <? n') && (List.length tr =? 1)) eqn:C2.
    { (* CopyA *)
      injection M as <- <-. eexists. split; [reflexivity|].
      apply andb_true_iff in C2 as [_ C2]. apply Nat.eqb_eq in C2.
      destruct (length_one _ C2) as (x & Hx).
      apply (weave_left_all (may_precede cmp) (a1 :: wr2)); [exact Swr|exact L2a|].
      apply weave_right_rest; [exact Str|].
      rewrite last_or_nonempty, Lwr by discriminate.
      rewrite <- Ltr in E by (rewrite Hx; discriminate).
      now rewrite Hx in *. }
    destruct ((0 <? n') && (List.length tr =? 0)) eqn:C3.
    { (* Succeed *)
      injection M as <- <-. eexists. split; [reflexivity|].
      apply andb_true_iff in C3 as [_ C3]. apply Nat.eqb_eq in C3.
      apply length_zero_iff_nil in C3. rewrite C3.
      now apply weave_left_rest. }
    assert (T2 : 2 <= List.length tr).
    { destruct n' as [|n'']; [unfold tr; cbn; lia|].
      cbn [Nat.ltb Nat.leb andb] in C2, C3.
      apply Nat.eqb_neq in C2, C3. lia. }
    assert (Ntr : tr <> []) by (destruct tr; [cbn in T2; lia|discriminate]).
    destruct wr2 as [|a2 wr3] eqn:Ewr2.
    { injection M as <- <-. eexists. split; [reflexivity|].
      constructor; [exact L2a|]. now apply weave_right_rest. }
    rewrite <- Ewr2 in *.
    assert (Nwr2 : wr2 <> []) by (rewrite Ewr2; discriminate).
    destruct (if (kMinGallopWins <=? n) || (kMinGallopWins <=? n')
              then merge_high A cmp fuel Galloping wr2 tr
                     (Nat.max 1 (mg - 1))
              else merge_high A cmp fuel (OneAtATime 0 0) wr2 tr
                     (S (Nat.max 1 (mg - 1)))) as [r4 g4] eqn:R.
    injection M as <- <-. eexists. split; [reflexivity|].
    constructor; [exact L2a|].
    assert (OK4 : merge_ok (may_precede cmp) (Some a1) wr2 tr).
    { repeat split; [now apply Sorted_inv in Swr|exact Str| |exact GB2].
      now apply Sorted_link_hd. }
    assert (E4 : link (may_precede cmp) (last_error wr2) (last_error tr)).
    { rewrite Ltr by exact Ntr.
      rewrite <- (last_error_cons a1) by exact Nwr2.
      rewrite Lwr by discriminate. exact E. }
    assert (F4 : List.length wr2 + List.length tr <= fuel).
    { cbn [List.length] in F, Lw. lia. }
    assert (W4 : 1 <= List.length wr2) by (destruct wr2; [congruence|cbn; lia]).
    destruct ((kMinGallopWins <=? n) || (kMinGallopWins <=? n'));
      eapply IH; try exact R; try exact OK4; try exact E4; lia.
Qed.

(** ** The merge of two neighbouring runs *)

Lemma weave_hd (R : A -> A -> Prop) (last : option A) (xs ys out : list A)
    (z : option A) :
  weave R last xs ys out ->
  link R z (hd_error xs) -> link R z (hd_error ys) ->
  link R z (hd_error out).
Proof.
  intros W Lx Ly. destruct W as [last|last x xs ys out L W|last y xs ys out L W].
  - now destruct z.
  - exact Lx.
  - exact Ly.
Qed.

Lemma weave_out_nil (R : A -> A -> Prop) (last : option A) (xs ys : list A) :
  weave R last xs ys [] -> xs = [] /\ ys = [].
Proof. intros W. now inversion W. Qed.

Lemma weave_last (R : A -> A -> Prop) (last : option A) (xs ys out : list A)
    (z : option A) :
  weave R last xs ys out ->
  link R (last_error xs) z -> link R (last_error ys) z ->
  link R (last_error out) z.
Proof.
  intros W. induction W as [last|last x xs ys out L W IH|last y xs ys out L W IH];
    intros Lx Ly.
  - exact I.
  - destruct out as [|o out].
    + apply weave_out_nil in W as [-> ->]. exact Lx.
    + rewrite last_error_cons by discriminate. apply IH; [|exact Ly].
      destruct xs as [|x' xs]; [exact I|].
      now rewrite last_error_cons in Lx by discriminate.
  - destruct out as [|o out].
    + apply weave_out_nil in W as [-> ->]. exact Ly.
    + rewrite last_error_cons by discriminate. apply IH; [exact Lx|].
      destruct ys as [|y' ys]; [exact I|].
      now rewrite last_error_cons in Ly by discriminate.
Qed.

Lemma hd_error_app_nonempty (l l' : list A) :
  l <> [] -> hd_error (l ++ l') = hd_error l.
Proof. now destruct l. Qed.

Lemma last_error_app_nonempty (l l' : list A) :
  l' <> [] -> last_error (l ++ l') = last_error l'.
Proof.
  destruct l' as [|x l']; [congruence|]. intros _. apply last_error_app_cons.
Qed.

Lemma weave_merged (runA runB out : list A) :
  weave (may_follow cmp) None runA runB out -> merged cmp runA runB out.
Proof.
  intros W. split; [exact (weave_Sorted _ _ _ _ _ W)|].
  split; [exact (weave_Permutation _ _ _ _ _ W)|]. split.
  - intros z. now apply weave_hd with (last := None).
  - intros z. now apply weave_last with (last := None).
Qed.

Lemma weave_rev_merged (runA runB out : list A) :
  weave (may_precede cmp) None (rev runA) (rev runB) (rev out) -> merged cmp runA runB out.
Proof.
  intros W. split; [|split; [|split]].
  - rewrite <- (rev_involutive out). apply Sorted_may_follow_rev.
    exact (weave_Sorted _ _ _ _ _ W).
  - apply weave_Permutation in W.
    rewrite (Permutation_rev out), W.
    now rewrite <- !Permutation_rev.
  - intros z Lx Ly. apply link_flip. rewrite <- last_error_rev.
    apply weave_last with (1 := W);
      rewrite last_error_rev; now apply link_flip.
  - intros z Lx Ly. apply link_flip. rewrite <- hd_error_rev.
    apply weave_hd with (1 := W);
      rewrite hd_error_rev; now apply link_flip.
Qed.

Lemma MergeLow_merged (runA runB : list A) (mg : nat) (r : list A) (g : nat) :
  Sorted (may_follow cmp) runA -> Sorted (may_follow cmp) runB ->
  runA <> [] ->
  link (may_follow cmp) (hd_error runB) (hd_error runA) ->
  link (may_follow cmp) (last_error runB) (last_error runA) ->
  MergeLow A cmp runA runB mg = (r, g) ->
  merged cmp runA runB r.
Proof.
  intros SA SB NA P1 P2 M. apply weave_merged.
  unfold MergeLow in M.
  destruct runB as [|w work1].
  { injection M as <- <-. apply weave_left_rest; [exact SA|exact I]. }
  destruct work1 as [|w1 work2].
  { injection M as <- <-. constructor; [exact I|].
    now apply weave_left_rest. }
  assert (E : link (may_follow cmp) (last_error (w1 :: work2)) (last_error runA))
    by (rewrite last_error_cons in P2 by discriminate; exact P2).
  destruct (List.length runA =? 1) eqn:C.
  { injection M as <- <-. apply Nat.eqb_eq in C.
    destruct (length_one _ C) as (a & ->).
    apply (weave_right_all (may_follow cmp) (w :: w1 :: work2)); [exact SB|exact I|].
    apply weave_left_rest; [exact SA|].
    now rewrite last_or_nonempty, last_error_cons by discriminate. }
  apply Nat.eqb_neq in C.
  destruct (merge_low A cmp (List.length runA + List.length (w :: w1 :: work2))
              (OneAtATime 0 0) runA (w1 :: work2) mg) as [r' g'] eqn:R.
  injection M as <- <-. constructor; [exact I|].
  eapply merge_low_weave; try exact R; try exact E.
  - cbn [List.length]. lia.
  - repeat split; [exact SA|now apply Sorted_inv in SB|exact P1|].
    now apply Sorted_link_hd.
  - destruct runA as [|a [|a' runA]]; cbn [List.length] in *; try lia; congruence.
  - cbn [List.length]. lia.
Qed.

Lemma MergeHigh_merged (runA runB : list A) (mg : nat) (r : list A) (g : nat) :
  Sorted (may_follow cmp) runA -> Sorted (may_follow cmp) runB ->
  runB <> [] ->
  link (may_follow cmp) (hd_error runB) (hd_error runA) ->
  link (may_follow cmp) (last_error runB) (last_error runA) ->
  MergeHigh A cmp runA runB mg = (r, g) ->
  merged cmp runA runB r.
Proof.
  intros SA SB NB P1 P2 M. apply weave_rev_merged.
  unfold MergeHigh in M.
  pose proof (Sorted_follows_rev _ SA) as SA'.
  pose proof (Sorted_follows_rev _ SB) as SB'.
  apply link_flip in P1, P2.
  rewrite <- last_error_rev, <- (last_error_rev runB) in P1.
  rewrite <- hd_error_rev, <- (hd_error_rev runB) in P2.
  assert (NB' : rev runB <> []).
  { intros N. apply NB. rewrite <- (rev_involutive runB), N. reflexivity. }
  assert (LB : List.length (rev runB) = List.length runB) by apply length_rev.
  assert (LA : List.length (rev runA) = List.length runA) by apply length_rev.
  destruct (rev runA) as [|a work1] eqn:EA.
  { injection M as <- <-. apply weave_right_rest; [exact SB'|exact I]. }
  destruct work1 as [|a1 work2].
  { injection M as <- <-. rewrite rev_app_distr. cbn [rev app].
    constructor; [exact I|]. now apply weave_right_rest. }
  assert (E : link (may_precede cmp) (last_error (a1 :: work2)) (last_error (rev runB)))
    by (rewrite last_error_cons in P1 by discriminate; exact P1).
  destruct (List.length runB =? 1) eqn:C.
  { injection M as <- <-. apply Nat.eqb_eq in C.
    rewrite <- LB in C. destruct (length_one _ C) as (b & Hb).
    rewrite !rev_app_distr, rev_involutive. cbn [rev app].
    rewrite Hb in *.
    apply (weave_left_all (may_precede cmp) (a :: a1 :: work2)); [exact SA'|exact I|].
    apply weave_right_rest; [exact SB'|].
    now rewrite last_or_nonempty, last_error_cons by discriminate. }
  apply Nat.eqb_neq in C.
  destruct (merge_high A cmp (List.length runA + List.length runB)
              (OneAtATime 0 0) (a1 :: work2) (rev runB) mg)
    as [r' g'] eqn:R.
  assert (Hr : r = rev (a :: r')) by congruence.
  rewrite Hr, rev_involutive. constructor; [exact I|].
  eapply merge_high_weave; try exact R; try exact E.
  - cbn [List.length] in *. lia.
  - repeat split; [now apply Sorted_inv in SA'|exact SB'| |exact P2].
    now apply Sorted_link_hd.
  - cbn [List.length]. lia.
  - destruct (rev runB) as [|b [|b' l]]; cbn [List.length] in *; try lia; congruence.
Qed.

Lemma merged_nil_r (runA : list A) :
  Sorted (may_follow cmp) runA -> merged cmp runA [] runA.
Proof.
  intros S. apply weave_merged. apply weave_left_rest; [exact S|exact I].
Qed.

Lemma merged_app (runA runB : list A) :
  Sorted (may_follow cmp) runA -> Sorted (may_follow cmp) runB ->
  link (may_follow cmp) (last_error runA) (hd_error runB) ->
  merged cmp runA runB (runA ++ runB).
Proof.
  intros SA SB L. apply weave_merged.
  rewrite <- (app_nil_r runA) at 1.
  apply weave_left_chunk; [exact SA|exact I|].
  apply weave_right_rest; [exact SB|].
  unfold last_or. destruct (last_error runA); [exact L|].
  now destruct (hd_error runB).
Qed.

(** [MergeAt] on two runs: after the elements of A that are in place
    before B and the elements of B that are in place after A are set aside,
    what [MergeLow] or [MergeHigh] writes between them makes one run. *)
Lemma merge_runs_spec (runA runB : list A) (mg : nat) (r : list A) (g : nat) :
  Sorted (may_follow cmp) runA -> Sorted (may_follow cmp) runB ->
  merge_runs A cmp runA runB mg = (r, g) ->
  Sorted (may_follow cmp) r /\ Permutation r (runA ++ runB).
Proof.
  intros SA SB M.
  enough (G : merged cmp runA runB r) by (split; apply G).
  unfold merge_runs in M.
  destruct runB as [|keyRight runB1] eqn:EB.
  { injection M as <- <-. rewrite app_nil_r. now apply merged_nil_r. }
  rewrite <- EB in *.
  assert (NB : runB <> []) by (rewrite EB; discriminate).
  cbv zeta in M.
  destruct runA as [|a0 runA0] eqn:EA.
  { assert (M' : r = runB).
    { rewrite skipn_nil in M. cbn in M.
      now injection M as <- <-. }
    rewrite M'. apply weave_merged. apply weave_right_rest; [exact SB|exact I]. }
  rewrite <- EA in *.
  assert (NA : runA <> []) by (rewrite EA; discriminate).
  destruct (GallopRight_links runA keyRight NA) as [GA1 GA2].
  destruct (GallopRight_spec runA keyRight 0) as (_ & _ & GA3).
  { rewrite EA. cbn. lia. }
  cbv zeta in GA3.
  set (k := GallopRight A cmp runA keyRight 0) in *.
  set (before_b := firstn k runA) in *. set (runA' := skipn k runA) in *.
  assert (LAh : link (may_follow cmp) (last_error before_b) (hd_error runB))
    by (rewrite EB at 1; exact GA1).
  destruct (rev runA') as [|keyLeft rA] eqn:ER.
  { injection M as <- <-.
    assert (N : runA' = [])
      by (rewrite <- (rev_involutive runA'), ER; reflexivity).
    apply merged_app; [exact SA|exact SB|].
    rewrite <- (firstn_skipn k runA). fold before_b. fold runA'.
    now rewrite N, app_nil_r. }
  assert (NA' : runA' <> []) by (intros N; now rewrite N in ER).
  assert (EL : last_error runA' = Some keyLeft) by (unfold last_error; now rewrite ER).
  assert (ELA : last_error runA = Some keyLeft)
    by (rewrite <- EL; symmetry; now apply last_error_skipn).
  destruct (GallopLeft_spec runB keyLeft (List.length runB - 1)) as (_ & GB1 & GB2).
  { rewrite EB. cbn. lia. }
  cbv zeta in GB1, GB2.
  set (lengthB := GallopLeft A cmp runB keyLeft (List.length runB - 1)) in *.
  set (runB' := firstn lengthB runB) in *. set (after_a := skipn lengthB runB) in *.
  destruct (lengthB =? 0) eqn:C.
  { injection M as <- <-. apply Nat.eqb_eq in C.
    apply merged_app; [exact SA|exact SB|].
    rewrite ELA. destruct (hd_error runB) as [y|] eqn:Ey; [|exact I].
    apply (GB2 y). unfold after_a. now rewrite C. }
  apply Nat.eqb_neq in C.
  assert (SA' : Sorted (may_follow cmp) runA') by now apply skipn_Sorted.
  assert (SB' : Sorted (may_follow cmp) runB') by now apply firstn_Sorted.
  assert (HB' : hd_error runB' = Some keyRight)
    by (unfold runB'; rewrite hd_error_firstn by lia; now rewrite EB).
  assert (NB' : runB' <> []) by (intros N; now rewrite N in HB').
  assert (P1 : link (may_follow cmp) (hd_error runB') (hd_error runA')).
  { rewrite HB'. destruct (hd_error runA') as [y|] eqn:Ey; [|exact I].
    cbn. unfold may_follow. now apply before_asym, GA3. }
  assert (P2 : link (may_follow cmp) (last_error runB') (last_error runA')).
  { rewrite EL. destruct (last_error runB') as [x|] eqn:Ex; [|exact I].
    cbn. unfold may_follow. now apply before_asym, GB1. }
  assert (Mg : forall merged0 g0,
             (if List.length runA' <=? lengthB
              then MergeLow A cmp runA' runB' mg
              else MergeHigh A cmp runA' runB' mg) = (merged0, g0) ->
             merged cmp runA' runB' merged0).
  { intros m0 g0 H. destruct (List.length runA' <=? lengthB).
    - now apply (MergeLow_merged runA' runB' mg m0 g0).
    - now apply (MergeHigh_merged runA' runB' mg m0 g0). }
  destruct (if List.length runA' <=? lengthB
            then MergeLow A cmp runA' runB' mg
            else MergeHigh A cmp runA' runB' mg) as [m0 g0] eqn:R.
  injection M as <- <-.
  destruct (Mg m0 g0 eq_refl) as (Sm & Pm & Hm & Lm).
  assert (Sba : Sorted (may_follow cmp) before_b) by now apply firstn_Sorted.
  assert (Saa : Sorted (may_follow cmp) after_a) by now apply skipn_Sorted.
  assert (Nm : m0 <> []).
  { intros N. rewrite N in Pm. apply Permutation_nil in Pm.
    now apply app_eq_nil in Pm as [? _]. }
  assert (L1 : link (may_follow cmp) (last_error before_b) (hd_error m0)).
  { apply Hm; [now apply firstn_skipn_link|].
    rewrite HB'. now rewrite EB in LAh. }
  assert (L2 : link (may_follow cmp) (last_error m0) (hd_error after_a)).
  { apply Lm; [|now apply firstn_skipn_link].
    rewrite EL. destruct (hd_error after_a) as [y|] eqn:Ey; [|exact I].
    now apply GB2. }
  assert (EA2 : runA = before_b ++ runA')
    by (symmetry; apply firstn_skipn).
  assert (EB2 : runB = runB' ++ after_a)
    by (symmetry; apply firstn_skipn).
  split; [|split; [|split]].
  - apply Sorted_app; [exact Sba| |].
    + apply Sorted_app; assumption.
    + destruct m0 as [|m m0]; [congruence|exact L1].
  - rewrite Pm.
    replace (runA ++ runB) with ((before_b ++ runA') ++ runB' ++ after_a)
      by (unfold before_b, runA', runB', after_a; now rewrite !firstn_skipn).
    now rewrite !app_assoc.
  - intros z Lx Ly. rewrite EA2 in Lx. rewrite EB2 in Ly.
    rewrite hd_error_app_nonempty in Ly by exact NB'.
    destruct before_b as [|b0 bb]; [|exact Lx].
    cbn [app] in *. rewrite hd_error_app_nonempty by exact Nm.
    now apply Hm.
  - intros z Lx Ly. rewrite EA2 in Lx. rewrite EB2 in Ly.
    rewrite last_error_app_nonempty in Lx by exact NA'.
    destruct after_a as [|a1 aa].
    + rewrite app_nil_r in *.
      rewrite last_error_app_nonempty by exact Nm. now apply Lm.
    + rewrite app_assoc, last_error_app_cons.
      now rewrite last_error_app_cons in Ly.
Qed.

(** ** The stack of pending runs *)

Lemma nth_two_split (runs : list (list A)) :
  forall i, S i < List.length runs ->
    runs = firstn i runs ++ nth i runs [] :: nth (S i) runs []
             :: skipn (S (S i)) runs.
Proof.
  induction runs as [|r runs IH]; intros i H; [cbn in H; lia|].
  destruct i as [|i].
  - destruct runs as [|r' runs]; [cbn in H; lia|reflexivity].
  - cbn [firstn app nth skipn]. f_equal. apply IH. cbn in H. lia.
Qed.

(** A merge takes one run off the stack and keeps the elements. *)
Lemma MergeAt_spec (runs : list (list A)) (i mg : nat)
    (runs' : list (list A)) (g : nat) :
  runs_ok cmp runs -> S i < List.length runs ->
  MergeAt A cmp runs i mg = (runs', g) ->
  runs_ok cmp runs'
  /\ Permutation (List.concat runs') (List.concat runs)
  /\ S (List.length runs') = List.length runs.
Proof.
  intros OK H M. unfold MergeAt in M.
  pose proof (nth_two_split runs i H) as E.
  set (rA := nth i runs []) in *. set (rB := nth (S i) runs []) in *.
  set (pre := firstn i runs) in *. set (post := skipn (S (S i)) runs) in *.
  assert (OK' : runs_ok cmp (pre ++ rA :: rB :: post))
    by (rewrite <- E; exact OK).
  apply Forall_app in OK' as [O1 O2].
  apply Forall_cons_iff in O2 as [OA O2].
  apply Forall_cons_iff in O2 as [OB O2].
  destruct (merge_runs A cmp rA rB mg) as [m g0] eqn:R.
  injection M as <- <-.
  destruct (merge_runs_spec rA rB mg m g0 OA OB R) as [Sm Pm].
  split; [|split].
  - apply Forall_app. split; [exact O1|]. now constructor.
  - rewrite E, !concat_app. cbn [List.concat].
    rewrite Pm. rewrite <- app_assoc. reflexivity.
  - rewrite E, !length_app. cbn [List.length]. lia.
Qed.

Lemma MergeCollapse_spec :
  forall fuel runs mg runs' g,
    runs_ok cmp runs ->
    MergeCollapse A cmp fuel runs mg = (runs', g) ->
    runs_ok cmp runs' /\ Permutation (List.concat runs') (List.concat runs).
Proof.
  induction fuel as [|fuel IH]; intros runs mg runs' g OK M;
    cbn [MergeCollapse] in M.
  { injection M as <- <-. split; [exact OK|reflexivity]. }
  destruct (1 <? List.length runs) eqn:C;
    [|injection M as <- <-; split; [exact OK|reflexivity]].
  apply Nat.ltb_lt in C. cbv zeta in M.
  assert (Step : forall i, i <= List.length runs - 2 ->
            (let '(runs0, g0) := MergeAt A cmp runs i mg in
             MergeCollapse A cmp fuel runs0 g0) = (runs', g) ->
            runs_ok cmp runs' /\ Permutation (List.concat runs') (List.concat runs)).
  { intros i Hi H.
    destruct (MergeAt A cmp runs i mg) as [runs0 g0] eqn:R.
    destruct (MergeAt_spec runs i mg runs0 g0 OK) as (O0 & P0 & _);
      [lia|exact R|].
    destruct (IH runs0 g0 runs' g O0 H) as [O1 P1].
    split; [exact O1|]. now rewrite P1. }
  destruct (negb (RunInvariantEstablished A runs (List.length runs - 2 + 1))
            || negb (RunInvariantEstablished A runs (List.length runs - 2))).
  - destruct (run_length A runs (List.length runs - 2 - 1)
              <? run_length A runs (List.length runs - 2 + 1));
      (eapply Step; [|exact M]); lia.
  - destruct (run_length A runs (List.length runs - 2)
              <=? run_length A runs (List.length runs - 2 + 1)).
    + (eapply Step; [|exact M]); lia.
    + injection M as <- <-. split; [exact OK|reflexivity].
Qed.

Lemma MergeForceCollapse_spec :
  forall fuel runs mg runs' g,
    runs_ok cmp runs -> List.length runs <= fuel ->
    MergeForceCollapse A cmp fuel runs mg = (runs', g) ->
    runs_ok cmp runs' /\ Permutation (List.concat runs') (List.concat runs)
    /\ List.length runs' <= 1.
Proof.
  induction fuel as [|fuel IH]; intros runs mg runs' g OK F M;
    cbn [MergeForceCollapse] in M.
  { injection M as <- <-. split; [exact OK|]. split; [reflexivity|lia]. }
  destruct (1 <? List.length runs) eqn:C.
  2:{ apply Nat.ltb_ge in C. injection M as <- <-.
      split; [exact OK|]. split; [reflexivity|exact C]. }
  apply Nat.ltb_lt in C. cbv zeta in M.
  set (i := if (0 <? List.length runs - 2)
               && (run_length A runs (List.length runs - 2 - 1)
                   <? run_length A runs (List.length runs - 2 + 1))
            then List.length runs - 2 - 1 else List.length runs - 2) in *.
  assert (Hi : i <= List.length runs - 2) by (unfold i; destruct (_ && _); lia).
  destruct (MergeAt A cmp runs i mg) as [runs0 g0] eqn:R.
  destruct (MergeAt_spec runs i mg runs0 g0 OK) as (O0 & P0 & L0);
    [lia|exact R|].
  destruct (IH runs0 g0 runs' g O0) as (O1 & P1 & L1); [lia|exact M|].
  split; [exact O1|]. split; [now rewrite P1|exact L1].
Qed.

(** ** The sort *)

(** The main loop: every run pushed is a run, short ones after their
    binary insertion too, and the runs pending hold the elements read so
    far. *)
Lemma runs_loop_spec :
  forall fuel minrun remaining runs mg runs' g,
    runs_ok cmp runs -> List.length remaining < fuel ->
    runs_loop A cmp fuel minrun remaining runs mg = (runs', g) ->
    runs_ok cmp runs'
    /\ Permutation (List.concat runs') (List.concat runs ++ remaining).
Proof.
  induction fuel as [|fuel IH]; intros minrun remaining runs mg runs' g OK F M;
    [lia|].
  cbn [runs_loop] in M.
  destruct remaining as [|x remaining0] eqn:Er.
  { injection M as <- <-. split; [exact OK|now rewrite app_nil_r]. }
  rewrite <- Er in *.
  assert (Nr : remaining <> []) by (rewrite Er; discriminate).
  pose proof (CountAndMakeRun_spec remaining) as HC.
  destruct (CountAndMakeRun A cmp remaining) as [run rest].
  destruct HC as (Pc & Sc & Nc & Lc). specialize (Nc Nr).
  assert (Lrun : 1 <= List.length run) by (destruct run; [congruence|cbn; lia]).
  assert (Lrem : 1 <= List.length remaining)
    by (destruct remaining; [congruence|cbn; lia]).
  set (n := Nat.min minrun (List.length remaining) - List.length run) in *.
  assert (HB : forall run1 rest1,
             (if List.length run <? minrun
              then (BinaryInsertionSort A cmp run (firstn n rest),
                    skipn n rest)
              else (run, rest)) = (run1, rest1) ->
             Sorted (may_follow cmp) run1
             /\ Permutation (run1 ++ rest1) remaining
             /\ List.length rest1 < List.length remaining).
  { intros run1 rest1 H. destruct (List.length run <? minrun).
    - injection H as <- <-.
      destruct (BinaryInsertionSort_spec (firstn n rest) run Sc) as [S1 P1].
      split; [exact S1|]. split.
      + rewrite P1, <- app_assoc, firstn_skipn. exact Pc.
      + rewrite length_skipn. lia.
    - injection H as <- <-. split; [exact Sc|]. split; [exact Pc|lia]. }
  destruct (if List.length run <? minrun
            then (BinaryInsertionSort A cmp run (firstn n rest),
                  skipn n rest)
            else (run, rest)) as [run1 rest1].
  destruct (HB run1 rest1 eq_refl) as (S1 & P1 & L1).
  destruct (MergeCollapse A cmp (S (List.length runs)) (runs ++ [run1]) mg)
    as [runs0 g0] eqn:R.
  destruct (MergeCollapse_spec _ _ _ _ _
              (proj2 (Forall_app _ _ _) (conj OK (Forall_cons _ S1 (Forall_nil _)))) R)
    as [O0 P0].
  destruct (IH minrun rest1 runs0 g0 runs' g O0) as [O2 P2]; [lia|exact M|].
  split; [exact O2|].
  rewrite P2, P0, concat_app. cbn [List.concat]. rewrite app_nil_r, <- app_assoc.
  now rewrite P1.
Qed.

(** The sort returns a permutation of its input in which every element
    may follow the one before it. *)
Lemma ArrayTimSortImpl_spec (l : list A) :
  Sorted (may_follow cmp) (ArrayTimSortImpl A cmp l)
  /\ Permutation (ArrayTimSortImpl A cmp l) l.
Proof.
  unfold ArrayTimSortImpl.
  destruct (List.length l <? 2) eqn:C.
  { split; [|reflexivity]. apply Nat.ltb_lt in C.
    destruct l as [|x [|y l]]; [constructor|repeat constructor|cbn in C; lia]. }
  destruct (runs_loop A cmp (S (List.length l)) (ComputeMinRunLength (List.length l))
              l [] kMinGallopWins) as [runs g] eqn:R.
  destruct (runs_loop_spec _ _ _ _ _ _ _ (Forall_nil _) (Nat.lt_succ_diag_r _) R)
    as [O1 P1].
  destruct (MergeForceCollapse A cmp (List.length runs) runs g)
    as [runs' g'] eqn:R'.
  destruct (MergeForceCollapse_spec _ _ _ _ _ O1 (le_n _) R')
    as (O2 & P2 & L2).
  split.
  - destruct runs' as [|r [|r' runs']]; [constructor| |cbn in L2; lia].
    cbn [List.concat]. rewrite app_nil_r. now apply Forall_inv in O2.
  - rewrite P2, P1. reflexivity.
Qed.

Lemma runs_loop_already (fuel minrun : nat) (l : list A) (mg : nat) :
  Sorted (may_follow cmp) l -> l <> [] ->
  runs_loop A cmp (S (S fuel)) minrun l [] mg = ([l], mg).
Proof.
  intros S N. destruct l as [|x l0]; [congruence|].
  cbn [runs_loop]. rewrite (CountAndMakeRun_already (x :: l0) S).
  rewrite firstn_nil, skipn_nil.
  destruct (List.length (x :: l0) <? minrun); reflexivity.
Qed.

(** An input in which every element may follow the one before it is one
    run: nothing is inserted, nothing is merged, and it is returned as it
    is. *)
Lemma ArrayTimSortImpl_already (l : list A) :
  Sorted (may_follow cmp) l -> ArrayTimSortImpl A cmp l = l.
Proof.
  intros S. unfold ArrayTimSortImpl.
  destruct (List.length l <? 2) eqn:C; [reflexivity|].
  apply Nat.ltb_ge in C.
  destruct (List.length l) as [|n] eqn:L; [lia|].
  rewrite runs_loop_already; [|exact S|intros ->; discriminate].
  cbn. apply app_nil_r.
Qed.

(** [array.sort(cmp)]: what the rest of the development uses. *)
Lemma sort_Sorted (l : list A) : Sorted (may_follow cmp) (sort cmp l).
Proof. apply ArrayTimSortImpl_spec. Qed.

Lemma sort_Permutation (l : list A) : Permutation (sort cmp l) l.
Proof. apply ArrayTimSortImpl_spec. Qed.

Lemma In_sort (y : A) (l : list A) : In y (sort cmp l) <-> In y l.
Proof.
  split; apply Permutation_in;
    [apply sort_Permutation|apply Permutation_sym, sort_Permutation].
Qed.

Lemma sort_of_Sorted (l : list A) :
  Sorted (may_follow cmp) l -> sort cmp l = l.
Proof. apply ArrayTimSortImpl_already. Qed.

Lemma sort_sort (l : list A) : sort cmp (sort cmp l) = sort cmp l.
Proof. apply sort_of_Sorted, sort_Sorted. Qed.

End SortFacts.

(** * Properties *)

Open Scope list_scope.

(** ** Code units and strings *)

Ltac each_char c := destruct c as [[] [] [] [] [] [] [] []].

Lemma is_space_toLowerCase (c : ascii) :
  Char.is_space (Char.toLowerCase c) = Char.is_space c.
Proof. each_char c; reflexivity. Qed.

Lemma is_digit_toLowerCase (c : ascii) :
  Char.is_digit (Char.toLowerCase c) = Char.is_digit c.
Proof. each_char c; reflexivity. Qed.

Lemma toLowerCase_not_capital_I (c : ascii) :
  Ascii.eqb (Char.toLowerCase c) "I" = false.
Proof. each_char c; reflexivity. Qed.

Lemma digit_not_space (c : ascii) :
  Char.is_digit c = true -> Char.is_space c = false.
Proof. each_char c; vm_compute; congruence. Qed.

Lemma toLowerCase_empty (s : string) :
  toLowerCase s = "" <-> s = "".
Proof. destruct s; simpl; split; congruence. Qed.

Lemma trim_start_toLowerCase (s : string) :
  trim_start (toLowerCase s) = toLowerCase (trim_start s).
Proof.
  induction s as [|c s IH]; simpl; [reflexivity|].
  rewrite is_space_toLowerCase. now destruct (Char.is_space c).
Qed.

Lemma trim_end_toLowerCase (s : string) :
  trim_end (toLowerCase s) = toLowerCase (trim_end s).
Proof.
  induction s as [|c s IH]; simpl; [reflexivity|].
  rewrite IH, is_space_toLowerCase.
  destruct (trim_end s); simpl; [|reflexivity].
  now destruct (Char.is_space c).
Qed.

Lemma trim_toLowerCase (s : string) :
  trim (toLowerCase s) = toLowerCase (trim s).
Proof. unfold trim. now rewrite trim_start_toLowerCase, trim_end_toLowerCase. Qed.

Lemma all_digits_toLowerCase (s : string) :
  all_digits (toLowerCase s) = all_digits s.
Proof.
  induction s as [|c s IH]; simpl; [reflexivity|].
  now rewrite is_digit_toLowerCase, IH.
Qed.

Lemma toLowerCase_not_Infinity (s : string) :
  String.eqb (toLowerCase s) "Infinity" = false
  /\ String.eqb (toLowerCase s) "+Infinity" = false
  /\ String.eqb (toLowerCase s) "-Infinity" = false.
Proof.
  destruct s as [|c [|d s]]; simpl; repeat split; try reflexivity;
    try (now rewrite toLowerCase_not_capital_I);
    try (destruct (Ascii.eqb (Char.toLowerCase c) _); [|reflexivity]);
    try reflexivity;
    now rewrite toLowerCase_not_capital_I.
Qed.

(** A run that is not a number stays one when it is lowercased: a text
    token never converts to a number. *)
Lemma Number_of_string_toLowerCase (t : string) :
  Number_of_string t = None -> Number_of_string (toLowerCase t) = None.
Proof.
  unfold Number_of_string. rewrite trim_toLowerCase, all_digits_toLowerCase.
  destruct (toLowerCase_not_Infinity (trim t)) as (H1 & H2 & H3).
  rewrite H1, H2, H3.
  destruct (String.eqb (trim t) "") eqn:E; [discriminate|].
  destruct (all_digits (trim t)); [discriminate|].
  intros _.
  destruct (String.eqb (toLowerCase (trim t)) "") eqn:E'; [|reflexivity].
  apply String.eqb_eq in E'. apply (proj1 (toLowerCase_empty _)) in E'.
  rewrite E' in E. discriminate.
Qed.

(** The runs of [match_runs], put end to end, are the string again. *)
Lemma match_runs_concat (s : string) :
  String.concat "" (match_runs s) = s.
Proof.
  induction s as [|c s IH]; [reflexivity|].
  cbn [match_runs].
  destruct (match_runs s) as [|[|d r] rs].
  - now rewrite <- IH.
  - rewrite <- IH. destruct rs; reflexivity.
  - destruct (Bool.eqb (Char.is_digit c) (Char.is_digit d));
      rewrite <- IH; destruct rs; reflexivity.
Qed.

(** No run is empty. *)
Lemma match_runs_nonempty (s : string) :
  Forall (fun r => r <> EmptyString) (match_runs s).
Proof.
  induction s as [|c s IH]; [constructor|].
  cbn [match_runs].
  destruct (match_runs s) as [|[|d r] rs]; try (now repeat constructor).
  - inversion IH; subst. congruence.
  - destruct (Bool.eqb (Char.is_digit c) (Char.is_digit d));
      inversion IH; subst; now repeat constructor.
Qed.

(** ** Numbers *)

Lemma round_pos_positive (p v : Z) :
  0 < p -> round_pos p = Some v -> 0 < v.
Proof.
  intros Hp. unfold round_pos.
  destruct (Z.log2 p - 52 <=? 0) eqn:E; [intros [= <-]; exact Hp|].
  apply Z.leb_gt in E.
  set (e := Z.log2 p - 52) in *.
  assert (He : 0 < 2 ^ e) by (apply Z.pow_pos_nonneg; lia).
  assert (Hq : 0 < p / 2 ^ e).
  { apply Z.div_str_pos. split; [exact He|].
    transitivity (2 ^ Z.log2 p); [apply Z.pow_le_mono_r; lia|].
    apply Z.log2_spec; exact Hp. }
  destruct (2 ^ 1024 <=? _); [discriminate|]. intros [= <-].
  apply Z.mul_pos_pos; [|exact He].
  destruct (_ || _)%bool; lia.
Qed.

Lemma jsnum_sgn_round_double (z : Z) :
  jsnum_sgn (round_double z) = Z.sgn z.
Proof.
  destruct z as [|p|p]; simpl; [reflexivity| |].
  - destruct (round_pos (Z.pos p)) as [v|] eqn:E; simpl; [|reflexivity].
    apply round_pos_positive in E; lia.
  - destruct (round_pos (Z.pos p)) as [v|] eqn:E; simpl; [|reflexivity].
    apply round_pos_positive in E; lia.
Qed.

Lemma jsnum_eqb_true (a b : jsnum) :
  jsnum_eqb a b = true <-> a = b.
Proof.
  destruct a, b; simpl; split; try congruence; try reflexivity.
  - intros H. apply Z.eqb_eq in H. now subst.
  - intros [= ->]. apply Z.eqb_refl.
Qed.

Lemma jsnum_compare_eq (a b : jsnum) :
  jsnum_compare a b = Eq <-> a = b.
Proof.
  destruct a, b; simpl; split; try congruence; try reflexivity.
  - intros H. apply Z.compare_eq in H. now subst.
  - intros [= ->]. apply Z.compare_refl.
Qed.

Lemma jsnum_compare_antisym (a b : jsnum) :
  jsnum_compare a b = CompOpp (jsnum_compare b a).
Proof. destruct a, b; simpl; try reflexivity. apply Z.compare_antisym. Qed.

Lemma jsnum_compare_lt_trans (a b c : jsnum) :
  jsnum_compare a b = Lt -> jsnum_compare b c = Lt -> jsnum_compare a c = Lt.
Proof.
  destruct a, b, c; simpl; try congruence.
  rewrite !Z.compare_lt_iff. lia.
Qed.

Lemma jsnum_ltb_compare (a b : jsnum) :
  jsnum_ltb a b = match jsnum_compare a b with Lt => true | _ => false end.
Proof.
  destruct a, b; reflexivity.
Qed.

(** The sign of [x - y] behind [x !== y] is the order of [x] and [y]. *)
Lemma jsnum_sgn_sub (a b : jsnum) :
  jsnum_eqb a b = false ->
  jsnum_sgn (jsnum_sub a b) = sign_of (jsnum_compare a b).
Proof.
  destruct a, b; simpl; try reflexivity; try discriminate.
  intros _. rewrite jsnum_sgn_round_double.
  destruct (Z.compare_spec z z0); simpl; lia.
Qed.

Lemma string_compare_refl (s : string) : String.compare s s = Eq.
Proof.
  induction s as [|c s IH]; simpl; [reflexivity|].
  unfold Ascii.compare. now rewrite N.compare_refl.
Qed.

Lemma string_compare_eq (s t : string) : String.compare s t = Eq <-> s = t.
Proof.
  split; [apply String.compare_eq_iff|intros ->; apply string_compare_refl].
Qed.

Lemma string_compare_lt_trans (s t u : string) :
  String.compare s t = Lt -> String.compare t u = Lt -> String.compare s u = Lt.
Proof.
  revert t u. induction s as [|a s IH]; intros [|b t] [|c u]; simpl;
    try congruence.
  unfold Ascii.compare.
  destruct (N.compare_spec (N_of_ascii a) (N_of_ascii b)) as [E1|E1|E1];
    destruct (N.compare_spec (N_of_ascii b) (N_of_ascii c)) as [E2|E2|E2];
    try congruence; intros H1 H2.
  - rewrite E1, E2, N.compare_refl. eauto.
  - rewrite E1. now apply N.compare_lt_iff in E2 as ->.
  - rewrite <- E2. now apply N.compare_lt_iff in E1 as ->.
  - assert (E : (N_of_ascii a < N_of_ascii c)%N) by lia.
    now apply N.compare_lt_iff in E as ->.
Qed.

(** ** The comparator, position by position *)

Lemma token_compare_refl (x : token) : token_compare x x = Eq.
Proof.
  destruct x; simpl; [now apply jsnum_compare_eq|apply string_compare_refl].
Qed.

Lemma token_compare_eq (x y : token) : token_compare x y = Eq <-> x = y.
Proof.
  split; [|intros ->; apply token_compare_refl].
  destruct x, y; simpl.
  - intros H. apply jsnum_compare_eq in H. now subst.
  - now destruct (match Number_of_string s with Some _ => _ | None => _ end).
  - now destruct (match Number_of_string s with Some _ => _ | None => _ end).
  - intros H. apply string_compare_eq in H. now subst.
Qed.

Lemma token_compare_lt_gt (x y : token) :
  token_compare x y = Lt -> token_compare y x = Gt.
Proof.
  destruct x as [a|s], y as [b|t]; simpl.
  - rewrite (jsnum_compare_antisym b a). now intros ->.
  - destruct (Number_of_string t) as [n|]; [|discriminate].
    rewrite !jsnum_ltb_compare, (jsnum_compare_antisym n a).
    now destruct (jsnum_compare a n).
  - destruct (Number_of_string s) as [n|]; [|discriminate].
    rewrite !jsnum_ltb_compare, (jsnum_compare_antisym b n).
    now destruct (jsnum_compare n b).
  - rewrite (String.compare_antisym t s). now intros ->.
Qed.

(** What [compare_at] returns has the sign of [token_compare], and the
    loop goes on exactly where the two tokens are equal. *)
Lemma compare_at_sign (x y : token) :
  option_map jsnum_sgn (compare_at x y)
  = match token_compare x y with
    | Eq => None
    | c => Some (sign_of c)
    end.
Proof.
  destruct x as [a|s], y as [b|t]; simpl.
  - destruct (jsnum_eqb a b) eqn:E; simpl.
    + apply jsnum_eqb_true in E. subst. now rewrite (proj2 (jsnum_compare_eq b b)).
    + rewrite (jsnum_sgn_sub _ _ E).
      destruct (jsnum_compare a b) eqn:C; try reflexivity.
      apply jsnum_compare_eq in C. subst.
      now rewrite (proj2 (jsnum_eqb_true b b)) in E.
  - now destruct (match Number_of_string t with Some _ => _ | None => _ end).
  - now destruct (match Number_of_string s with Some _ => _ | None => _ end).
  - destruct (String.eqb_spec s t) as [->|N]; simpl.
    + now rewrite string_compare_refl.
    + unfold String.ltb. destruct (String.compare s t) eqn:C; try reflexivity.
      now apply String.compare_eq_iff in C.
Qed.

Lemma compare_tokens_sign (xs ys : list token) :
  jsnum_sgn (compare_tokens xs ys) = sign_of (lex_compare xs ys).
Proof.
  revert ys. induction xs as [|x xs IH]; intros [|y ys]; simpl; try reflexivity.
  pose proof (compare_at_sign x y) as H.
  destruct (compare_at x y) as [r|]; simpl in H.
  - destruct (token_compare x y); now inversion H.
  - destruct (token_compare x y); try discriminate. apply IH.
Qed.

Lemma lex_compare_refl (xs : list token) : lex_compare xs xs = Eq.
Proof.
  induction xs as [|x xs IH]; simpl; [reflexivity|].
  now rewrite token_compare_refl.
Qed.

Lemma lex_compare_lt_gt (xs ys : list token) :
  lex_compare xs ys = Lt -> lex_compare ys xs = Gt.
Proof.
  revert ys. induction xs as [|x xs IH]; intros [|y ys]; simpl;
    try congruence.
  destruct (token_compare x y) eqn:C; try discriminate.
  - apply token_compare_eq in C. subst. rewrite token_compare_refl. apply IH.
  - intros _. now rewrite (token_compare_lt_gt _ _ C).
Qed.

Lemma compare_at_same (x : token) : compare_at x x = None.
Proof.
  destruct x as [a|s]; simpl.
  - now rewrite (proj2 (jsnum_eqb_true a a)).
  - now rewrite String.eqb_refl.
Qed.

Lemma compare_tokens_same (ts : list token) : compare_tokens ts ts = Fin 0.
Proof.
  induction ts as [|x ts IH]; simpl; [reflexivity|].
  now rewrite compare_at_same.
Qed.

Lemma compare_tokens_prefix (ts : list token) (t : token) (rest : list token) :
  compare_tokens ts (ts ++ t :: rest) = Fin (-1)
  /\ compare_tokens (ts ++ t :: rest) ts = Fin 1.
Proof.
  induction ts as [|x ts IH]; simpl; [split; reflexivity|].
  now rewrite compare_at_same.
Qed.

(** ** C2: positions that are not number against number *)

(** C2: the comparator at [1.pdf] against [a.pdf].  At the first position
    a number meets a text token.  As text, "1" sorts before "a": the
    three-way result of the text comparison is -1 for [1.pdf] against
    [a.pdf] and 1 the other way round.  The comparator returns 1 both ways:
    [x < y] turns the text into NaN and is false. *)
Lemma number_against_text_not_compared_as_text :
  let r1 := mkRecord "/w/docs/1.pdf" [TNum (Fin 1); TStr ".pdf"] in
  let ra := mkRecord "/w/docs/a.pdf" [TStr "a.pdf"] in
  make_records ["/w/docs/1.pdf"; "/w/docs/a.pdf"] = inr [r1; ra]
  /\ spec_compare_as_text (TNum (Fin 1)) (TStr "a.pdf") = -1
  /\ spec_compare_as_text (TStr "a.pdf") (TNum (Fin 1)) = 1
  /\ compare_at (TNum (Fin 1)) (TStr "a.pdf") = Some (Fin 1)
  /\ compare_at (TStr "a.pdf") (TNum (Fin 1)) = Some (Fin 1)
  /\ comparator r1 ra = Fin 1
  /\ comparator ra r1 = Fin 1.
Proof. repeat split. Qed.

(** ** C4: equal sequences, prefixes, empty sequences *)

(** C4: two records with equal token sequences compare 0; when the tokens
    of one are a strict prefix of the other's (the empty sequence
    included) the comparator returns -1 with the shorter first and 1 with
    the shorter second; two empty sequences compare 0. *)
Theorem comparator_equal_prefix_empty (a b : FileRecord) :
  (tokens a = tokens b -> comparator a b = Fin 0)
  /\ (forall t rest, tokens b = tokens a ++ t :: rest ->
        comparator a b = Fin (-1) /\ comparator b a = Fin 1)
  /\ (tokens a = [] -> tokens b <> [] ->
        comparator a b = Fin (-1) /\ comparator b a = Fin 1)
  /\ (tokens a = [] -> tokens b = [] -> comparator a b = Fin 0).
Proof.
  unfold comparator. repeat split.
  - intros ->. apply compare_tokens_same.
  - rewrite H. apply compare_tokens_prefix.
  - rewrite H. apply compare_tokens_prefix.
  - rewrite H. now destruct (tokens b).
  - rewrite H. now destruct (tokens b).
  - intros -> ->. reflexivity.
Qed.

Lemma comparator_equal_prefix_empty_witness :
  let a := mkRecord "/w/docs/a" [TStr "a"] in
  let b := mkRecord "/w/docs/a1" [TStr "a"; TNum (Fin 1)] in
  tokens b = tokens a ++ [TNum (Fin 1)]
  /\ comparator a b = Fin (-1) /\ comparator b a = Fin 1.
Proof.
  intros a b. split; [reflexivity|].
  exact (proj1 (proj2 (comparator_equal_prefix_empty a b))
           (TNum (Fin 1)) [] eq_refl).
Defined.

(** ** C3: the order the comparator defines *)

Lemma sorts_le_lex (a b : FileRecord) :
  sorts_le a b <-> lex_compare (tokens a) (tokens b) <> Gt.
Proof.
  unfold sorts_le, comparator. rewrite compare_tokens_sign.
  destruct (lex_compare (tokens a) (tokens b)); simpl; split;
    try congruence; try lia.
Qed.

Lemma token_compare_antisym (x y : token) :
  is_number x = is_number y ->
  token_compare x y = CompOpp (token_compare y x).
Proof.
  destruct x, y; simpl; try discriminate; intros _.
  - apply jsnum_compare_antisym.
  - apply String.compare_antisym.
Qed.

Lemma token_compare_lt_trans (x y z : token) :
  is_number x = is_number y -> is_number y = is_number z ->
  token_compare x y = Lt -> token_compare y z = Lt -> token_compare x z = Lt.
Proof.
  destruct x, y, z; simpl; try discriminate; intros _ _.
  - apply jsnum_compare_lt_trans.
  - apply string_compare_lt_trans.
Qed.

Lemma lex_compare_trans (xs ys zs : list token) :
  same_kinds xs ys = true -> same_kinds ys zs = true ->
  same_kinds xs zs = true ->
  lex_compare xs ys <> Gt -> lex_compare ys zs <> Gt ->
  lex_compare xs zs <> Gt.
Proof.
  revert ys zs.
  induction xs as [|x xs IH]; intros [|y ys] [|z zs]; simpl;
    try congruence.
  rewrite !andb_true_iff, !eqb_true_iff.
  intros [Kxy Sxy] [Kyz Syz] [Kxz Sxz].
  destruct (token_compare x y) eqn:Cxy; try congruence;
    destruct (token_compare y z) eqn:Cyz; try congruence; intros H1 H2.
  - apply token_compare_eq in Cxy, Cyz. subst.
    rewrite token_compare_refl. now apply (IH ys zs).
  - apply token_compare_eq in Cxy. subst. now rewrite Cyz.
  - apply token_compare_eq in Cyz. subst. now rewrite Cxy.
  - now rewrite (token_compare_lt_trans x y z Kxy Kyz Cxy Cyz).
Qed.

Lemma lex_compare_total (xs ys : list token) :
  same_kinds xs ys = true ->
  lex_compare xs ys <> Gt \/ lex_compare ys xs <> Gt.
Proof.
  revert ys. induction xs as [|x xs IH]; intros [|y ys]; simpl;
    try (intros _; (left; congruence) || (right; congruence)).
  rewrite andb_true_iff, eqb_true_iff. intros [K S].
  rewrite (token_compare_antisym y x (eq_sym K)).
  destruct (token_compare x y) eqn:C; simpl.
  - now apply IH.
  - left; congruence.
  - right; congruence.
Qed.

Lemma perm3_cases {A : Type} (a b c : A) (l : list A) :
  Permutation l [a; b; c] ->
  l = [a; b; c] \/ l = [a; c; b] \/ l = [b; a; c]
  \/ l = [b; c; a] \/ l = [c; a; b] \/ l = [c; b; a].
Proof.
  intros P.
  destruct (Permutation_vs_cons_inv P) as (l1 & l2 & ->).
  apply Permutation_sym, Permutation_cons_app_inv,
    Permutation_length_2_inv in P.
  destruct l1 as [|x [|y [|z l1]]]; simpl in *;
    destruct P as [P|P]; inversion P; subst; auto 10;
    try (destruct l1; discriminate).
Qed.

(** C3: the comparator at [1.pdf] and [a.pdf].  The two records meet a
    number and a text token at the first position and the comparator
    returns 1 in both directions: neither record sorts before or with the
    other, so the order of the comparator is not total. *)
Lemma natural_sort_not_total_preorder :
  let r1 := mkRecord "/w/docs/1.pdf" [TNum (Fin 1); TStr ".pdf"] in
  let ra := mkRecord "/w/docs/a.pdf" [TStr "a.pdf"] in
  make_records ["/w/docs/1.pdf"; "/w/docs/a.pdf"] = inr [r1; ra]
  /\ comparator r1 ra = Fin 1
  /\ comparator ra r1 = Fin 1
  /\ ~ sorts_le r1 ra
  /\ ~ sorts_le ra r1
  /\ ~ total_preorder sorts_le.
Proof.
  intros r1 ra.
  assert (N1 : ~ sorts_le r1 ra) by (intros H; vm_compute in H; now apply H).
  assert (N2 : ~ sorts_le ra r1) by (intros H; vm_compute in H; now apply H).
  repeat split; try reflexivity; try assumption.
  intros (_ & _ & T). destruct (T r1 ra) as [H|H]; contradiction.
Qed.

(** ** Sorting *)

Lemma comparator_before_asym (x y : FileRecord) :
  before comparator x y = true -> before comparator y x = false.
Proof.
  unfold before, comparator. rewrite !compare_tokens_sign.
  destruct (lex_compare (tokens x) (tokens y)) eqn:C; simpl; try discriminate.
  intros _. now rewrite (lex_compare_lt_gt _ _ C).
Qed.

(** ** C5: sorting twice *)

(** C5: sorting is idempotent: for every sequence of records, sorting the
    sorted sequence again gives the same sequence. *)
Theorem sort_records_idempotent (l : list FileRecord) :
  sort_records (sort_records l) = sort_records l.
Proof. apply sort_sort, comparator_before_asym. Qed.

(** ** C9: leading zeros *)

Lemma all_digits_trim_end (s : string) :
  all_digits s = true -> trim_end s = s.
Proof.
  induction s as [|c s IH]; simpl; [reflexivity|].
  rewrite andb_true_iff. intros [D H]. rewrite (IH H).
  destruct s; [|reflexivity]. now rewrite (digit_not_space _ D).
Qed.

Lemma all_digits_trim (s : string) : all_digits s = true -> trim s = s.
Proof.
  intros H. unfold trim.
  assert (E : trim_start s = s).
  { destruct s as [|c s]; simpl in *; [reflexivity|].
    apply andb_true_iff in H as [D _]. now rewrite (digit_not_space _ D). }
  rewrite E. now apply all_digits_trim_end.
Qed.

(** [Number(t)] on a run of digits is its decimal value, rounded. *)
Lemma Number_of_digits (s : string) :
  all_digits s = true ->
  Number_of_string s = Some (round_double (decimal_value 0 s)).
Proof.
  intros H. unfold Number_of_string. rewrite (all_digits_trim _ H), H.
  now destruct s.
Qed.

Lemma decimal_value_drop_zeros (s : string) :
  decimal_value 0 (drop_zeros s) = decimal_value 0 s.
Proof.
  induction s as [|c s IH]; simpl; [reflexivity|].
  destruct (Ascii.eqb_spec c "0") as [->|N]; [exact IH|reflexivity].
Qed.

Lemma token_of_run_up_to_zeros (r1 r2 : string) :
  same_run_up_to_zeros r1 r2 -> token_of_run r1 = token_of_run r2.
Proof.
  intros [->|(D1 & D2 & E)]; [reflexivity|].
  unfold token_of_run.
  rewrite (Number_of_digits _ D1), (Number_of_digits _ D2).
  now rewrite <- (decimal_value_drop_zeros r1), E, decimal_value_drop_zeros.
Qed.

(** C9: a docs directory that [readdir] lists as a.pdf, 2.pdf, 3.pdf,
    b.pdf, 01.pdf, 0.pdf, 1.pdf.  The names 01.pdf and 1.pdf get the same
    tokens and the comparator returns 0 on them, and 01.pdf comes first in
    the traversal; but the index lists a.pdf, 0.pdf, 1.pdf, 2.pdf, 3.pdf,
    b.pdf, 01.pdf: 1.pdf before 01.pdf.  The names a.pdf and b.pdf meet a
    number at the first position of the others, where the comparator
    returns 1 both ways, and the sort, which may rely on a consistent
    comparator, does not keep the order of the two equal records. *)
Lemma leading_zeros_order_not_kept :
  let root := Dir [("a.pdf", File); ("2.pdf", File); ("3.pdf", File);
                   ("b.pdf", File); ("01.pdf", File); ("0.pdf", File);
                   ("1.pdf", File)] in
  let w := mkWorld "/w" (Some root) None in
  snd (walkForPdfs "/w/docs" root)
  = inr ["/w/docs/a.pdf"; "/w/docs/2.pdf"; "/w/docs/3.pdf"; "/w/docs/b.pdf";
         "/w/docs/01.pdf"; "/w/docs/0.pdf"; "/w/docs/1.pdf"]
  /\ tokenize "/w/docs/01.pdf" = inr [TNum (Fin 1); TStr ".pdf"]
  /\ tokenize "/w/docs/1.pdf" = inr [TNum (Fin 1); TStr ".pdf"]
  /\ comparator (mkRecord "/w/docs/01.pdf" [TNum (Fin 1); TStr ".pdf"])
                (mkRecord "/w/docs/1.pdf" [TNum (Fin 1); TStr ".pdf"]) = Fin 0
  /\ comparator (mkRecord "/w/docs/1.pdf" [TNum (Fin 1); TStr ".pdf"])
                (mkRecord "/w/docs/01.pdf" [TNum (Fin 1); TStr ".pdf"]) = Fin 0
  /\ snd (main w) = 0
  /\ files_written (fst (main w))
     = [("docs/index.html",
         html_document
           (arr_join newline
              (map (fun n => (" " ++ plain_entry n)%string)
                   ["a.pdf"; "0.pdf"; "1.pdf"; "2.pdf"; "3.pdf"; "b.pdf";
                    "01.pdf"])))].
Proof. vm_compute. repeat split. Qed.

(** ** C1: what the walker returns *)

Lemma snd_bind {A B : Type} (m : io A) (k : A -> io B) :
  snd (bind m k)
  = match snd m with
    | inl e => inl e
    | inr a => snd (k a)
    end.
Proof. destruct m as [t [e|a]]; simpl; [reflexivity|]. now destruct (k a). Qed.

Lemma fst_bind {A B : Type} (m : io A) (k : A -> io B) :
  fst (bind m k)
  = match snd m with
    | inl e => fst m
    | inr a => fst m ++ fst (k a)
    end.
Proof. destruct m as [t [e|a]]; simpl; [reflexivity|]. now destruct (k a). Qed.

Lemma walkForPdfs_Dir (dir : string) (es : list (string * node)) :
  walkForPdfs dir (Dir es)
  = (emit (Readdir dir) ;; for_entries walkForPdfs dir es).
Proof. reflexivity. Qed.

Lemma entries_under_Dir (dir : string) (es : list (string * node)) :
  entries_under dir (Dir es) = entries_of dir es.
Proof.
  induction es as [|[nm e] es IH]; simpl; [reflexivity|].
  simpl in IH. now rewrite IH.
Qed.

Lemma readable_Dir (es : list (string * node)) :
  readable (Dir es) = forallb (fun e => readable (snd e)) es.
Proof.
  induction es as [|[nm e] es IH]; simpl; [reflexivity|].
  simpl in IH. now rewrite IH.
Qed.

Lemma entries_under_not_Dir (dir : string) (n : node) :
  (forall es, n <> Dir es) -> entries_under dir n = [].
Proof. destruct n; try reflexivity. intros H. now destruct (H entries). Qed.

(** With every directory readable, the walk of a directory returns. *)
Lemma walkForPdfs_returns (n : node) :
  forall dir, isDirectory n = true -> readable n = true ->
              exists l, snd (walkForPdfs dir n) = inr l.
Proof.
  induction n as [| | |es IH] using node_induction; intros dir D R;
    try discriminate.
  rewrite walkForPdfs_Dir, snd_bind. rewrite readable_Dir in R. clear D.
  cbn [emit snd].
  induction es as [|[nm e] es IHes]; [now exists []|].
  cbn [forallb snd] in R. apply andb_true_iff in R as [Re Res].
  inversion IH as [|? ? He Hes]; subst.
  destruct (IHes Hes Res) as (rest & Er).
  cbn [for_entries]. destruct (isDirectory e) eqn:D.
  - destruct (He (Path.join dir nm) D Re) as (sub & E). cbn [snd] in E.
    rewrite snd_bind, E, snd_bind, Er. cbn. eauto.
  - destruct (matches nm e); [|eauto].
    rewrite snd_bind, Er. cbn. eauto.
Qed.

Lemma matches_true (nm : string) (e : node) :
  matches nm e = true
  <-> (isFile e = true /\ endsWith nm ".pdf" = true)
      \/ endsWith nm "jpg" = true.
Proof. unfold matches. now rewrite orb_true_iff, andb_true_iff. Qed.

(** What the walk returns, as a set. *)
Lemma walkForPdfs_result (n : node) :
  forall dir l, snd (walkForPdfs dir n) = inr l ->
                forall p, In p l <-> walk_result dir n p.
Proof.
  induction n as [| | |es IH] using node_induction; intros dir l W;
    try discriminate.
  rewrite walkForPdfs_Dir, snd_bind in W. cbn [emit snd] in W.
  unfold walk_result. setoid_rewrite entries_under_Dir.
  revert l W.
  induction es as [|[nm e] es IHes]; intros l W p.
  - injection W as <-. simpl. split; [tauto|]. now intros (? & ? & [] & _).
  - inversion IH as [|? ? He Hes]; subst. specialize (IHes Hes).
    cbn [snd] in He. cbn [for_entries] in W. cbn [entries_of].
    destruct (isDirectory e) eqn:D.
    + rewrite snd_bind in W.
      destruct (snd (walkForPdfs (Path.join dir nm) e)) as [|sub] eqn:Ws;
        [discriminate|].
      rewrite snd_bind in W.
      destruct (snd (for_entries walkForPdfs dir es)) as [|rest] eqn:Wr; [discriminate|].
      cbn in W. injection W as <-.
      rewrite in_app_iff, (He _ _ Ws p), (IHes _ eq_refl p).
      unfold walk_result. split.
      * intros [(n' & e' & I & H)|(n' & e' & I & H)]; exists n', e';
          (split; [|exact H]); right; apply in_app_iff; tauto.
      * intros (n' & e' & [I|I] & Dn & M).
        -- injection I as <- <- <-. congruence.
        -- apply in_app_iff in I as [I|I]; [left|right]; eauto.
    + assert (E : entries_under (Path.join dir nm) e = [])
        by (apply entries_under_not_Dir; intros es' ->; discriminate).
      rewrite E. cbn [app].
      destruct (matches nm e) eqn:M.
      * rewrite snd_bind in W.
        destruct (snd (for_entries walkForPdfs dir es)) as [|rest] eqn:Wr; [discriminate|].
        cbn in W. injection W as <-. cbn [In].
        rewrite (IHes _ eq_refl p). split.
        -- intros [<-|(n' & e' & I & H)];
             [exists nm, e; apply matches_true in M; auto|].
           exists n', e'. auto.
        -- intros (n' & e' & [I|I] & H); [injection I as <- <- <-; now left|].
           right. eauto.
      * rewrite (IHes _ W p). cbn [In]. split.
        -- intros (n' & e' & I & H). exists n', e'. auto.
        -- intros (n' & e' & [I|I] & Dn & M'); [|eauto].
           injection I as <- <- <-. apply matches_true in M'. congruence.
Qed.

(** C1, as stated, fails: a directory whose name ends with jpg is walked
    into and not listed, so it is in the set of the claim and not in the
    result. *)
Lemma walker_does_not_list_directories :
  snd (walkForPdfs "/w/docs" (Dir [("scans.jpg", Dir [])])) = inr []
  /\ spec_result "/w/docs" (Dir [("scans.jpg", Dir [])]) "/w/docs/scans.jpg"
  /\ ~ (forall root l,
          snd (walkForPdfs "/w/docs" root) = inr l ->
          forall p, In p l <-> spec_result "/w/docs" root p).
Proof.
  assert (S : spec_result "/w/docs" (Dir [("scans.jpg", Dir [])])
                "/w/docs/scans.jpg").
  { exists "scans.jpg", (Dir []). split; [now left|now right]. }
  repeat split; [exact S|].
  intros H. now apply (H (Dir [("scans.jpg", Dir [])]) [] eq_refl) in S.
Qed.

(** C1, amended: for every tree under the docs directory whose directories
    can all be read, the walker returns, and its result set is the set of
    the entries anywhere under the root that are not directories and are
    either regular files whose name ends with .pdf or entries of any other
    type (regular or not) whose name ends with jpg; directories are walked
    into and never listed. *)
Theorem walkForPdfs_result_set
    (dir : string) (es : list (string * node))
    (R : readable (Dir es) = true) :
  exists l,
    snd (walkForPdfs dir (Dir es)) = inr l
    /\ forall p, In p l <-> walk_result dir (Dir es) p.
Proof.
  destruct (walkForPdfs_returns (Dir es) dir eq_refl R) as (l & W).
  exists l. split; [exact W|]. now apply walkForPdfs_result.
Qed.

Lemma walkForPdfs_result_set_witness :
  let es := [("a.pdf", File); ("cover.jpg", Other); ("scans.jpg", Dir []);
             ("notes.txt", File); ("sub", Dir [("b.pdf", File)])] in
  readable (Dir es) = true
  /\ exists l,
       snd (walkForPdfs "/w/docs" (Dir es)) = inr l
       /\ forall p, In p l <-> walk_result "/w/docs" (Dir es) p.
Proof.
  intros es. split; [reflexivity|].
  exact (walkForPdfs_result_set "/w/docs" es eq_refl).
Defined.

(** ** The entry point *)

Lemma for_entries_events (walk : string -> node -> io (list string))
    (dir : string) (es : list (string * node)) :
  Forall (fun e => forall d, Forall is_Readdir (fst (walk d (snd e)))) es ->
  Forall is_Readdir (fst (for_entries walk dir es)).
Proof.
  induction es as [|[nm e] es IH]; intros H; [constructor|].
  inversion H as [|? ? He Hes]; subst. specialize (IH Hes).
  cbn [for_entries]. destruct (isDirectory e).
  - rewrite fst_bind. specialize (He (Path.join dir nm)). cbn [snd] in He.
    destruct (snd (walk (Path.join dir nm) e)); [exact He|].
    apply Forall_app. split; [exact He|].
    rewrite fst_bind. destruct (snd (for_entries walk dir es)); [exact IH|].
    apply Forall_app. split; [exact IH|constructor].
  - destruct (matches nm e); [|exact IH].
    rewrite fst_bind. destruct (snd (for_entries walk dir es)); [exact IH|].
    apply Forall_app. split; [exact IH|constructor].
Qed.

(** The walker reads directories and does nothing else to the world. *)
Lemma walkForPdfs_events (n : node) :
  forall dir, Forall is_Readdir (fst (walkForPdfs dir n)).
Proof.
  induction n as [| | |es IH] using node_induction; intros dir;
    try (repeat constructor).
  rewrite walkForPdfs_Dir, fst_bind. cbn [emit fst snd].
  constructor; [exact I|]. now apply for_entries_events.
Qed.

Lemma only_Readdir (t : list event) :
  Forall is_Readdir t ->
  printed_to_stderr t = [] /\ printed_to_stdout t = [] /\ files_written t = [].
Proof.
  induction 1 as [|ev t H _ (E1 & E2 & E3)]; [now repeat split|].
  destruct ev; try contradiction. now repeat split.
Qed.

(** The [try] block, stage by stage. *)
Lemma index_docs_stages (w : world) (root : node) :
  let d := Path.join (cwd w) "docs" in
  index_docs w root
  = match walkForPdfs d root with
    | (t, inl e) => (t, inl e)
    | (t, inr pdfs) =>
        match make_records pdfs with
        | inl e => (t, inl e)
        | inr objs =>
            match write_failure w with
            | Some e => (t ++ [WriteFailed "docs/index.html"], inl e)
            | None =>
                (t ++ [WriteFile "docs/index.html"
                         (html_document
                            (arr_join newline
                               (map (list_item w)
                                    (map name (sort_records objs)))));
                       ConsoleLog [Str "index.html has been written with";
                                   Num (List.length pdfs); Str "PDF(s)."]],
                 inr (List.length pdfs))
            end
        end
    end.
Proof.
  intros d. unfold index_docs. fold d.
  destruct (walkForPdfs d root) as [t [e|pdfs]]; [reflexivity|].
  cbn [bind]. unfold lift.
  destruct (make_records pdfs) as [e|objs]; cbn [bind]; [now rewrite app_nil_r|].
  unfold generateHtmlIndex, writeFile.
  destruct (write_failure w); cbn; now rewrite ?app_nil_r.
Qed.

Lemma caught_after_reads (d : string) (t : list event) (e : error) :
  Forall is_Readdir t ->
  caught ((Stat d :: t) ++ [ConsoleError [Str "Failed:"; Err e]; Exit 1], 1) e.
Proof.
  intros H. destruct (only_Readdir t H) as (E1 & E2 & E3).
  unfold caught, printed_to_stderr, printed_to_stdout, files_written in *.
  cbn [fst snd]. rewrite !flat_map_app. cbn [flat_map app].
  rewrite E1, E2, E3. repeat split.
  replace (Stat d :: t ++ [ConsoleError [Str "Failed:"; Err e]; Exit 1])
    with ((Stat d :: t ++ [ConsoleError [Str "Failed:"; Err e]]) ++ [Exit 1])
    by (simpl; now rewrite <- app_assoc).
  apply last_last.
Qed.

Lemma caught_after_failed_write
    (d : string) (t : list event) (path : string) (e : error) :
  Forall is_Readdir t ->
  caught ((Stat d :: t ++ [WriteFailed path])
            ++ [ConsoleError [Str "Failed:"; Err e]; Exit 1], 1) e.
Proof.
  intros H. destruct (only_Readdir t H) as (E1 & E2 & E3).
  unfold caught, printed_to_stderr, printed_to_stdout, files_written in *.
  cbn [fst snd]. rewrite !flat_map_app. cbn [flat_map app].
  rewrite !flat_map_app. cbn [flat_map app].
  rewrite E1, E2, E3. repeat split.
  replace (Stat d :: (t ++ [WriteFailed path])
             ++ [ConsoleError [Str "Failed:"; Err e]; Exit 1])
    with ((Stat d :: t ++ [WriteFailed path;
                           ConsoleError [Str "Failed:"; Err e]]) ++ [Exit 1])
    by (simpl; now rewrite <- !app_assoc).
  apply last_last.
Qed.

Lemma no_failed_write (t : list event) :
  Forall is_Readdir t -> writes_failed t = [].
Proof.
  induction 1 as [|ev t H _ IH]; [reflexivity|].
  destruct ev; try contradiction. exact IH.
Qed.

(** C6: without a docs directory under the working directory, the program
    prints the error message to standard error and ends with exit status 1;
    it reads no directory and writes no file: no write comes to its end and
    none is begun and fails. *)
Theorem main_missing_docs (w : world) (H : docs w = None) :
  snd (main w) = 1
  /\ printed_to_stderr (fst (main w)) = [not_found_message]
  /\ printed_to_stdout (fst (main w)) = []
  /\ directories_read (fst (main w)) = []
  /\ files_written (fst (main w)) = []
  /\ writes_failed (fst (main w)) = []
  /\ last (fst (main w)) (Exit 0) = Exit 1.
Proof. unfold main. rewrite H. now repeat split. Qed.

Lemma main_missing_docs_witness :
  docs (mkWorld "/w" None None) = None
  /\ snd (main (mkWorld "/w" None None)) = 1.
Proof.
  split; [reflexivity|].
  exact (proj1 (main_missing_docs (mkWorld "/w" None None) eq_refl)).
Defined.

(** C7: with the docs directory there, an error raised by the walk, by the
    tokenizing of the paths or by the writing of the index is caught at the
    top level: it is printed to standard error and the exit status is 1;
    with no error, the summary with the number of paths found is printed to
    standard output, the index is written and the exit status is 0. *)
Theorem main_catches_or_succeeds
    (w : world) (root : node) (Hroot : docs w = Some root) :
  let d := Path.join (cwd w) "docs" in
  (forall e, snd (walkForPdfs d root) = inl e -> caught (main w) e)
  /\ (forall pdfs e,
        snd (walkForPdfs d root) = inr pdfs ->
        make_records pdfs = inl e -> caught (main w) e)
  /\ (forall pdfs objs e,
        snd (walkForPdfs d root) = inr pdfs ->
        make_records pdfs = inr objs ->
        write_failure w = Some e -> caught (main w) e)
  /\ (forall pdfs objs,
        snd (walkForPdfs d root) = inr pdfs ->
        make_records pdfs = inr objs ->
        write_failure w = None ->
        snd (main w) = 0
        /\ printed_to_stdout (fst (main w)) = [summary (List.length pdfs)]
        /\ printed_to_stderr (fst (main w)) = []
        /\ files_written (fst (main w))
           = [("docs/index.html",
               html_document
                 (arr_join newline
                    (map (list_item w) (map name (sort_records objs)))))]).
Proof.
  intros d. unfold main. rewrite Hroot, index_docs_stages. fold d.
  pose proof (walkForPdfs_events root d) as R.
  destruct (walkForPdfs d root) as [t r]. cbn [fst snd] in *.
  split; [|split; [|split]].
  - intros e ->. now apply caught_after_reads.
  - intros pdfs e -> ->. now apply caught_after_reads.
  - intros pdfs objs e -> -> ->. now apply caught_after_failed_write.
  - intros pdfs objs -> -> ->. cbn [fst snd].
    destruct (only_Readdir t R) as (E1 & E2 & E3).
    unfold printed_to_stderr, printed_to_stdout, files_written in *.
    cbn [flat_map]. rewrite !flat_map_app, E1, E2, E3.
    now repeat split.
Qed.

Lemma main_catches_or_succeeds_witness :
  let w := mkWorld "/w" (Some (Dir [("a.pdf", File); ("sub", Locked)])) None in
  docs w = Some (Dir [("a.pdf", File); ("sub", Locked)])
  /\ caught (main w) (SystemError "EACCES" "/w/docs/sub").
Proof.
  intros w. split; [reflexivity|].
  exact (proj1 (main_catches_or_succeeds w
                  (Dir [("a.pdf", File); ("sub", Locked)]) eq_refl)
           (SystemError "EACCES" "/w/docs/sub") eq_refl).
Defined.

(** C10: when the docs entry is there and is not a directory, the check
    for it passes and the not-found message is not printed; the walk fails
    on its first read, the error is reported by the top-level catch, and the
    exit status is 1. *)
Theorem main_docs_not_a_directory
    (w : world) (n : node)
    (Hdocs : docs w = Some n) (Hn : isDirectory n = false) :
  let d := Path.join (cwd w) "docs" in
  main w
  = ([Stat d; Readdir d;
      ConsoleError [Str "Failed:"; Err (SystemError "ENOTDIR" d)]; Exit 1], 1)
  /\ ~ In not_found_message (printed_to_stderr (fst (main w)))
  /\ caught (main w) (SystemError "ENOTDIR" d).
Proof.
  intros d.
  assert (E : main w
              = ([Stat d; Readdir d;
                  ConsoleError [Str "Failed:"; Err (SystemError "ENOTDIR" d)];
                  Exit 1], 1)).
  { unfold main. rewrite Hdocs, index_docs_stages. fold d.
    destruct n; try discriminate; reflexivity. }
  rewrite E. split; [reflexivity|]. split.
  - cbn. intros [H|[]]. discriminate.
  - now repeat split.
Qed.

Lemma main_docs_not_a_directory_witness :
  docs (mkWorld "/w" (Some File) None) = Some File
  /\ isDirectory File = false
  /\ caught (main (mkWorld "/w" (Some File) None))
            (SystemError "ENOTDIR" "/w/docs").
Proof.
  split; [reflexivity|]. split; [reflexivity|].
  exact (proj2 (proj2 (main_docs_not_a_directory
                         (mkWorld "/w" (Some File) None) File eq_refl eq_refl))).
Defined.

(** ** C8: the list entries *)

Lemma str_split_not_nil (sep : ascii) (s : string) : str_split sep s <> [].
Proof.
  destruct s as [|c s]; simpl; [discriminate|].
  destruct (Ascii.eqb c sep); [discriminate|].
  destruct (str_split sep s); discriminate.
Qed.

(** Splitting on the slash and joining with the slash gives the string
    back: on POSIX the separators are the forward slashes already. *)
Lemma join_split_slash (s : string) :
  arr_join "/" (str_split Path.sep s) = s.
Proof.
  induction s as [|c s IH]; [reflexivity|].
  cbn [str_split]. pose proof (str_split_not_nil Path.sep s) as N.
  destruct (Ascii.eqb_spec c Path.sep) as [->|_].
  - destruct (str_split Path.sep s) as [|r rs]; [congruence|].
    change (arr_join "/" (EmptyString :: r :: rs))
      with (("" ++ "/" ++ arr_join "/" (r :: rs))%string).
    now rewrite IH.
  - destruct (str_split Path.sep s) as [|r rs]; [congruence|].
    destruct rs as [|r' rs].
    + change (String c r = String c s). f_equal. exact IH.
    + change (String c (arr_join "/" (r :: r' :: rs)) = String c s).
      f_equal. exact IH.
Qed.



(** * Further properties of the code *)

(** ** [endsWith] *)

Lemma substring_all (s : string) : substring 0 (String.length s) s = s.
Proof. induction s as [|c s IH]; simpl; [reflexivity|now rewrite IH]. Qed.

Lemma substring_skip (p s : string) (m : nat) :
  substring (String.length p) m (p ++ s) = substring 0 m s.
Proof. induction p as [|c p IH]; simpl; [reflexivity|exact IH]. Qed.

Lemma length_append (a b : string) :
  String.length (a ++ b) = (String.length a + String.length b)%nat.
Proof. induction a as [|c a IH]; simpl; [reflexivity|now rewrite IH]. Qed.

Lemma substring_split (n : nat) (s : string) :
  (n <= String.length s)%nat ->
  exists p, s = (p ++ substring n (String.length s - n) s)%string
            /\ String.length p = n.
Proof.
  revert s. induction n as [|n IH]; intros s H.
  - exists EmptyString. rewrite Nat.sub_0_r, substring_all. now split.
  - destruct s as [|c s]; simpl in H; [lia|].
    destruct (IH s) as (p & E & L); [lia|].
    exists (String c p). simpl. split; [now rewrite <- E|now rewrite L].
Qed.

(** [endsWith] is true exactly of the strings that are some prefix
    followed by the suffix. *)
Lemma endsWith_iff (s suffix : string) :
  endsWith s suffix = true <-> exists p, s = (p ++ suffix)%string.
Proof.
  unfold endsWith. rewrite andb_true_iff, Nat.leb_le, String.eqb_eq. split.
  - intros [L E].
    destruct (substring_split (String.length s - String.length suffix) s)
      as (p & Es & _); [lia|].
    exists p. rewrite Es at 1. f_equal.
    replace (String.length s - (String.length s - String.length suffix))%nat
      with (String.length suffix) by lia.
    exact E.
  - intros (p & ->). rewrite length_append. split; [lia|].
    replace (String.length p + String.length suffix - String.length suffix)%nat
      with (String.length p) by lia.
    now rewrite substring_skip, substring_all.
Qed.

(** ** The walk *)

(** X1: an entry passes the test of the walk exactly when it is a regular
    file whose name is some text followed by [.pdf], or its name is some
    text followed by [jpg], whatever the entry is: no dot is asked for before
    [jpg], and the bare names [.pdf] and [jpg] pass. *)
Theorem matches_iff (entry_name : string) (entry : node) :
  matches entry_name entry = true
  <-> (entry = File /\ exists p, entry_name = (p ++ ".pdf")%string)
      \/ (exists p, entry_name = (p ++ "jpg")%string).
Proof.
  rewrite matches_true, !endsWith_iff.
  split; (intros [[F P]|J]; [left|right; exact J]); split; try exact P.
  - now destruct entry.
  - now subst.
Qed.

Lemma readable_not_Locked (n : node) :
  isDirectory n = true -> readable n = true -> exists es, n = Dir es.
Proof. destruct n; try discriminate. eauto. Qed.

Lemma filter_cons_if {A : Type} (f : A -> bool) (x : A) (l : list A) :
  filter f (x :: l) = if f x then x :: filter f l else filter f l.
Proof. reflexivity. Qed.

Lemma walkForPdfs_in_order (n : node) :
  forall dir l,
    snd (walkForPdfs dir n) = inr l ->
    l = map entry_path (filter listed (entries_under dir n)).
Proof.
  induction n as [| | |es IH] using node_induction; intros dir l W;
    try discriminate.
  rewrite walkForPdfs_Dir, snd_bind in W. cbn [emit snd] in W.
  rewrite entries_under_Dir. revert l W.
  induction es as [|[nm e] es IHes]; intros l W.
  - now injection W as <-.
  - inversion IH as [|? ? He Hes]; subst. specialize (IHes Hes).
    cbn [snd] in He. cbn [for_entries] in W. cbn [entries_of].
    rewrite filter_cons_if, filter_app. cbn [listed].
    destruct (isDirectory e) eqn:D; cbn [negb andb].
    + rewrite snd_bind in W.
      destruct (snd (walkForPdfs (Path.join dir nm) e)) as [|sub] eqn:Ws;
        [discriminate|].
      rewrite snd_bind in W.
      destruct (snd (for_entries walkForPdfs dir es)) as [|rest] eqn:Wr;
        [discriminate|].
      cbn in W. injection W as <-.
      now rewrite map_app, (He _ _ Ws), (IHes _ eq_refl).
    + assert (E : entries_under (Path.join dir nm) e = [])
        by (apply entries_under_not_Dir; intros es' ->; discriminate).
      rewrite E. cbn [filter app].
      destruct (matches nm e).
      * rewrite snd_bind in W.
        destruct (snd (for_entries walkForPdfs dir es)) as [|rest] eqn:Wr;
          [discriminate|].
        cbn in W. injection W as <-. cbn [map entry_path fst].
        now rewrite (IHes _ eq_refl).
      * now rewrite (IHes _ W).
Qed.

(** X2: the walk returns the paths in the order of the traversal: depth
    first, each directory's entries in [readdir] order, the content of a
    sub-directory at the place of the sub-directory. *)
Theorem walkForPdfs_order
    (n : node) (dir : string) (l : list string)
    (W : snd (walkForPdfs dir n) = inr l) :
  l = map entry_path (filter listed (entries_under dir n)).
Proof. exact (walkForPdfs_in_order n dir l W). Qed.

Lemma walkForPdfs_order_witness :
  let root :=
    Dir [("b.pdf", File); ("sub", Dir [("a.pdf", File)]); ("c.jpg", Other)] in
  let l := ["/w/docs/b.pdf"; "/w/docs/sub/a.pdf"; "/w/docs/c.jpg"] in
  snd (walkForPdfs "/w/docs" root) = inr l
  /\ l = map entry_path (filter listed (entries_under "/w/docs" root)).
Proof.
  intros root l. split; [reflexivity|].
  exact (walkForPdfs_order root "/w/docs" l eq_refl).
Defined.

Lemma for_entries_fails (dir : string) (es : list (string * node)) :
  Forall (fun x => forall d,
            isDirectory (snd x) = true -> readable (snd x) = false ->
            exists p,
              snd (walkForPdfs d (snd x)) = inl (SystemError "EACCES" p)
              /\ ((p = d /\ snd x = Locked)
                  \/ exists nm, In (p, nm, Locked) (entries_under d (snd x)))) es ->
  forallb (fun x => readable (snd x)) es = false ->
  exists p,
    snd (for_entries walkForPdfs dir es) = inl (SystemError "EACCES" p)
    /\ exists nm, In (p, nm, Locked) (entries_of dir es).
Proof.
  induction es as [|[nm e] es IHes]; intros IH R; [discriminate|].
  inversion IH as [|? ? He Hes]; subst. specialize (IHes Hes).
  cbn [snd] in He. cbn [forallb snd] in R. cbn [for_entries entries_of].
  assert (Later : forallb (fun x => readable (snd x)) es = false ->
                  exists p,
                    snd (for_entries walkForPdfs dir es)
                    = inl (SystemError "EACCES" p)
                    /\ exists nm0,
                         In (p, nm0, Locked)
                            ((Path.join dir nm, nm, e)
                             :: entries_under (Path.join dir nm) e
                             ++ entries_of dir es)).
  { intros R'. destruct (IHes R') as (p & E & nm0 & I).
    exists p. split; [exact E|]. exists nm0. right. apply in_app_iff. now right. }
  destruct (isDirectory e) eqn:D.
  - destruct (readable e) eqn:Re.
    + destruct (walkForPdfs_returns e (Path.join dir nm) D Re) as (sub & Ws).
      destruct (Later R) as (p & E & I).
      exists p. split; [|exact I]. now rewrite snd_bind, Ws, snd_bind, E.
    + destruct (He (Path.join dir nm) eq_refl eq_refl) as (p & E & Where).
      exists p. split; [now rewrite snd_bind, E|].
      destruct Where as [[-> ->]|(nm0 & I)].
      * exists nm. now left.
      * exists nm0. right. apply in_app_iff. now left.
  - assert (Re : readable e = true) by (destruct e; try reflexivity; discriminate).
    rewrite Re in R. destruct (Later R) as (p & E & I).
    exists p. split; [|exact I].
    destruct (matches nm e); [now rewrite snd_bind, E|exact E].
Qed.

(** X3: the walk of a directory returns exactly when every directory under
    it can be read; otherwise it raises the read error of a directory that
    cannot be read, which is the directory itself or one somewhere under
    it. *)
Theorem walkForPdfs_fails_iff_unreadable
    (n : node) (dir : string) (D : isDirectory n = true) :
  (readable n = true <-> exists l, snd (walkForPdfs dir n) = inr l)
  /\ (readable n = false ->
      exists p,
        snd (walkForPdfs dir n) = inl (SystemError "EACCES" p)
        /\ ((p = dir /\ n = Locked)
            \/ exists nm, In (p, nm, Locked) (entries_under dir n))).
Proof.
  assert (F : forall n d,
             isDirectory n = true -> readable n = false ->
             exists p,
               snd (walkForPdfs d n) = inl (SystemError "EACCES" p)
               /\ ((p = d /\ n = Locked)
                   \/ exists nm, In (p, nm, Locked) (entries_under d n))).
  { clear. induction n as [| | |es IH] using node_induction; intros d D R;
      try discriminate.
    - exists d. split; [reflexivity|]. now left.
    - rewrite readable_Dir in R.
      destruct (for_entries_fails d es IH R) as (p & E & I).
      exists p. rewrite walkForPdfs_Dir, snd_bind, entries_under_Dir.
      split; [exact E|now right]. }
  split; [split|].
  - now apply walkForPdfs_returns.
  - intros (l & W). destruct (readable n) eqn:R; [reflexivity|].
    destruct (F n dir D R) as (p & E & _). congruence.
  - now apply F.
Qed.

Lemma walkForPdfs_fails_iff_unreadable_witness :
  let root := Dir [("a.pdf", File); ("sub", Dir [("deep", Locked)])] in
  isDirectory root = true
  /\ readable root = false
  /\ exists p,
       snd (walkForPdfs "/w/docs" root) = inl (SystemError "EACCES" p)
       /\ ((p = "/w/docs" /\ root = Locked)
           \/ exists nm, In (p, nm, Locked) (entries_under "/w/docs" root)).
Proof.
  intros root. split; [reflexivity|]. split; [reflexivity|].
  exact (proj2 (walkForPdfs_fails_iff_unreadable root "/w/docs" eq_refl) eq_refl).
Defined.

Lemma for_entries_reads (dir : string) (es : list (string * node)) :
  Forall (fun x => forall d,
            isDirectory (snd x) = true -> readable (snd x) = true ->
            fst (walkForPdfs d (snd x))
            = map Readdir
                (d :: map entry_path
                        (filter entry_is_directory (entries_under d (snd x))))) es ->
  forallb (fun x => readable (snd x)) es = true ->
  fst (for_entries walkForPdfs dir es)
  = map Readdir
      (map entry_path (filter entry_is_directory (entries_of dir es))).
Proof.
  induction es as [|[nm e] es IHes]; intros IH R; [reflexivity|].
  inversion IH as [|? ? He Hes]; subst.
  cbn [forallb snd] in R. apply andb_true_iff in R as [Re Res].
  specialize (IHes Hes Res). cbn [snd] in He.
  assert (Rr : readable (Dir es) = true) by now rewrite readable_Dir.
  destruct (walkForPdfs_returns (Dir es) dir eq_refl Rr) as (rest & Wr).
  rewrite walkForPdfs_Dir, snd_bind in Wr. cbn [emit snd] in Wr.
  cbn [for_entries entries_of].
  rewrite filter_cons_if, filter_app.
  unfold entry_is_directory at 1. cbn [snd].
  destruct (isDirectory e) eqn:D.
  - destruct (walkForPdfs_returns e (Path.join dir nm) D Re) as (sub & Ws).
    rewrite fst_bind, Ws, fst_bind, Wr, (He _ eq_refl Re), IHes.
    cbn [fst ret map entry_path]. now rewrite app_nil_r, !map_app.
  - assert (E : entries_under (Path.join dir nm) e = [])
      by (apply entries_under_not_Dir; intros es' ->; discriminate).
    rewrite E. cbn [filter map app].
    destruct (matches nm e); [|exact IHes].
    rewrite fst_bind, Wr, IHes. cbn [fst ret]. now rewrite app_nil_r.
Qed.

(** X4: when every directory can be read, the walk reads the root and
    every directory under it once each, in the order of the traversal, and
    does nothing else to the world. *)
Theorem walkForPdfs_reads_each_directory_once
    (n : node) (dir : string)
    (D : isDirectory n = true) (R : readable n = true) :
  fst (walkForPdfs dir n)
  = map Readdir
      (dir :: map entry_path
                (filter entry_is_directory (entries_under dir n))).
Proof.
  revert dir D R.
  induction n as [| | |es IH] using node_induction; intros dir D R;
    try discriminate.
  rewrite readable_Dir in R.
  rewrite walkForPdfs_Dir, fst_bind, entries_under_Dir. cbn [emit fst snd].
  now rewrite (for_entries_reads dir es IH R).
Qed.

Lemma walkForPdfs_reads_each_directory_once_witness :
  let root := Dir [("a", Dir [("b", Dir [])]); ("x.pdf", File); ("c", Dir [])] in
  isDirectory root = true /\ readable root = true
  /\ fst (walkForPdfs "/w/docs" root)
     = [Readdir "/w/docs"; Readdir "/w/docs/a"; Readdir "/w/docs/a/b";
        Readdir "/w/docs/c"].
Proof.
  intros root. split; [reflexivity|]. split; [reflexivity|].
  exact (walkForPdfs_reads_each_directory_once root "/w/docs" eq_refl eq_refl).
Defined.

(** ** The tokenizer *)

Lemma match_runs_homogeneous (s : string) :
  Forall (fun r => string_forall
                     (fun c => Bool.eqb (Char.is_digit c) (run_kind r)) r = true)
         (match_runs s).
Proof.
  induction s as [|c s IH]; [constructor|].
  cbn [match_runs].
  assert (One : string_forall
                  (fun c0 => Bool.eqb (Char.is_digit c0)
                               (run_kind (String c EmptyString)))
                  (String c EmptyString) = true)
    by (simpl; now rewrite eqb_reflx).
  destruct (match_runs s) as [|[|d r] rs]; try (now repeat constructor).
  - constructor; [exact One|exact IH].
  - inversion IH as [|? ? Hd Hrs]; subst.
    destruct (Bool.eqb (Char.is_digit c) (Char.is_digit d)) eqn:E.
    + constructor; [|exact Hrs].
      apply eqb_prop in E. cbn [run_kind] in *. cbn [string_forall].
      rewrite eqb_reflx. cbn [andb]. now rewrite E.
    + constructor; [exact One|exact IH].
Qed.

Lemma match_runs_alternate (s : string) :
  Sorted (fun r1 r2 => run_kind r1 = negb (run_kind r2)) (match_runs s).
Proof.
  induction s as [|c s IH]; [constructor|].
  cbn [match_runs].
  pose proof (match_runs_nonempty s) as N.
  destruct (match_runs s) as [|[|d r] rs]; try (now repeat constructor).
  - inversion N; subst. congruence.
  - apply Sorted_inv in IH as [S H].
    destruct (Bool.eqb (Char.is_digit c) (Char.is_digit d)) eqn:E.
    + constructor; [exact S|].
      apply eqb_prop in E.
      destruct rs; constructor. apply HdRel_inv in H.
      cbn [run_kind] in *. now rewrite E.
    + constructor; [now constructor|]. constructor. cbn [run_kind].
      apply eqb_false_iff in E.
      destruct (Char.is_digit c), (Char.is_digit d); simpl; congruence.
Qed.

Lemma forall_kind (k : bool) (u : string) :
  string_forall (fun c => Bool.eqb (Char.is_digit c) k) u = true ->
  u <> EmptyString ->
  all_digits u = k /\ digit_free u = negb k.
Proof.
  induction u as [|c u IH]; intros H N; [congruence|]. clear N.
  cbn [string_forall] in H. apply andb_true_iff in H as [K H].
  apply eqb_prop in K. unfold digit_free in *. cbn [all_digits string_forall].
  rewrite K. destruct u as [|c' u].
  - simpl. now rewrite !andb_true_r.
  - destruct (IH H) as [-> ->]; [discriminate|]. now destruct k.
Qed.

(** X5: the runs of the tokenizer, put end to end, are the base name
    again; no run is empty; a run is all digits or has no digit, as its first
    code unit is; and two runs next to each other are of different kinds,
    so every run is as long as it can be. *)
Theorem match_runs_maximal (s : string) :
  String.concat "" (match_runs s) = s
  /\ Forall (fun r => r <> EmptyString
                      /\ all_digits r = run_kind r
                      /\ digit_free r = negb (run_kind r))
            (match_runs s)
  /\ Sorted (fun r1 r2 => run_kind r1 = negb (run_kind r2)) (match_runs s).
Proof.
  split; [apply match_runs_concat|]. split; [|apply match_runs_alternate].
  pose proof (match_runs_nonempty s) as N.
  pose proof (match_runs_homogeneous s) as H.
  induction (match_runs s) as [|r rs IH]; [constructor|].
  inversion N; inversion H; subst.
  constructor; [|now apply IH].
  split; [assumption|]. now apply forall_kind.
Qed.

(** X6: tokenizing a path fails exactly when its base name is empty, with
    the TypeError of calling [map] on [null]; otherwise there is at least
    one token, one for each run. *)
Theorem tokenize_fails_iff_empty_basename (p : string) :
  (Path.basename p = EmptyString <->
   exists e, tokenize p = inl e)
  /\ (Path.basename p <> EmptyString ->
      exists t ts,
        tokenize p = inr (t :: ts)
        /\ List.length (t :: ts)
           = List.length (match_runs (Path.basename p))).
Proof.
  unfold tokenize. destruct (Path.basename p) as [|c b] eqn:B.
  - cbn. split; [|intros N; now destruct N]. split; [eauto|reflexivity].
  - pose proof (match_runs_concat (String c b)) as C.
    destruct (match_runs (String c b)) as [|r rs] eqn:M; [discriminate|].
    split; [split; [discriminate|now intros (e & E)]|].
    intros _. exists (token_of_run r), (map token_of_run rs).
    split; [reflexivity|]. cbn [List.length]. now rewrite length_map.
Qed.

Lemma tokenize_fails_iff_empty_basename_witness :
  Path.basename "/w/docs/a1.pdf" <> EmptyString
  /\ exists t ts,
       tokenize "/w/docs/a1.pdf" = inr (t :: ts)
       /\ List.length (t :: ts)
          = List.length (match_runs (Path.basename "/w/docs/a1.pdf")).
Proof.
  assert (N : Path.basename "/w/docs/a1.pdf" <> EmptyString)
    by (vm_compute; discriminate).
  split; [exact N|].
  exact (proj2 (tokenize_fails_iff_empty_basename "/w/docs/a1.pdf") N).
Defined.

Lemma toLowerCase_char_idempotent (c : ascii) :
  Char.toLowerCase (Char.toLowerCase c) = Char.toLowerCase c.
Proof. each_char c; reflexivity. Qed.

Lemma toLowerCase_idempotent (s : string) :
  toLowerCase (toLowerCase s) = toLowerCase s.
Proof.
  induction s as [|c s IH]; simpl; [reflexivity|].
  now rewrite toLowerCase_char_idempotent, IH.
Qed.

Lemma toLowerCase_digit (c : ascii) :
  Char.is_digit c = true -> Char.toLowerCase c = c.
Proof. each_char c; vm_compute; congruence. Qed.

Lemma toLowerCase_digits (s : string) :
  all_digits s = true -> toLowerCase s = s.
Proof.
  induction s as [|c s IH]; simpl; [reflexivity|].
  rewrite andb_true_iff. intros [D H].
  now rewrite (toLowerCase_digit _ D), (IH H).
Qed.

Lemma Number_of_string_toLowerCase_same (t : string) :
  names_infinity t = false ->
  Number_of_string (toLowerCase t) = Number_of_string t.
Proof.
  unfold names_infinity, Number_of_string.
  rewrite !orb_false_iff. intros [[I1 I2] I3].
  rewrite trim_toLowerCase, all_digits_toLowerCase.
  destruct (toLowerCase_not_Infinity (trim t)) as (H1 & H2 & H3).
  rewrite H1, H2, H3, I1, I2, I3.
  destruct (String.eqb_spec (trim t) "") as [E|N].
  - now rewrite E.
  - destruct (String.eqb_spec (toLowerCase (trim t)) "") as [E|_].
    + now apply (proj1 (toLowerCase_empty _)) in E.
    + destruct (all_digits (trim t)) eqn:D; [|reflexivity].
      now rewrite (toLowerCase_digits _ D).
Qed.

Lemma token_of_run_toLowerCase (t : string) :
  names_infinity t = false ->
  token_of_run (toLowerCase t) = token_of_run t.
Proof.
  intros I. unfold token_of_run.
  rewrite (Number_of_string_toLowerCase_same _ I).
  destruct (Number_of_string t); [reflexivity|].
  now rewrite toLowerCase_idempotent.
Qed.

Lemma match_runs_toLowerCase (s : string) :
  match_runs (toLowerCase s) = map toLowerCase (match_runs s).
Proof.
  induction s as [|c s IH]; [reflexivity|].
  cbn [toLowerCase match_runs]. rewrite IH.
  destruct (match_runs s) as [|[|d r] rs]; try reflexivity.
  cbn [map toLowerCase]. rewrite !is_digit_toLowerCase.
  now destruct (Bool.eqb (Char.is_digit c) (Char.is_digit d)).
Qed.

Lemma tokenize_by_lowercase (p : string) :
  no_infinity_run p ->
  tokenize p
  = match match_runs (toLowerCase (Path.basename p)) with
    | [] => inl (TypeError "Cannot read properties of null (reading 'map')")
    | runs => inr (map token_of_run runs)
    end.
Proof.
  unfold no_infinity_run, tokenize. intros H.
  rewrite match_runs_toLowerCase.
  assert (E : map token_of_run (map toLowerCase (match_runs (Path.basename p)))
              = map token_of_run (match_runs (Path.basename p))).
  { induction H as [|r rs I _ IH]; [reflexivity|].
    cbn [map]. now rewrite (token_of_run_toLowerCase _ I), IH. }
  destruct (match_runs (Path.basename p)); [reflexivity|].
  cbn [map] in *. now rewrite E.
Qed.

(** X7: the natural sort does not see the case of letters: two paths whose
    base names are the same once lowercased have the same tokens, hence
    compare 0, provided no run of either is read as an infinity (the
    spelling [Infinity] between digits is a number, other spellings of the
    word are text). *)
Theorem tokenize_ignores_case
    (p1 p2 : string)
    (H : toLowerCase (Path.basename p1) = toLowerCase (Path.basename p2))
    (I1 : no_infinity_run p1) (I2 : no_infinity_run p2) :
  tokenize p1 = tokenize p2.
Proof.
  now rewrite (tokenize_by_lowercase _ I1), (tokenize_by_lowercase _ I2), H.
Qed.

Lemma tokenize_ignores_case_witness :
  toLowerCase (Path.basename "/w/docs/Track2.PDF")
  = toLowerCase (Path.basename "/w/docs/track2.pdf")
  /\ no_infinity_run "/w/docs/Track2.PDF"
  /\ no_infinity_run "/w/docs/track2.pdf"
  /\ tokenize "/w/docs/Track2.PDF" = tokenize "/w/docs/track2.pdf".
Proof.
  assert (I1 : no_infinity_run "/w/docs/Track2.PDF")
    by (unfold no_infinity_run; vm_compute; repeat constructor).
  assert (I2 : no_infinity_run "/w/docs/track2.pdf")
    by (unfold no_infinity_run; vm_compute; repeat constructor).
  refine (conj eq_refl (conj I1 (conj I2 _))).
  exact (tokenize_ignores_case "/w/docs/Track2.PDF" "/w/docs/track2.pdf"
           eq_refl I1 I2).
Defined.

(** ** Numbers in names *)

Lemma round_double_exact (z : Z) :
  Z.abs z < 2 ^ 53 -> round_double z = Fin z.
Proof.
  assert (P : forall p, 0 < p -> p < 2 ^ 53 -> round_pos p = Some p).
  { intros p Hp Hlt. unfold round_pos.
    apply (proj1 (Z.log2_lt_pow2 p 53 Hp)) in Hlt.
    destruct (Z.leb_spec (Z.log2 p - 52) 0); [reflexivity|lia]. }
  destruct z as [|p|p]; intros H; [reflexivity| |].
  - unfold round_double. rewrite P; [reflexivity|lia|lia].
  - unfold round_double. rewrite P; [reflexivity|lia|lia].
Qed.

Lemma digit_value_bounds (c : ascii) :
  Char.is_digit c = true -> 0 <= Char.digit_value c <= 9.
Proof. each_char c; vm_compute; intuition congruence. Qed.

Lemma decimal_value_bounds (r : string) :
  forall acc,
    all_digits r = true -> 0 <= acc ->
    0 <= decimal_value acc r
    /\ decimal_value acc r < (acc + 1) * 10 ^ Z.of_nat (String.length r).
Proof.
  induction r as [|c r IH]; intros acc D A.
  - simpl. lia.
  - cbn [all_digits] in D. apply andb_true_iff in D as [Dc D].
    pose proof (digit_value_bounds c Dc) as B.
    cbn [decimal_value String.length].
    destruct (IH (10 * acc + Char.digit_value c) D) as [L U]; [lia|].
    split; [exact L|].
    rewrite Nat2Z.inj_succ, Z.pow_succ_r by lia.
    assert (0 < 10 ^ Z.of_nat (String.length r)) by (apply Z.pow_pos_nonneg; lia).
    nia.
Qed.

Lemma short_digits_exact (r : string) :
  all_digits r = true -> (String.length r <= 15)%nat ->
  0 <= decimal_value 0 r < 10 ^ 15
  /\ token_of_run r = TNum (Fin (decimal_value 0 r)).
Proof.
  intros D L.
  destruct (decimal_value_bounds r 0 D) as [Lo Hi]; [lia|].
  assert (B : decimal_value 0 r < 10 ^ 15).
  { eapply Z.lt_le_trans; [exact Hi|]. rewrite Z.mul_1_l.
    apply Z.pow_le_mono_r; lia. }
  split; [lia|].
  unfold token_of_run. rewrite (Number_of_digits _ D), round_double_exact;
    [reflexivity|].
  assert (10 ^ 15 < 2 ^ 53) by reflexivity. lia.
Qed.

(** X8: two runs of at most fifteen digits are compared by their integer
    values, leading zeros or not: with equal values the comparator goes on
    to the next position, otherwise it returns the difference of the two
    values, exactly. *)
Theorem digit_runs_compare_by_value
    (r1 r2 : string)
    (D1 : all_digits r1 = true) (D2 : all_digits r2 = true)
    (L1 : (String.length r1 <= 15)%nat) (L2 : (String.length r2 <= 15)%nat) :
  compare_at (token_of_run r1) (token_of_run r2)
  = if decimal_value 0 r1 =? decimal_value 0 r2 then None
    else Some (Fin (decimal_value 0 r1 - decimal_value 0 r2)).
Proof.
  destruct (short_digits_exact r1 D1 L1) as [B1 ->].
  destruct (short_digits_exact r2 D2 L2) as [B2 ->].
  cbn [compare_at jsnum_eqb jsnum_sub].
  destruct (decimal_value 0 r1 =? decimal_value 0 r2); [reflexivity|].
  cbn [negb]. rewrite round_double_exact; [reflexivity|].
  assert (10 ^ 15 < 2 ^ 53) by reflexivity. lia.
Qed.

Lemma digit_runs_compare_by_value_witness :
  all_digits "0010" = true /\ all_digits "9" = true
  /\ (String.length "0010" <= 15)%nat /\ (String.length "9" <= 15)%nat
  /\ compare_at (token_of_run "0010") (token_of_run "9") = Some (Fin 1).
Proof.
  refine (conj eq_refl (conj eq_refl _)).
  assert (L1 : (String.length "0010" <= 15)%nat) by (simpl; lia).
  assert (L2 : (String.length "9" <= 15)%nat) by (simpl; lia).
  refine (conj L1 (conj L2 _)).
  exact (digit_runs_compare_by_value "0010" "9" eq_refl eq_refl L1 L2).
Defined.

Lemma trim_start_spaces (r : string) :
  string_forall Char.is_space r = true -> trim_start r = EmptyString.
Proof.
  induction r as [|c r IH]; simpl; [reflexivity|].
  rewrite andb_true_iff. intros [-> H]. now apply IH.
Qed.

(** X9: a run of white space only (blanks, tabs, line ends, no-break
    spaces) is not text for the natural sort: it is the number 0, as
    [isNaN] of a blank string is false. *)
Theorem blank_run_is_zero (r : string) (H : string_forall Char.is_space r = true) :
  isNaN r = false /\ token_of_run r = TNum (Fin 0).
Proof.
  unfold isNaN, token_of_run, Number_of_string, trim.
  now rewrite (trim_start_spaces _ H).
Qed.

Lemma blank_run_is_zero_witness :
  string_forall Char.is_space "  " = true
  /\ isNaN "  " = false /\ token_of_run "  " = TNum (Fin 0).
Proof.
  split; [reflexivity|]. exact (blank_run_is_zero "  " eq_refl).
Defined.

(** ** The comparator and the sort *)

Lemma lex_compare_antisym (xs ys : list token) :
  same_kinds xs ys = true ->
  lex_compare ys xs = CompOpp (lex_compare xs ys).
Proof.
  revert ys. induction xs as [|x xs IH]; intros [|y ys]; simpl;
    try reflexivity.
  rewrite andb_true_iff, eqb_true_iff. intros [K S].
  rewrite (token_compare_antisym y x (eq_sym K)).
  destruct (token_compare x y); simpl; [now apply IH|reflexivity|reflexivity].
Qed.

Lemma comparator_sign_swap (a b : FileRecord) :
  same_kinds (tokens a) (tokens b) = true ->
  jsnum_sgn (comparator b a) = - jsnum_sgn (comparator a b).
Proof.
  intros K. unfold comparator.
  rewrite !compare_tokens_sign, (lex_compare_antisym _ _ K).
  now destruct (lex_compare (tokens a) (tokens b)).
Qed.

(** X10: the comparator never puts each of two records strictly before the
    other; and on two records that hold tokens of the same kind at every
    position they share, swapping the arguments swaps the sign of the
    result. *)
Theorem comparator_antisymmetric (a b : FileRecord) :
  (jsnum_sgn (comparator a b) < 0 -> 0 < jsnum_sgn (comparator b a))
  /\ (same_kinds (tokens a) (tokens b) = true ->
      jsnum_sgn (comparator b a) = - jsnum_sgn (comparator a b)).
Proof.
  unfold comparator. rewrite !compare_tokens_sign. split.
  - destruct (lex_compare (tokens a) (tokens b)) eqn:C; simpl; try lia.
    intros _. rewrite (lex_compare_lt_gt _ _ C). simpl. lia.
  - intros K. rewrite <- !compare_tokens_sign.
    now apply comparator_sign_swap.
Qed.

Lemma comparator_antisymmetric_witness :
  let a := mkRecord "/w/docs/a2.pdf" [TStr "a"; TNum (Fin 2); TStr ".pdf"] in
  let b := mkRecord "/w/docs/a10.pdf" [TStr "a"; TNum (Fin 10); TStr ".pdf"] in
  same_kinds (tokens a) (tokens b) = true
  /\ jsnum_sgn (comparator b a) = - jsnum_sgn (comparator a b).
Proof.
  intros a b. split; [reflexivity|].
  exact (proj2 (comparator_antisymmetric a b) eq_refl).
Defined.

Lemma Sorted_impl_In {A : Type} (R R' : A -> A -> Prop) (l : list A) :
  (forall a b, In a l -> In b l -> R a b -> R' a b) ->
  Sorted R l -> Sorted R' l.
Proof.
  induction l as [|x l IH]; intros H S; [constructor|].
  apply Sorted_inv in S as [S Hd]. constructor.
  - apply IH; [|exact S]. intros a b Ia Ib. apply H; now right.
  - destruct l as [|y l]; constructor. apply HdRel_inv in Hd.
    apply H; [now left|right; now left|exact Hd].
Qed.

Lemma Sorted_Strongly_In {A : Type} (R : A -> A -> Prop) (l : list A) :
  (forall a b c, In a l -> In b l -> In c l -> R a b -> R b c -> R a c) ->
  Sorted R l -> StronglySorted R l.
Proof.
  induction l as [|x l IH]; intros T S; [constructor|].
  apply Sorted_inv in S as [S Hd].
  assert (SS : StronglySorted R l).
  { apply IH; [|exact S]. intros a b c Ia Ib Ic. apply T; now right. }
  constructor; [exact SS|].
  destruct l as [|y l]; [constructor|].
  apply HdRel_inv in Hd. apply StronglySorted_inv in SS as [_ F].
  constructor; [exact Hd|].
  rewrite Forall_forall in *. intros z Iz.
  apply (T x y z); [now left|right; now left|right; now right|exact Hd|].
  now apply F.
Qed.

(** X11: on records that hold tokens of the same kind at every position
    they share, sorting gives a permutation of the records in which every
    record sorts no later than every record after it. *)
Theorem sort_records_sorted (l : list FileRecord) (K : same_kinds_on l) :
  Permutation (sort_records l) l
  /\ StronglySorted sorts_le (sort_records l).
Proof.
  split; [apply sort_Permutation, comparator_before_asym|].
  assert (In_l : forall a, In a (sort_records l) -> In a l)
    by (intros a; apply In_sort, comparator_before_asym).
  apply Sorted_Strongly_In.
  - intros a b c Ia Ib Ic. rewrite !sorts_le_lex.
    apply lex_compare_trans; apply K; auto.
  - apply (Sorted_impl_In (may_follow comparator)).
    + intros a b Ia Ib M. unfold may_follow, before in M.
      apply Z.ltb_ge in M. unfold sorts_le.
      rewrite (comparator_sign_swap b a) by (apply K; auto). lia.
    + apply sort_Sorted, comparator_before_asym.
Qed.

Lemma sort_records_sorted_witness :
  let a := mkRecord "/w/docs/a10.pdf" [TStr "a"; TNum (Fin 10); TStr ".pdf"] in
  let b := mkRecord "/w/docs/a2.pdf" [TStr "a"; TNum (Fin 2); TStr ".pdf"] in
  same_kinds_on [a; b]
  /\ StronglySorted sorts_le (sort_records [a; b]).
Proof.
  intros a b.
  assert (K : same_kinds_on [a; b]).
  { intros x y [<-|[<-|[]]] [<-|[<-|[]]]; reflexivity. }
  split; [exact K|].
  exact (proj2 (sort_records_sorted [a; b] K)).
Defined.

(** ** [encodeURI] *)

Lemma string_forall_append (p : ascii -> bool) (a b : string) :
  string_forall p (a ++ b) = (string_forall p a && string_forall p b)%bool.
Proof.
  induction a as [|c a IH]; simpl; [reflexivity|].
  now rewrite IH, andb_assoc.
Qed.

Lemma encode_unit_output (c : ascii) :
  string_forall uri_output_unit (encode_unit c) = true.
Proof. each_char c; reflexivity. Qed.

Lemma mem_char_forall (c : ascii) (p : ascii -> bool) (s : string) :
  p c = false -> string_forall p s = true -> mem_char c s = false.
Proof.
  intros Hc. induction s as [|d s IH]; simpl; [reflexivity|].
  rewrite andb_true_iff. intros [Hd H]. rewrite (IH H), orb_false_r.
  destruct (Ascii.eqb_spec c d) as [->|]; [congruence|reflexivity].
Qed.

(** X12: whatever the string, [encodeURI] puts out only the code units it
    leaves unescaped and the percent sign: in particular no double quote, no
    blank and no angle bracket, so the link a name is put in is never closed
    by the name. *)
Theorem encodeURI_output (s : string) :
  string_forall uri_output_unit (encodeURI s) = true
  /\ mem_char (ascii_of_nat 34) (encodeURI s) = false
  /\ mem_char " " (encodeURI s) = false
  /\ mem_char "<" (encodeURI s) = false
  /\ mem_char ">" (encodeURI s) = false.
Proof.
  assert (H : string_forall uri_output_unit (encodeURI s) = true).
  { induction s as [|c s IH]; [reflexivity|].
    cbn [encodeURI]. now rewrite string_forall_append, encode_unit_output, IH. }
  split; [exact H|].
  repeat split; apply (mem_char_forall _ uri_output_unit); auto.
Qed.

Lemma encode_unit_length (c : ascii) :
  String.length (encode_unit c)
  = if uri_unescaped c then 1%nat
    else if Nat.ltb (Char.code c) 128 then 3%nat else 6%nat.
Proof. each_char c; reflexivity. Qed.

Lemma encodeURI_length (s : string) :
  (String.length s <= String.length (encodeURI s))%nat
  /\ (String.length (encodeURI s) = String.length s ->
      string_forall uri_unescaped s = true).
Proof.
  induction s as [|c s [IH1 IH2]]; [now split|].
  cbn [encodeURI String.length string_forall].
  rewrite length_append, encode_unit_length.
  destruct (uri_unescaped c).
  - split; [lia|]. intros E. apply IH2. lia.
  - destruct (Nat.ltb (Char.code c) 128); split; lia.
Qed.

(** X13: [encodeURI] gives a string back as it is exactly when each of its
    code units is one that is left unescaped; any other string gets
    longer. *)
Theorem encodeURI_fixes_safe_strings (s : string) :
  (encodeURI s = s <-> string_forall uri_unescaped s = true)
  /\ (String.length s <= String.length (encodeURI s))%nat.
Proof.
  split; [|apply encodeURI_length]. split.
  - intros E. apply encodeURI_length. now rewrite E.
  - induction s as [|c s IH]; [reflexivity|].
    cbn [string_forall encodeURI]. rewrite andb_true_iff. intros [U H].
    unfold encode_unit. rewrite U. cbn. now rewrite (IH H).
Qed.

(** ** Paths *)

Lemma str_split_app (sep : ascii) (a b : string) :
  str_split sep (a ++ String sep b) = str_split sep a ++ str_split sep b.
Proof.
  induction a as [|c a IH]; cbn [append str_split].
  - now rewrite Ascii.eqb_refl.
  - rewrite IH. destruct (Ascii.eqb c sep); [reflexivity|].
    pose proof (str_split_not_nil sep a) as N.
    destruct (str_split sep a); [congruence|reflexivity].
Qed.

Lemma str_split_no_sep (sep : ascii) (s : string) :
  mem_char sep s = false -> str_split sep s = [s].
Proof.
  induction s as [|c s IH]; cbn [mem_char str_split]; [reflexivity|].
  rewrite orb_false_iff. intros [N H]. rewrite Ascii.eqb_sym, N, (IH H).
  reflexivity.
Qed.

Lemma str_split_parts (sep : ascii) (s : string) :
  Forall (fun r => mem_char sep r = false) (str_split sep s).
Proof.
  induction s as [|c s IH]; cbn [str_split]; [now repeat constructor|].
  destruct (Ascii.eqb c sep) eqn:E; [now constructor|].
  destruct (str_split sep s) as [|r rs].
  - constructor; [|constructor]. cbn [mem_char]. now rewrite Ascii.eqb_sym, E.
  - inversion IH; subst. constructor; [|assumption].
    cbn [mem_char]. rewrite Ascii.eqb_sym, E. assumption.
Qed.

Lemma simple_name_tests (s : string) :
  simple_name s = true ->
  String.eqb s "" = false /\ String.eqb s "." = false
  /\ String.eqb s ".." = false /\ mem_char Path.sep s = false.
Proof.
  unfold simple_name. rewrite !andb_true_iff, !negb_true_iff. tauto.
Qed.

Lemma normalize_acc_simple (l acc : list string) :
  Forall (fun s => simple_name s = true) l ->
  Path.normalize_acc acc l = rev acc ++ l.
Proof.
  revert acc. induction l as [|s l IH]; intros acc H; cbn [Path.normalize_acc].
  - now rewrite app_nil_r.
  - inversion H as [|? ? Hs Hl]; subst.
    destruct (simple_name_tests s Hs) as (E1 & E2 & E3 & _).
    rewrite E1, E2, E3. cbn [orb]. rewrite (IH _ Hl). cbn [rev].
    now rewrite <- app_assoc.
Qed.

Lemma normalize_acc_snoc (nm : string) (l acc : list string) :
  simple_name nm = true ->
  Path.normalize_acc acc (l ++ [nm]) = Path.normalize_acc acc l ++ [nm].
Proof.
  intros Hn. destruct (simple_name_tests nm Hn) as (E1 & E2 & E3 & _).
  revert acc. induction l as [|s l IH]; intros acc;
    cbn [app Path.normalize_acc].
  - now rewrite E1, E2, E3.
  - destruct (String.eqb s "" || String.eqb s ".")%bool; [apply IH|].
    destruct (String.eqb s ".."); apply IH.
Qed.

Lemma normalize_acc_all_simple (l acc : list string) :
  Forall (fun s => simple_name s = true) acc ->
  Forall (fun r => mem_char Path.sep r = false) l ->
  Forall (fun s => simple_name s = true) (Path.normalize_acc acc l).
Proof.
  revert acc. induction l as [|s l IH]; intros acc Ha Hl;
    cbn [Path.normalize_acc].
  - now apply Forall_rev.
  - inversion Hl as [|? ? Hs Hl']; subst.
    destruct (String.eqb s "") eqn:E1; [now apply IH|].
    destruct (String.eqb s ".") eqn:E2; [now apply IH|].
    cbn [orb]. destruct (String.eqb s "..") eqn:E3.
    + apply IH; [|exact Hl']. destruct acc; [constructor|now inversion Ha].
    + apply IH; [|exact Hl']. constructor; [|exact Ha].
      unfold simple_name. now rewrite E1, E2, E3, Hs.
Qed.

Lemma segments_simple (p : string) :
  Forall (fun s => simple_name s = true) (Path.segments p).
Proof.
  apply normalize_acc_all_simple; [constructor|apply str_split_parts].
Qed.

Lemma split_join_slash (l : list string) :
  Forall (fun s => simple_name s = true) l -> l <> [] ->
  str_split Path.sep (arr_join "/" l) = l.
Proof.
  induction l as [|x l IH]; intros H N; [congruence|]. clear N.
  inversion H as [|? ? Hx Hl]; subst.
  destruct (simple_name_tests x Hx) as (_ & _ & _ & Sx).
  destruct l as [|y l]; [now apply str_split_no_sep|].
  change (arr_join "/" (x :: y :: l))
    with (x ++ String Path.sep (arr_join "/" (y :: l)))%string.
  rewrite str_split_app, (str_split_no_sep _ _ Sx), IH;
    [reflexivity|exact Hl|discriminate].
Qed.

Lemma str_split_normalize (p : string) :
  Path.segments p <> [] ->
  str_split Path.sep (Path.normalize p) = EmptyString :: Path.segments p.
Proof.
  intros N. unfold Path.normalize.
  change ("/" ++ arr_join "/" (Path.segments p))%string
    with (String Path.sep (arr_join "/" (Path.segments p))).
  cbn [str_split]. rewrite Ascii.eqb_refl.
  now rewrite (split_join_slash _ (segments_simple p) N).
Qed.

(** Normalizing does not change the segments of a path. *)
Lemma segments_normalize (p : string) :
  Path.segments (Path.normalize p) = Path.segments p.
Proof.
  destruct (Path.segments p) as [|s l] eqn:E.
  - unfold Path.normalize. rewrite E. reflexivity.
  - unfold Path.segments at 1. rewrite str_split_normalize by congruence.
    cbn [Path.normalize_acc String.eqb orb].
    rewrite normalize_acc_simple by apply segments_simple.
    now rewrite E.
Qed.

Lemma segments_join (dir nm : string) :
  simple_name nm = true ->
  Path.segments (Path.join dir nm) = Path.segments dir ++ [nm].
Proof.
  intros Hn. destruct (simple_name_tests nm Hn) as (_ & _ & _ & Sn).
  unfold Path.join. rewrite segments_normalize. unfold Path.segments.
  change (dir ++ "/" ++ nm)%string with (dir ++ String Path.sep nm)%string.
  rewrite str_split_app, (str_split_no_sep _ _ Sn).
  now apply normalize_acc_snoc.
Qed.

Lemma filter_simple_nonempty (l : list string) :
  Forall (fun s => simple_name s = true) l ->
  filter (fun s => negb (String.eqb s "")) l = l.
Proof.
  induction 1 as [|s l Hs _ IH]; [reflexivity|].
  cbn [filter]. destruct (simple_name_tests s Hs) as (-> & _).
  cbn [negb]. now rewrite IH.
Qed.

Lemma basename_join (dir nm : string) :
  simple_name nm = true -> Path.basename (Path.join dir nm) = nm.
Proof.
  intros Hn. unfold Path.basename, Path.join.
  pose proof (segments_join dir nm Hn) as S. unfold Path.join in S.
  rewrite segments_normalize in S.
  rewrite str_split_normalize by (rewrite S; now destruct (Path.segments dir)).
  cbn [filter String.eqb negb].
  rewrite filter_simple_nonempty by apply segments_simple.
  rewrite S. apply last_last.
Qed.

Lemma drop_common_prefix (a r : list string) :
  Path.drop_common a (a ++ r) = ([], r).
Proof.
  induction a as [|x a IH]; cbn [app Path.drop_common].
  - now destruct r.
  - now rewrite String.eqb_refl.
Qed.

Lemma segments_fold_join (names : list string) (dir : string) :
  Forall (fun s => simple_name s = true) names ->
  Path.segments (fold_left Path.join names dir) = Path.segments dir ++ names.
Proof.
  revert dir. induction names as [|nm names IH]; intros dir H; cbn [fold_left].
  - now rewrite app_nil_r.
  - inversion H; subst. rewrite IH by assumption.
    rewrite segments_join by assumption. now rewrite <- app_assoc.
Qed.

(** X14: for a file found some directories down, the path relative to the
    docs directory is the names on the way joined by slashes: the entry of
    the index has that text as its label and its [encodeURI] as its link,
    whatever the working directory. *)
Theorem list_item_of_nested_path
    (w : world) (names : list string)
    (H : Forall (fun s => simple_name s = true) names) :
  let absPath := fold_left Path.join names (Path.join (cwd w) "docs") in
  Path.relative (Path.join (cwd w) "docs") absPath = arr_join "/" names
  /\ list_item w absPath
     = (" <li><a href=" ++ dquote ++ encodeURI (arr_join "/" names) ++ dquote
        ++ ">" ++ arr_join "/" names ++ "</a></li>")%string.
Proof.
  intros absPath.
  assert (R : Path.relative (Path.join (cwd w) "docs") absPath
              = arr_join "/" names).
  { unfold Path.relative, absPath.
    now rewrite (segments_fold_join _ _ H), drop_common_prefix. }
  split; [exact R|].
  unfold list_item. now rewrite join_split_slash, R.
Qed.

Lemma list_item_of_nested_path_witness :
  Forall (fun s => simple_name s = true) ["tapes"; "side a.pdf"]
  /\ Path.relative (Path.join "/w" "docs")
       (fold_left Path.join ["tapes"; "side a.pdf"] (Path.join "/w" "docs"))
     = "tapes/side a.pdf".
Proof.
  assert (H : Forall (fun s => simple_name s = true) ["tapes"; "side a.pdf"])
    by (repeat constructor).
  split; [exact H|].
  exact (proj1 (list_item_of_nested_path (mkWorld "/w" None None) _ H)).
Defined.

(** ** From the walk to the index *)

Lemma well_named_Dir (es : list (string * node)) :
  well_named (Dir es)
  = forallb (fun x => simple_name (fst x) && well_named (snd x))%bool es.
Proof.
  induction es as [|[nm e] es IH]; simpl; [reflexivity|].
  simpl in IH. now rewrite IH.
Qed.

Lemma entries_under_named (n : node) :
  forall dir p nm e,
    well_named n = true ->
    In (p, nm, e) (entries_under dir n) ->
    simple_name nm = true /\ exists d, p = Path.join d nm.
Proof.
  induction n as [| | |es IH] using node_induction; intros dir p nm e N I;
    try contradiction.
  rewrite entries_under_Dir in I. rewrite well_named_Dir in N.
  induction es as [|[nm0 e0] es IHes]; [contradiction|].
  inversion IH as [|? ? He Hes]; subst.
  cbn [forallb fst snd] in N. apply andb_true_iff in N as [N Nes].
  apply andb_true_iff in N as [Nn Ne].
  cbn [entries_of] in I. destruct I as [I|I].
  - injection I as <- <- <-. split; [exact Nn|eauto].
  - apply in_app_iff in I as [I|I].
    + exact (He _ _ _ _ Ne I).
    + exact (IHes Hes Nes I).
Qed.

Lemma make_records_names (pdfs : list string) (objs : list FileRecord) :
  make_records pdfs = inr objs -> map name objs = pdfs.
Proof.
  revert objs. induction pdfs as [|p ps IH]; intros objs; cbn [make_records].
  - now intros [= <-].
  - destruct (tokenize p) as [|ts]; [discriminate|].
    destruct (make_records ps) as [|rs]; [discriminate|].
    intros [= <-]. cbn. now rewrite (IH rs eq_refl).
Qed.

Lemma make_records_returns (pdfs : list string) :
  Forall (fun p => Path.basename p <> EmptyString) pdfs ->
  exists objs,
    make_records pdfs = inr objs
    /\ Forall (fun o => tokens o <> []) objs.
Proof.
  induction 1 as [|p ps Hp _ (objs & E & T)]; [now exists []|].
  cbn [make_records]. unfold tokenize.
  pose proof (match_runs_concat (Path.basename p)) as C.
  destruct (match_runs (Path.basename p)) as [|r rs]; [now symmetry in C|].
  rewrite E. eexists. split; [reflexivity|].
  constructor; [discriminate|exact T].
Qed.

Lemma walk_paths_have_names
    (n : node) (dir : string) (pdfs : list string) :
  well_named n = true ->
  snd (walkForPdfs dir n) = inr pdfs ->
  Forall (fun p => Path.basename p <> EmptyString) pdfs.
Proof.
  intros N W. apply Forall_forall. intros p I.
  apply (walkForPdfs_result n dir pdfs W) in I as (nm & e & I & _).
  destruct (entries_under_named n dir p nm e N I) as (S & d & ->).
  rewrite (basename_join _ _ S).
  destruct (simple_name_tests nm S) as (E & _).
  now apply String.eqb_neq.
Qed.

(** X15: the paths the walk returns can always be tokenized: with entry
    names as [readdir] gives them, each path has its entry's name as base
    name, so every record is made, with its path as name and at least one
    token. *)
Theorem walk_paths_tokenize
    (n : node) (dir : string) (pdfs : list string)
    (N : well_named n = true)
    (W : snd (walkForPdfs dir n) = inr pdfs) :
  exists objs,
    make_records pdfs = inr objs
    /\ map name objs = pdfs
    /\ Forall (fun o => tokens o <> []) objs.
Proof.
  destruct (make_records_returns pdfs (walk_paths_have_names n dir pdfs N W))
    as (objs & E & T).
  exists objs. split; [exact E|]. split; [|exact T].
  now apply make_records_names.
Qed.

Lemma walk_paths_tokenize_witness :
  let root := Dir [("b2.pdf", File); ("sub", Dir [("a.jpg", Other)])] in
  let pdfs := ["/w/docs/b2.pdf"; "/w/docs/sub/a.jpg"] in
  well_named root = true
  /\ snd (walkForPdfs "/w/docs" root) = inr pdfs
  /\ exists objs,
       make_records pdfs = inr objs
       /\ map name objs = pdfs
       /\ Forall (fun o => tokens o <> []) objs.
Proof.
  intros root pdfs. split; [reflexivity|]. split; [reflexivity|].
  exact (walk_paths_tokenize root "/w/docs" pdfs eq_refl eq_refl).
Defined.

(** ** Runs of the program *)

Lemma main_of_stages (w : world) (root : node) :
  docs w = Some root ->
  let d := Path.join (cwd w) "docs" in
  main w
  = match walkForPdfs d root with
    | (t, inl e) =>
        ((Stat d :: t) ++ [ConsoleError [Str "Failed:"; Err e]; Exit 1], 1)
    | (t, inr pdfs) =>
        match make_records pdfs with
        | inl e =>
            ((Stat d :: t) ++ [ConsoleError [Str "Failed:"; Err e]; Exit 1], 1)
        | inr objs =>
            match write_failure w with
            | Some e =>
                ((Stat d :: t ++ [WriteFailed "docs/index.html"])
                   ++ [ConsoleError [Str "Failed:"; Err e]; Exit 1], 1)
            | None =>
                (Stat d
                   :: t ++ [WriteFile "docs/index.html"
                              (html_document
                                 (arr_join newline
                                    (map (list_item w)
                                         (map name (sort_records objs)))));
                            ConsoleLog (summary (List.length pdfs))], 0)
            end
        end
    end.
Proof.
  intros H d. unfold main. rewrite H, index_docs_stages. fold d.
  destruct (walkForPdfs d root) as [t [e|pdfs]]; [reflexivity|].
  destruct (make_records pdfs); [reflexivity|].
  now destruct (write_failure w).
Qed.

Lemma caught_failed (run : list event * Z) (e : error) :
  caught run e ->
  writes_failed (fst run) = []
  \/ writes_failed (fst run) = ["docs/index.html"] ->
  failed_run run.
Proof.
  intros (S & E & O & F & L) W.
  split; [exact S|]. split; [exact F|]. split; [exact W|].
  split; [exact O|]. split; [eauto|exact L].
Qed.

Lemma failed_after_reads (d : string) (t : list event) (e : error) :
  Forall is_Readdir t ->
  failed_run
    ((Stat d :: t) ++ [ConsoleError [Str "Failed:"; Err e]; Exit 1], 1).
Proof.
  intros R. apply (caught_failed _ e); [now apply caught_after_reads|].
  left. unfold writes_failed. cbn [fst flat_map app].
  rewrite flat_map_app. cbn [flat_map app]. rewrite app_nil_r.
  now apply no_failed_write.
Qed.

Lemma failed_after_failed_write (d : string) (t : list event) (e : error) :
  Forall is_Readdir t ->
  failed_run
    ((Stat d :: t ++ [WriteFailed "docs/index.html"])
       ++ [ConsoleError [Str "Failed:"; Err e]; Exit 1], 1).
Proof.
  intros R. apply (caught_failed _ e); [now apply caught_after_failed_write|].
  right. unfold writes_failed. cbn [fst flat_map app].
  rewrite !flat_map_app. cbn [flat_map app].
  fold (writes_failed t). now rewrite (no_failed_write t R).
Qed.

Lemma success_after_reads (d : string) (t : list event) (html : string) (n : nat) :
  Forall is_Readdir t ->
  successful_run
    (Stat d :: t ++ [WriteFile "docs/index.html" html; ConsoleLog (summary n)], 0).
Proof.
  intros R. destruct (only_Readdir t R) as (E1 & E2 & E3).
  pose proof (no_failed_write t R) as E4.
  unfold successful_run, printed_to_stderr, printed_to_stdout, files_written,
    writes_failed in *.
  cbn [fst snd flat_map]. rewrite !flat_map_app, E1, E2, E3, E4.
  split; [reflexivity|]. split; [reflexivity|].
  split; [now exists html|]. split; [reflexivity|]. split; [now exists n|].
  cbn [In]. intros [H|H]; [discriminate|].
  apply in_app_iff in H as [H|H].
  - rewrite Forall_forall in R. now apply R in H.
  - destruct H as [H|[H|[]]]; discriminate.
Qed.

(** X16: every run is of one of two kinds.  It succeeds: exit status 0,
    no [console.error] call, one write, of docs/index.html, which came to
    its end, no write that failed, and one [console.log] call, with the
    summary.  Or it fails: exit status 1, no write that came to its end,
    at most one write that failed, the one of docs/index.html (so that
    file, and no other, may be left cut short), no [console.log] call, one
    [console.error] call, and [process.exit(1)] as its last act. *)
Theorem main_succeeds_or_fails (w : world) :
  successful_run (main w) \/ failed_run (main w).
Proof.
  destruct (docs w) as [root|] eqn:H.
  - rewrite (main_of_stages w root H).
    pose proof (walkForPdfs_events root (Path.join (cwd w) "docs")) as R.
    destruct (walkForPdfs (Path.join (cwd w) "docs") root) as [t [e|pdfs]];
      cbn [fst] in R.
    + right. now apply failed_after_reads.
    + destruct (make_records pdfs) as [e|objs].
      * right. now apply failed_after_reads.
      * destruct (write_failure w) as [e|].
        -- right. now apply failed_after_failed_write.
        -- left. now apply success_after_reads.
  - right. unfold main. rewrite H.
    split; [reflexivity|]. split; [reflexivity|]. split; [now left|].
    split; [reflexivity|]. split; [now exists not_found_message|reflexivity].
Qed.

(** X17: with the docs directory there, every directory under it readable,
    entry names as [readdir] gives them and the write going through, the run
    succeeds, and the number in the summary is the number of entries under
    the docs directory that are not directories and pass the test of the
    walk. *)
Theorem main_succeeds
    (w : world) (root : node)
    (Hdocs : docs w = Some root)
    (D : isDirectory root = true) (R : readable root = true)
    (N : well_named root = true) (Wr : write_failure w = None) :
  snd (main w) = 0
  /\ printed_to_stdout (fst (main w))
     = [summary (List.length
                   (filter listed
                      (entries_under (Path.join (cwd w) "docs") root)))].
Proof.
  rewrite (main_of_stages w root Hdocs).
  pose proof (walkForPdfs_events root (Path.join (cwd w) "docs")) as Ev.
  destruct (walkForPdfs_returns root (Path.join (cwd w) "docs") D R)
    as (pdfs & W).
  pose proof (walkForPdfs_in_order root _ _ W) as O.
  destruct (make_records_returns pdfs (walk_paths_have_names root _ pdfs N W))
    as (objs & E & _).
  destruct (walkForPdfs (Path.join (cwd w) "docs") root) as [t r].
  cbn [fst snd] in *. subst r. rewrite E, Wr. cbn [fst snd].
  split; [reflexivity|].
  destruct (only_Readdir t Ev) as (_ & E2 & _).
  unfold printed_to_stdout in *. cbn [flat_map].
  rewrite flat_map_app, E2. cbn. now rewrite O, length_map.
Qed.

Lemma main_succeeds_witness :
  let root := Dir [("b2.pdf", File); ("notes.txt", File);
                   ("sub", Dir [("a.jpg", Other)])] in
  let w := mkWorld "/w" (Some root) None in
  docs w = Some root /\ isDirectory root = true /\ readable root = true
  /\ well_named root = true /\ write_failure w = None
  /\ snd (main w) = 0.
Proof.
  intros root w.
  refine (conj eq_refl (conj eq_refl (conj eq_refl (conj eq_refl (conj eq_refl _))))).
  exact (proj1 (main_succeeds w root eq_refl eq_refl eq_refl eq_refl eq_refl)).
Defined.

(** X18: when the run succeeds, the index lists the paths the walk
    returned, each once, in the order of the sort: the document written is
    the template around the list items of a permutation of them, and the
    number in the summary is the number of list items. *)
Theorem main_index_lists_the_walk (w : world) (H : snd (main w) = 0) :
  exists root pdfs order,
    docs w = Some root
    /\ snd (walkForPdfs (Path.join (cwd w) "docs") root) = inr pdfs
    /\ Permutation order pdfs
    /\ files_written (fst (main w))
       = [("docs/index.html",
           html_document (arr_join newline (map (list_item w) order)))]
    /\ printed_to_stdout (fst (main w)) = [summary (List.length order)].
Proof.
  destruct (docs w) as [root|] eqn:Hd;
    [|unfold main in H; rewrite Hd in H; discriminate].
  rewrite (main_of_stages w root Hd) in *.
  pose proof (walkForPdfs_events root (Path.join (cwd w) "docs")) as Ev.
  destruct (walkForPdfs (Path.join (cwd w) "docs") root) as [t [e|pdfs]] eqn:W;
    [discriminate|].
  destruct (make_records pdfs) as [e|objs] eqn:E; [discriminate|].
  destruct (write_failure w) as [e|]; [discriminate|].
  assert (P : Permutation (map name (sort_records objs)) pdfs).
  { rewrite <- (make_records_names pdfs objs E).
    apply Permutation_map, sort_Permutation, comparator_before_asym. }
  exists root, pdfs, (map name (sort_records objs)).
  destruct (only_Readdir t Ev) as (_ & E2 & E3).
  unfold printed_to_stdout, files_written in *.
  cbn [fst snd flat_map]. rewrite !flat_map_app, E2, E3.
  split; [reflexivity|]. split; [now rewrite W|]. split; [exact P|].
  split; [reflexivity|].
  cbn. now rewrite (Permutation_length P).
Qed.

Lemma main_index_lists_the_walk_witness :
  let w := mkWorld "/w" (Some (Dir [("b2.pdf", File); ("a.pdf", File)])) None in
  snd (main w) = 0
  /\ exists root pdfs order,
       docs w = Some root
       /\ snd (walkForPdfs (Path.join (cwd w) "docs") root) = inr pdfs
       /\ Permutation order pdfs
       /\ files_written (fst (main w))
          = [("docs/index.html",
              html_document (arr_join newline (map (list_item w) order)))]
       /\ printed_to_stdout (fst (main w)) = [summary (List.length order)].
Proof.
  intros w. split; [reflexivity|].
  exact (main_index_lists_the_walk w eq_refl).
Defined.

(** X19: when nothing under the docs directory passes the test of the walk
    (an empty directory, say), the run still succeeds: it writes the
    document with an empty line for the list and reports 0 files. *)
Theorem main_nothing_found
    (w : world) (root : node)
    (Hdocs : docs w = Some root)
    (D : isDirectory root = true) (R : readable root = true)
    (Wr : write_failure w = None)
    (E : filter listed (entries_under (Path.join (cwd w) "docs") root) = []) :
  snd (main w) = 0
  /\ files_written (fst (main w)) = [("docs/index.html", html_document "")]
  /\ printed_to_stdout (fst (main w)) = [summary 0].
Proof.
  rewrite (main_of_stages w root Hdocs).
  pose proof (walkForPdfs_events root (Path.join (cwd w) "docs")) as Ev.
  destruct (walkForPdfs_returns root (Path.join (cwd w) "docs") D R)
    as (pdfs & W).
  pose proof (walkForPdfs_in_order root _ _ W) as O. rewrite E in O.
  cbn [map] in O. subst pdfs.
  destruct (walkForPdfs (Path.join (cwd w) "docs") root) as [t r].
  cbn [fst snd] in *. subst r. cbn [make_records]. rewrite Wr.
  destruct (only_Readdir t Ev) as (_ & E2 & E3).
  unfold printed_to_stdout, files_written in *.
  cbn [fst snd flat_map]. rewrite !flat_map_app, E2, E3.
  now repeat split.
Qed.

Lemma main_nothing_found_witness :
  let root := Dir [("notes.txt", File); ("scans.jpg", Dir [])] in
  let w := mkWorld "/w" (Some root) None in
  docs w = Some root /\ isDirectory root = true /\ readable root = true
  /\ write_failure w = None
  /\ filter listed (entries_under (Path.join (cwd w) "docs") root) = []
  /\ snd (main w) = 0
  /\ files_written (fst (main w)) = [("docs/index.html", html_document "")]
  /\ printed_to_stdout (fst (main w)) = [summary 0].
Proof.
  intros root w.
  refine (conj eq_refl (conj eq_refl (conj eq_refl (conj eq_refl (conj eq_refl _))))).
  exact (main_nothing_found w root eq_refl eq_refl eq_refl eq_refl eq_refl).
Defined.

Lemma append_assoc (a b c : string) :
  ((a ++ b) ++ c = a ++ (b ++ c))%string.
Proof. induction a as [|x a IH]; simpl; [reflexivity|now rewrite IH]. Qed.

Lemma arr_join_snoc (sep : string) (l : list string) (x : string) :
  l <> [] -> arr_join sep (l ++ [x]) = (arr_join sep l ++ sep ++ x)%string.
Proof.
  induction l as [|y l IH]; intros N; [congruence|]. clear N.
  destruct l as [|z l]; [reflexivity|].
  change (arr_join sep ((y :: z :: l) ++ [x]))
    with (y ++ sep ++ arr_join sep ((z :: l) ++ [x]))%string.
  rewrite IH by discriminate.
  change (arr_join sep (y :: z :: l))
    with (y ++ sep ++ arr_join sep (z :: l))%string.
  now rewrite !append_assoc.
Qed.

Lemma join_ends_with_name (dir nm : string) :
  simple_name nm = true -> exists prefix, Path.join dir nm = (prefix ++ nm)%string.
Proof.
  intros Hn. pose proof (segments_join dir nm Hn) as S.
  unfold Path.join in *. rewrite segments_normalize in S.
  unfold Path.normalize. rewrite S.
  destruct (Path.segments dir) as [|s l] eqn:E.
  - now exists "/".
  - rewrite arr_join_snoc by discriminate.
    exists ("/" ++ arr_join "/" (s :: l) ++ "/")%string.
    now rewrite !append_assoc.
Qed.

(** X20: every path the walk returns ends with [.pdf] or with [jpg], as
    the name of its entry does. *)
Theorem walk_paths_end_with_pdf_or_jpg
    (n : node) (dir : string) (l : list string)
    (N : well_named n = true)
    (W : snd (walkForPdfs dir n) = inr l) :
  Forall (fun p => endsWith p ".pdf" = true \/ endsWith p "jpg" = true) l.
Proof.
  apply Forall_forall. intros p I.
  apply (walkForPdfs_result n dir l W) in I as (nm & e & I & _ & M).
  destruct (entries_under_named n dir p nm e N I) as (S & d & ->).
  destruct (join_ends_with_name d nm S) as (prefix & ->).
  destruct M as [[_ M]|M]; [left|right];
    apply endsWith_iff in M as (q & ->); apply endsWith_iff;
    exists (prefix ++ q)%string; now rewrite append_assoc.
Qed.

Lemma walk_paths_end_with_pdf_or_jpg_witness :
  let root := Dir [("b2.pdf", File); ("sub", Dir [("a.jpg", Other)])] in
  let l := ["/w/docs/b2.pdf"; "/w/docs/sub/a.jpg"] in
  well_named root = true
  /\ snd (walkForPdfs "/w/docs" root) = inr l
  /\ Forall (fun p => endsWith p ".pdf" = true \/ endsWith p "jpg" = true) l.
Proof.
  intros root l. split; [reflexivity|]. split; [reflexivity|].
  exact (walk_paths_end_with_pdf_or_jpg root "/w/docs" l eq_refl eq_refl).
Defined.

(** ** What the sort does on every list, and the sound parts of the order *)

(** X21: two text tokens are compared as text, by the lexical order of
    their code units: equal texts let the comparison go on to the next
    position, otherwise the comparator returns -1 or 1 by that order. *)
Theorem text_tokens_compare_lexically (s t : string) :
  compare_at (TStr s) (TStr t)
  = match String.compare s t with
    | Eq => None
    | Lt => Some (Fin (-1))
    | Gt => Some (Fin 1)
    end.
Proof.
  simpl. unfold String.ltb.
  destruct (String.eqb_spec s t) as [->|N]; simpl.
  - now rewrite string_compare_refl.
  - destruct (String.compare s t) eqn:C; try reflexivity.
    now apply String.compare_eq_iff in C.
Qed.

(** X22: the names a1.pdf, a2.pdf and a10.pdf, in any initial order, are
    sorted to a1.pdf, a2.pdf, a10.pdf: the digit runs compare by value. *)
Theorem natural_sort_example (l : list string)
    (P : Permutation l
           ["/w/docs/a1.pdf"; "/w/docs/a2.pdf"; "/w/docs/a10.pdf"]) :
  exists rs,
    make_records l = inr rs
    /\ map name (sort_records rs)
       = ["/w/docs/a1.pdf"; "/w/docs/a2.pdf"; "/w/docs/a10.pdf"].
Proof.
  apply perm3_cases in P.
  destruct P as [-> | [-> | [-> | [-> | [-> | ->]]]]];
    eexists; (split; [vm_compute; reflexivity | vm_compute; reflexivity]).
Qed.

Lemma natural_sort_example_witness :
  Permutation ["/w/docs/a10.pdf"; "/w/docs/a1.pdf"; "/w/docs/a2.pdf"]
    ["/w/docs/a1.pdf"; "/w/docs/a2.pdf"; "/w/docs/a10.pdf"]
  /\ exists rs,
       make_records ["/w/docs/a10.pdf"; "/w/docs/a1.pdf"; "/w/docs/a2.pdf"]
       = inr rs
       /\ map name (sort_records rs)
          = ["/w/docs/a1.pdf"; "/w/docs/a2.pdf"; "/w/docs/a10.pdf"].
Proof.
  assert (P : Permutation
                ["/w/docs/a10.pdf"; "/w/docs/a1.pdf"; "/w/docs/a2.pdf"]
                ["/w/docs/a1.pdf"; "/w/docs/a2.pdf"; "/w/docs/a10.pdf"]).
  { apply Permutation_cons_app
      with (l1 := ["/w/docs/a1.pdf"; "/w/docs/a2.pdf"]) (l2 := []).
    reflexivity. }
  split; [exact P|].
  exact (natural_sort_example
           ["/w/docs/a10.pdf"; "/w/docs/a1.pdf"; "/w/docs/a2.pdf"] P).
Defined.

(** X23: two names whose base names differ only in leading zeros inside
    digit runs have the same token sequence, and the comparator returns 0
    on their records, in both orders. *)
Theorem leading_zeros_same_tokens
    (p1 p2 : string) (H : same_up_to_zeros p1 p2) :
  tokenize p1 = tokenize p2
  /\ forall ts, tokenize p1 = inr ts ->
       comparator (mkRecord p1 ts) (mkRecord p2 ts) = Fin 0
       /\ comparator (mkRecord p2 ts) (mkRecord p1 ts) = Fin 0.
Proof.
  split.
  - unfold tokenize, same_up_to_zeros in *.
    assert (E : map token_of_run (match_runs (Path.basename p1))
                = map token_of_run (match_runs (Path.basename p2))).
    { induction H as [|r1 r2 l1 l2 R _ IH]; simpl; [reflexivity|].
      now rewrite (token_of_run_up_to_zeros _ _ R), IH. }
    destruct H; [reflexivity|now rewrite E].
  - intros ts _. split; apply compare_tokens_same.
Qed.

Lemma leading_zeros_same_tokens_witness :
  same_up_to_zeros "/w/docs/01.pdf" "/w/docs/1.pdf"
  /\ tokenize "/w/docs/01.pdf" = tokenize "/w/docs/1.pdf".
Proof.
  assert (H : same_up_to_zeros "/w/docs/01.pdf" "/w/docs/1.pdf").
  { unfold same_up_to_zeros. vm_compute.
    apply Forall2_cons; [right; repeat split|].
    apply Forall2_cons; [left; reflexivity|apply Forall2_nil]. }
  split; [exact H|].
  exact (proj1 (leading_zeros_same_tokens
                  "/w/docs/01.pdf" "/w/docs/1.pdf" H)).
Defined.

(** X24: whatever the records, sorting returns a permutation of them in
    which no record is one that the comparator puts strictly before the
    record right before it. *)
Theorem sort_records_in_order (l : list FileRecord) :
  Permutation (sort_records l) l
  /\ Sorted (may_follow comparator) (sort_records l).
Proof.
  split.
  - apply sort_Permutation, comparator_before_asym.
  - apply sort_Sorted, comparator_before_asym.
Qed.

(** X25: a list in which no record is one that the comparator puts
    strictly before the record right before it is left as it is by the
    sort: it is one run, and nothing is merged. *)
Theorem sort_records_of_sorted (l : list FileRecord)
    (S : Sorted (may_follow comparator) l) :
  sort_records l = l.
Proof. exact (sort_of_Sorted _ comparator l S). Qed.

Lemma sort_records_of_sorted_witness :
  let a := mkRecord "/w/docs/a.pdf" [TStr "a.pdf"] in
  let n := mkRecord "/w/docs/1.pdf" [TNum (Fin 1); TStr ".pdf"] in
  Sorted (may_follow comparator) [a; n; a]
  /\ sort_records [a; n; a] = [a; n; a].
Proof.
  intros a n.
  assert (S : Sorted (may_follow comparator) [a; n; a])
    by (repeat constructor).
  split; [exact S|].
  exact (sort_records_of_sorted [a; n; a] S).
Defined.
